(** * go-redis-bucket: a Redis-backed leaky-bucket rate limiter

    Shallow embedding of the limiter's Go sources and the properties its
    specification states about them.

    The repository carries two generations of the limiter facade: the
    functional-options one ([New], module [Opt]) and the configuration-struct
    one ([NewLimiter], module [Cfg]).  Both share the bucket model, the
    consolidation of tiers and the EVALSHA/EVAL fallback of [exec].  The Lua
    procedure they submit is embedded at build time and is not among the
    sources; the atomic evaluator is modelled from the specification.

    Go's [float64] is IEEE 754 binary64.  It is modelled by the Standard
    Library's [spec_float] at precision 53 and maximal exponent 1024, whose
    operations round to nearest-even exactly as the hardware does; the values
    a Go program can hold are the [valid_binary] ones.

    A Go function that calls the client runs in the state monad [M] over the
    client's world and the log of the calls made; a function that may panic
    or return an error yields an [outcome]. *)

From Stdlib Require Import ZArith List Bool String Ascii Lia.
From Stdlib Require Import Permutation Sorted.
From Stdlib Require Import Floats.SpecFloat.
Import ListNotations.
Local Open Scope Z_scope.
Local Set Warnings "-register-all".

(* ================================================================== *)
(** * float64 *)
(* ================================================================== *)

Definition float64 : Type := spec_float.

Definition prec : Z := 53.
Definition emax : Z := 1024.

Declare Scope f64_scope.
Delimit Scope f64_scope with f64.
Bind Scope f64_scope with float64.

Definition f64_add : float64 -> float64 -> float64 := SFadd prec emax.
Definition f64_sub : float64 -> float64 -> float64 := SFsub prec emax.
Definition f64_mul : float64 -> float64 -> float64 := SFmul prec emax.
Definition f64_div : float64 -> float64 -> float64 := SFdiv prec emax.
Definition f64_lt : float64 -> float64 -> bool := SFltb.
Definition f64_le : float64 -> float64 -> bool := SFleb.
Definition f64_eq : float64 -> float64 -> bool := SFeqb.
(** Go's [!=]: true as soon as one side is NaN. *)
Definition f64_ne (x y : float64) : bool := negb (SFeqb x y).
(** Go's [>] and [>=] are the mirrored comparisons. *)
Definition f64_gt (x y : float64) : bool := SFltb y x.
Definition f64_ge (x y : float64) : bool := SFleb y x.

Infix "+" := f64_add : f64_scope.
Infix "-" := f64_sub : f64_scope.
Infix "*" := f64_mul : f64_scope.
Infix "/" := f64_div : f64_scope.
Infix "<?" := f64_lt : f64_scope.
Infix "<=?" := f64_le : f64_scope.
Infix "=?" := f64_eq : f64_scope.
Infix "!=?" := f64_ne (at level 70) : f64_scope.

(** [float64(n)] for an integer [n]: the nearest binary64, ties to even. *)
Definition f64_of_Z (n : Z) : float64 := binary_normalize prec emax n 0 false.

Definition isNaN (x : float64) : bool :=
  match x with S754_nan => true | _ => false end.

Definition isInf (x : float64) : bool :=
  match x with S754_infinity _ => true | _ => false end.

Definition signbit (x : float64) : bool :=
  match x with
  | S754_zero s | S754_infinity s | S754_finite s _ _ => s
  | S754_nan => false
  end.

(** [signed s x]: [x] is a zero, a finite number or an infinity of sign bit
    [s] (true for minus); in particular it is not NaN. *)
Definition signed (s : bool) (x : float64) : Prop :=
  match x with
  | S754_zero s' | S754_infinity s' | S754_finite s' _ _ => s' = s
  | S754_nan => False
  end.

(** A zero or a finite number: neither an infinity nor NaN. *)
Definition is_finite (x : float64) : bool :=
  match x with
  | S754_zero _ | S754_finite _ _ _ => true
  | S754_infinity _ | S754_nan => false
  end.

(** The representations a [float64] can hold: the mantissa is normalised
    and the exponent in range. *)
Definition valid (x : float64) : bool := valid_binary prec emax x.

Definition f64_zero : float64 := S754_zero false.
Definition f64_one : float64 := f64_of_Z 1.
Definition f64_two : float64 := f64_of_Z 2.
Definition f64_half : float64 := (f64_one / f64_two)%f64.
Definition f64_inf : float64 := S754_infinity false.

(** The integer part of a float, rounded toward zero; [None] on infinities
    and NaN. *)
Definition f64_trunc (x : float64) : option Z :=
  match x with
  | S754_zero _ => Some 0
  | S754_finite s m e =>
      Some (cond_Zopp s
              (match e with
               | Zneg p => Z.shiftr (Zpos m) (Zpos p)
               | _ => Z.shiftl (Zpos m) e
               end))
  | S754_infinity _ | S754_nan => None
  end.

(* ================================================================== *)
(** * int64 and time.Duration *)
(* ================================================================== *)

Definition min_int64 : Z := - 2 ^ 63.
Definition max_int64 : Z := 2 ^ 63 - 1.

(** Two's-complement wrap-around of 64-bit signed arithmetic. *)
Definition wrap64 (z : Z) : Z := (z + 2 ^ 63) mod 2 ^ 64 - 2 ^ 63.

(** [int64(f)] for a float [f]: truncation toward zero when the result fits.
    Go leaves the other cases to the implementation; amd64 yields the
    "integer indefinite" value [min_int64], which is what is modelled. *)
Definition int64_of_f64 (x : float64) : Z :=
  match f64_trunc x with
  | Some z => if (min_int64 <=? z) && (z <=? max_int64) then z else min_int64
  | None => min_int64
  end.

(** [time.Duration]: a signed 64-bit count of nanoseconds. *)
Definition Duration : Type := Z.
Definition Nanosecond : Duration := 1.
Definition Second : Duration := 1000000000.
Definition Minute : Duration := 60 * Second.

(** [func (d Duration) Seconds() float64]:
    [sec := d / Second; nsec := d % Second;
     return float64(sec) + float64(nsec)/1e9]
    with Go's truncated integer division. *)
Definition Seconds (d : Duration) : float64 :=
  (f64_of_Z (Z.quot d Second) + f64_of_Z (Z.rem d Second) / f64_of_Z 1000000000)%f64.

(* ================================================================== *)
(** * Values of Go's [any], errors and outcomes *)
(* ================================================================== *)

(** The dynamic values the limiter exchanges with a client.  [any_other]
    stands for a value of any dynamic type the limiter never asserts. *)
Inductive any : Type :=
| any_nil
| any_int64 (z : Z)
| any_float64 (f : float64)
| any_string (s : string)
| any_slice (l : list any)
| any_other (type_name : string).

(** An [error] is observed through its [Error()] message. *)
Record error : Type := mkError { Error : string }.

Definition errors_New (msg : string) : error := mkError msg.

(** What a Go call comes to: a value, a returned error, or a run-time panic. *)
Inductive outcome (A : Type) : Type :=
| Ok (a : A)
| Err (e : error)
| Panic.
Arguments Ok {A} a.
Arguments Err {A} e.
Arguments Panic {A}.

Definition obind {A B : Type} (o : outcome A) (k : A -> outcome B) : outcome B :=
  match o with
  | Ok a => k a
  | Err e => Err e
  | Panic => Panic
  end.

Notation "x <~ o ;; k" := (obind o (fun x => k))
  (at level 61, o at next level, right associativity).

(** [l[i]]: index expression on a slice, panicking out of range. *)
Definition index_slice {A : Type} (l : list A) (i : Z) : outcome A :=
  if (i <? 0) || (Z.of_nat (List.length l) <=? i) then Panic
  else match nth_error l (Z.to_nat i) with
       | Some a => Ok a
       | None => Panic
       end.

(** [v.(float64)]: single-value type assertion, panicking on another type. *)
Definition assert_float64 (v : any) : outcome float64 :=
  match v with
  | any_float64 f => Ok f
  | _ => Panic
  end.

(** [strings.Contains]. *)
Fixpoint Contains (s substr : string) : bool :=
  if String.prefix substr s then true
  else match s with
       | EmptyString => false
       | String _ s' => Contains s' substr
       end.

(* ================================================================== *)
(** * What the limiter takes from its environment *)
(* ================================================================== *)

(** The parts of Go's standard library that are left abstract
    ([math.Exp], [math.Log], [strconv.ParseFloat]) and the two files the
    build embeds ([script/bucket.min.lua] and its SHA-1). *)
Class GoEnv : Type := {
  math_Exp : float64 -> float64;
  math_Log : float64 -> float64;
  (** [strconv.ParseFloat(s, 64)]: the value and the error, if any. *)
  strconv_ParseFloat : string -> float64 * option error;
  script : string;
  sha1 : string
}.

(* ================================================================== *)
(** * math.Pow *)
(* ================================================================== *)

(** Go's [math.Pow] in its portable implementation, which is the one the
    limiter's backoff functions reach on amd64 and arm64.  The integral part of
    the exponent is handled by repeated squaring on the [Frexp] decomposition;
    only a fractional exponent goes through [math.Exp] and [math.Log]. *)

Definition Frexp (f : float64) : float64 * Z :=
  match f with
  | S754_finite _ _ _ => SFfrexp prec emax f
  | _ => (f, 0)
  end.

Definition Ldexp (frac : float64) (exp : Z) : float64 :=
  SFldexp prec emax frac exp.

Definition Sqrt (x : float64) : float64 := SFsqrt prec emax x.

(** [math.Modf]: integer and fractional part, both with the sign of [f]. *)
Definition Modf (f : float64) : float64 * float64 :=
  match f with
  | S754_nan => (S754_nan, S754_nan)
  | S754_infinity _ => (f, S754_nan)
  | S754_zero _ => (f, f)
  | S754_finite s m e =>
      let a := S754_finite false m e in
      let '(i, fr) :=
        if (a <? f64_one)%f64 then (f64_zero, a)
        else
          let i := f64_of_Z (match f64_trunc a with Some z => z | None => 0 end) in
          (i, (a - i)%f64) in
      if s then (SFopp i, SFopp fr) else (i, fr)
  end.

Definition isOddInt (x : float64) : bool :=
  if (f64_of_Z (2 ^ 53) <=? SFabs x)%f64 then false
  else
    let '(xi, xf) := Modf x in
    (xf =? f64_zero)%f64 && Z.odd (int64_of_f64 xi).

(** The loop [for i := int64(yi); i != 0; i >>= 1] of [pow]: one round per
    binary digit of [i], least significant first, which is the structure of a
    [positive].  It yields the mantissa [a1] and the exponent [ae]. *)
Fixpoint pow_loop (i : positive) (x1 : float64) (xe : Z) (a1 : float64) (ae : Z)
  : float64 * Z :=
  if (xe <? - 2 ^ 12) || (2 ^ 12 <? xe) then (a1, ae + xe)
  else
    let '(a1, ae) :=
      match i with
      | xO _ => (a1, ae)
      | _ => ((a1 * x1)%f64, ae + xe)
      end in
    let x1 := (x1 * x1)%f64 in
    let xe := 2 * xe in
    let '(x1, xe) :=
      if (x1 <? f64_half)%f64 then ((x1 + x1)%f64, xe - 1) else (x1, xe) in
    match i with
    | xH => (a1, ae)
    | xO p | xI p => pow_loop p x1 xe a1 ae
    end.

(** The body of [pow]; [self] is the function called where the Go code calls
    [Pow] again (for [x = -Inf]). *)
Definition pow_body `{GoEnv} (self : float64 -> float64 -> float64)
  (x y : float64) : float64 :=
  if (y =? f64_zero)%f64 || (x =? f64_one)%f64 then f64_one
  else if (y =? f64_one)%f64 then x
  else if isNaN x || isNaN y then S754_nan
  else if (x =? f64_zero)%f64 then
    if (y <? f64_zero)%f64 then
      if signbit x && isOddInt y then S754_infinity true else f64_inf
    else
      if signbit x && isOddInt y then x else f64_zero
  else if isInf y then
    if (x =? SFopp f64_one)%f64 then f64_one
    else if Bool.eqb (SFabs x <? f64_one)%f64 (negb (signbit y)) then f64_zero
    else f64_inf
  else if isInf x then
    if signbit x then self (f64_one / x)%f64 (SFopp y)
    else if (y <? f64_zero)%f64 then f64_zero
    else f64_inf
  else if (y =? f64_half)%f64 then Sqrt x
  else if (y =? SFopp f64_half)%f64 then (f64_one / Sqrt x)%f64
  else
    let '(yi, yf) := Modf (SFabs y) in
    if (yf !=? f64_zero)%f64 && (x <? f64_zero)%f64 then S754_nan
    else if (f64_of_Z (2 ^ 63) <=? yi)%f64 then
      if (x =? SFopp f64_one)%f64 then f64_one
      else if Bool.eqb (SFabs x <? f64_one)%f64 (f64_zero <? y)%f64 then f64_zero
      else f64_inf
    else
      let '(a1, yi) :=
        if (yf !=? f64_zero)%f64 then
          let '(yf, yi) :=
            if (f64_half <? yf)%f64 then ((yf - f64_one)%f64, (yi + f64_one)%f64)
            else (yf, yi) in
          (math_Exp (yf * math_Log x)%f64, yi)
        else (f64_one, yi) in
      let '(x1, xe) := Frexp x in
      let '(a1, ae) :=
        match int64_of_f64 yi with
        | Zpos i => pow_loop i x1 xe a1 0
        | _ => (a1, 0)
        end in
      let '(a1, ae) :=
        if (y <? f64_zero)%f64 then ((f64_one / a1)%f64, - ae) else (a1, ae) in
      Ldexp a1 ae.

Definition Pow `{GoEnv} (x y : float64) : float64 :=
  pow_body (pow_body (fun _ _ => S754_nan)) x y.

(* ================================================================== *)
(** * Bucket model (Rate, Capacity) *)
(* ================================================================== *)

(** [Bucket]: the interface with the single method [Rate() (flow, burst)]. *)
Class Bucket (T : Type) : Type :=
  Bucket_Rate : T -> float64 * float64.

(** [Rate]: a bucket given by raw flow (per second) and burst. *)
Record Rate : Type := mkRate { Flow : float64; Burst : float64 }.

(** [Capacity]: a bucket given by a minimum and a maximum over a window. *)
Record Capacity : Type :=
  mkCapacity { Window : Duration; Min : float64; Max : float64 }.

(** [func (r Rate) Rate() (float64, float64)]. *)
Definition Rate_Rate (r : Rate) : float64 * float64 :=
  (Flow r, Burst r).

(** [func (c Capacity) Rate() (float64, float64)]. *)
Definition Capacity_Rate (c : Capacity) : float64 * float64 :=
  ((Min c / Seconds (Window c))%f64, (Max c - Min c)%f64).

#[export] Instance Rate_Bucket : Bucket Rate := Rate_Rate.
#[export] Instance Capacity_Bucket : Bucket Capacity := Capacity_Rate.

(** A value of interface type [Bucket]: some type implementing the method,
    and a value of it. *)
Inductive BucketValue : Type :=
| bucket (T : Type) (impl : Bucket T) (x : T).
Arguments bucket {T impl} x.

Definition resolve (b : BucketValue) : float64 * float64 :=
  match b with
  | @bucket _ impl x => Bucket_Rate x
  end.

(* ================================================================== *)
(** * Backoff policy (backoff.go) *)
(* ================================================================== *)

(** [Backoff]: the interface with the single method
    [Backoff(float64) float64]. *)
Class Backoff (T : Type) : Type :=
  Backoff_Backoff : T -> float64 -> float64.

Record Constant : Type := mkConstant { Constant_float64 : float64 }.
Record Linear : Type := mkLinear { Linear_float64 : float64 }.
Record Power : Type := mkPower { Power_float64 : float64 }.
Record Exponential : Type := mkExponential { Exponential_float64 : float64 }.

(** [func (c Constant) Backoff(value float64) float64]. *)
Definition Constant_Backoff (c : Constant) (value : float64) : float64 :=
  Constant_float64 c.

(** [func (l Linear) Backoff(value float64) float64]. *)
Definition Linear_Backoff (l : Linear) (value : float64) : float64 :=
  (Linear_float64 l * value)%f64.

(** [func (p Power) Backoff(value float64) float64]. *)
Definition Power_Backoff `{GoEnv} (p : Power) (value : float64) : float64 :=
  Pow value (Power_float64 p).

(** [func (e Exponential) Backoff(value float64) float64]. *)
Definition Exponential_Backoff `{GoEnv} (e : Exponential) (value : float64)
  : float64 :=
  Pow (Exponential_float64 e) value.

#[export] Instance Constant_impl : Backoff Constant := Constant_Backoff.
#[export] Instance Linear_impl : Backoff Linear := Linear_Backoff.
#[export] Instance Power_impl `{GoEnv} : Backoff Power := Power_Backoff.
#[export] Instance Exponential_impl `{GoEnv} : Backoff Exponential :=
  Exponential_Backoff.

(** A non-nil value of interface type [Backoff]. *)
Inductive BackoffValue : Type :=
| backoff_of (T : Type) (impl : Backoff T) (x : T).
Arguments backoff_of {T impl} x.

Definition call_Backoff (b : BackoffValue) (value : float64) : float64 :=
  match b with
  | @backoff_of _ impl x => Backoff_Backoff x value
  end.

(* ================================================================== *)
(** * sort.Slice *)
(* ================================================================== *)

(** One round of the inner loop of Go's insertion sort,
    [for j := i; j > a && less(j, j-1); j-- { swap(j, j-1) }]:
    the element [x] moves left past every neighbour it is less than.  The
    sorted prefix is held reversed, nearest neighbour first. *)
Fixpoint sink {A : Type} (less : A -> A -> bool) (x : A) (rev_prefix : list A)
  : list A :=
  match rev_prefix with
  | [] => [x]
  | y :: ys => if less x y then y :: sink less x ys else x :: y :: ys
  end.

(** [sort.Slice(s, less)], with [less] given on elements.  Go sorts a slice
    of at most 12 elements by this insertion sort.  On a longer one it runs
    pattern-defeating quicksort, which returns a sorted arrangement as well
    when [less] is a strict weak order; the arrangement is the same whenever
    elements that compare equal are identical, as tiers of positive flow and
    burst are (lemmas [sorted_permutation_unique] and [sort_tiers_unique]),
    so the insertion sort stands for both there. *)
Definition sort_Slice {A : Type} (less : A -> A -> bool) (s : list A) : list A :=
  rev (fold_left (fun acc x => sink less x acc) s []).

(** A slice in which no element is less than an earlier one. *)
Definition ascending {A : Type} (less : A -> A -> bool) : list A -> Prop :=
  StronglySorted (fun a b => less b a = false).

(** The same for the reversed prefix the insertion sort works on. *)
Definition descending {A : Type} (less : A -> A -> bool) : list A -> Prop :=
  StronglySorted (fun a b => less a b = false).

(* ================================================================== *)
(** * Clients and the calls made on them (Eval, EvalSha, exec) *)
(* ================================================================== *)

(** A call on the client, as the client sees it. *)
Inductive Call : Type :=
| call_Eval (script : string) (keys : list string) (args : list any)
| call_EvalSha (sha : string) (keys : list string) (args : list any).

(** A value of interface type [Eval]: its [Eval] method and, when its dynamic
    type also implements [EvalSha], that method.  [W] is the state of whatever
    the client talks to; a method returns [(any, error)]. *)
Record Client (W : Type) : Type := mkClient {
  Eval : string -> list string -> list any -> W -> (any * option error) * W;
  EvalSha :
    option (string -> list string -> list any -> W -> (any * option error) * W)
}.
Arguments mkClient {W}.
Arguments Eval {W}.
Arguments EvalSha {W}.

(** The state a limiter's code runs in: the client's world and the calls made
    on the client so far, oldest first. *)
Record State (W : Type) : Type := mkState { world : W; calls : list Call }.
Arguments mkState {W}.
Arguments world {W}.
Arguments calls {W}.

Definition M (W A : Type) : Type := State W -> A * State W.

Definition ret {W A : Type} (a : A) : M W A := fun st => (a, st).

Definition bind {W A B : Type} (m : M W A) (k : A -> M W B) : M W B :=
  fun st => let '(a, st') := m st in k a st'.

Notation "x <- m ;; k" := (bind m (fun x => k))
  (at level 61, m at next level, right associativity).
Notation "' p <- m ;; k" := (bind m (fun x => let 'p := x in k))
  (at level 61, p pattern, m at next level, right associativity).

Definition do_Eval {W : Type} (c : Client W) (script : string)
  (keys : list string) (args : list any) : M W (any * option error) :=
  fun st =>
    let '(r, w) := Eval c script keys args (world st) in
    (r, mkState w (calls st ++ [call_Eval script keys args])).

Definition do_EvalSha {W : Type}
  (evalsha : string -> list string -> list any -> W -> (any * option error) * W)
  (sha : string) (keys : list string) (args : list any)
  : M W (any * option error) :=
  fun st =>
    let '(r, w) := evalsha sha keys args (world st) in
    (r, mkState w (calls st ++ [call_EvalSha sha keys args])).

(** [func exec(ctx, eval Eval, keys []string, args []any) (any, error)]. *)
Definition exec `{GoEnv} {W : Type} (eval : Client W) (keys : list string)
  (args : list any) : M W (any * option error) :=
  match EvalSha eval with
  | Some evalsha =>
      '(res, err) <- do_EvalSha evalsha sha1 keys args ;;
      match err with
      | None => ret (res, err)
      | Some e =>
          if negb (Contains (Error e) "NOSCRIPT") then ret (res, err)
          else do_Eval eval script keys args
      end
  | None => do_Eval eval script keys args
  end.

(** [time.Duration(wait * float64(time.Second))]. *)
Definition Duration_of_seconds (wait : float64) : Duration :=
  int64_of_f64 (wait * f64_of_Z Second)%f64.

(* ================================================================== *)
(** * The limiter with functional options (New) *)
(* ================================================================== *)

Module Opt.

Record config : Type := mkconfig {
  config_rates : list Rate;
  config_prefix : string;
  config_backoff : option (float64 -> float64)
}.

(** [Config]: a function adjusting the configuration it is pointed at. *)
Definition Config : Type := config -> config.

Record Limiter (W : Type) : Type := mkLimiter {
  args : list any;
  redis : Client W;
  prefix : string;
  backoff : option (float64 -> float64)
}.
Arguments mkLimiter {W}.
Arguments args {W}.
Arguments redis {W}.
Arguments prefix {W}.
Arguments backoff {W}.

Record Result : Type := mkResult {
  Allow : bool;
  Free : float64;
  Wait : Duration
}.

(** [func WithConstantBackoff(factor float64) Config]. *)
Definition WithConstantBackoff (factor : float64) : Config :=
  fun c => mkconfig (config_rates c) (config_prefix c)
             (Some (fun deny => factor)).

(** [func WithLinearBackoff(factor float64) Config]. *)
Definition WithLinearBackoff (factor : float64) : Config :=
  fun c => mkconfig (config_rates c) (config_prefix c)
             (Some (fun deny => (factor * deny)%f64)).

(** [func WithPowerBackoff(factor float64) Config]. *)
Definition WithPowerBackoff `{GoEnv} (factor : float64) : Config :=
  fun c => mkconfig (config_rates c) (config_prefix c)
             (Some (fun deny => Pow deny factor)).

(** [func WithExponentialBackoff(factor float64) Config]. *)
Definition WithExponentialBackoff `{GoEnv} (factor : float64) : Config :=
  fun c => mkconfig (config_rates c) (config_prefix c)
             (Some (fun deny => Pow factor deny)).

(** [func WithCustomBackoff(backoff func(float64) float64) Config]; the
    argument may be a nil function. *)
Definition WithCustomBackoff (backoff : option (float64 -> float64)) : Config :=
  fun c => mkconfig (config_rates c) (config_prefix c) backoff.

(** [func WithAdditionalBucket(bucket Bucket) Config]. *)
Definition WithAdditionalBucket (b : BucketValue) : Config :=
  fun c =>
    let '(flow, burst) := resolve b in
    mkconfig (config_rates c ++ [mkRate flow burst]) (config_prefix c)
      (config_backoff c).

(** [func WithPrefix(prefix string) Config]. *)
Definition WithPrefix (prefix : string) : Config :=
  fun c => mkconfig (config_rates c) prefix (config_backoff c).

(** The comparison handed to [sort.Slice]. *)
Definition less (ri rj : Rate) : bool :=
  if (Flow ri !=? Flow rj)%f64 then (Flow ri <? Flow rj)%f64
  else (Burst ri <? Burst rj)%f64.

(** The loop turning the sorted rates into script arguments: a rate is
    appended when its burst is less than the last argument so far. *)
Definition keep (acc : outcome (list any)) (r : Rate) : outcome (list any) :=
  args <~ acc ;;
  last <~ index_slice args (Z.of_nat (List.length args) - 1) ;;
  b <~ assert_float64 last ;;
  if (Burst r <? b)%f64
  then Ok (args ++ [any_float64 (Flow r); any_float64 (Burst r)])
  else Ok args.

Definition build_args (rates : list Rate) : outcome (list any) :=
  r0 <~ index_slice rates 0 ;;
  fold_left keep (skipn 1 rates)
    (Ok [any_float64 (Flow r0); any_float64 (Burst r0)]).

(** The loop rejecting a non-positive argument. *)
Fixpoint check_args (args : list any) : outcome unit :=
  match args with
  | [] => Ok tt
  | arg :: rest =>
      f <~ assert_float64 arg ;;
      if (f <=? f64_zero)%f64
      then Err (errors_New "limiter: rate parameters must be positive")
      else check_args rest
  end.

(** [func New(redis Eval, bucket Bucket, configs ...Config)], returning a
    limiter or an error. *)
Definition New {W : Type} (redis : option (Client W)) (b : BucketValue)
  (configs : list Config) : M W (outcome (Limiter W)) :=
  match redis with
  | None => ret (Err (errors_New "limiter: must have a redis client"))
  | Some redis =>
      let c := mkconfig [] EmptyString None in
      let c := WithLinearBackoff f64_two c in
      let c := WithAdditionalBucket b c in
      let c := fold_left (fun c cfg => cfg c) configs c in
      let rates := sort_Slice less (config_rates c) in
      ret (args <~ build_args rates ;;
           _ <~ check_args args ;;
           Ok (mkLimiter args redis (config_prefix c) (config_backoff c)))
  end.

(** [func validate(raw any) (allow int64, value float64, index int64, err error)]:
    the named results keep what was assigned before the check that failed. *)
Definition validate `{GoEnv} (raw : any) : Z * float64 * Z * option error :=
  let invalid := Some (errors_New "limiter: invalid type returned from eval") in
  match raw with
  | any_slice [r0; r1; r2] =>
      match r0 with
      | any_int64 allow =>
          match r1 with
          | any_string val =>
              let '(value, err) := strconv_ParseFloat val in
              match err with
              | None =>
                  match r2 with
                  | any_int64 index => (allow, value, index, None)
                  | _ => (allow, value, 0, invalid)
                  end
              | Some _ => (allow, value, 0, invalid)
              end
          | _ => (allow, f64_zero, 0, invalid)
          end
      | _ => (0, f64_zero, 0, invalid)
      end
  | _ => (0, f64_zero, 0, invalid)
  end.

(** [func (l Limiter) Test(ctx, key string, cost float64) (Result, error)]. *)
Definition Test `{GoEnv} {W : Type} (l : Limiter W) (key : string)
  (cost : float64) : M W (outcome Result) :=
  let keys := [(prefix l ++ key)%string] in
  let args := any_float64 cost :: args l in
  '(raw, err) <- exec (redis l) keys args ;;
  match err with
  | Some e => ret (Err e)
  | None =>
      let '(allow, value, index, err) := validate raw in
      match err with
      | Some e => ret (Err e)
      | None =>
          if allow =? 1 then ret (Ok (mkResult true value 0))
          else
            ret (a <~ index_slice args (wrap64 (wrap64 (2 * index) - 1)) ;;
                 flow <~ assert_float64 a ;;
                 match backoff l with
                 | None => Panic
                 | Some backoff =>
                     let wait := ((cost / flow) * backoff (value / cost))%f64 in
                     Ok (mkResult false f64_zero (Duration_of_seconds wait))
                 end)
      end
  end.

End Opt.

(* ================================================================== *)
(** * The limiter with a configuration struct (NewLimiter) *)
(* ================================================================== *)

Module Cfg.

Record Config (W : Type) : Type := mkConfig {
  Redis : option (Client W);
  Prefix : string;
  Backoff : option BackoffValue;
  Buckets : list BucketValue
}.
Arguments mkConfig {W}.
Arguments Redis {W}.
Arguments Prefix {W}.
Arguments Backoff {W}.
Arguments Buckets {W}.

Record Limiter (W : Type) : Type := mkLimiter {
  args : list any;
  redis : Client W;
  prefix : string;
  backoff : option BackoffValue
}.
Arguments mkLimiter {W}.
Arguments args {W}.
Arguments redis {W}.
Arguments prefix {W}.
Arguments backoff {W}.

Record Result : Type := mkResult {
  Allow : bool;
  Free : float64;
  Wait : Duration
}.

(** [struct{ flow, burst float64 }]. *)
Record rate : Type := mkrate { flow : float64; burst : float64 }.

(** The loop resolving the buckets, which returns at the first rate that is
    not positive. *)
Fixpoint resolve_all (buckets : list BucketValue) : outcome (list rate) :=
  match buckets with
  | [] => Ok []
  | b :: rest =>
      let '(flow, burst) := resolve b in
      if (flow <=? f64_zero)%f64 || (burst <=? f64_zero)%f64
      then Err (errors_New "all rate parameters must be positive")
      else
        rates <~ resolve_all rest ;;
        Ok (mkrate flow burst :: rates)
  end.

(** The comparison handed to [sort.Slice]. *)
Definition less (ri rj : rate) : bool :=
  if (flow ri !=? flow rj)%f64 then (flow ri <? flow rj)%f64
  else (burst ri <? burst rj)%f64.

Definition keep (acc : outcome (list any)) (r : rate) : outcome (list any) :=
  args <~ acc ;;
  last <~ index_slice args (Z.of_nat (List.length args) - 1) ;;
  b <~ assert_float64 last ;;
  if (burst r <? b)%f64
  then Ok (args ++ [any_float64 (flow r); any_float64 (burst r)])
  else Ok args.

Definition build_args (rates : list rate) : outcome (list any) :=
  r0 <~ index_slice rates 0 ;;
  fold_left keep (skipn 1 rates)
    (Ok [any_float64 (flow r0); any_float64 (burst r0)]).

(** [func NewLimiter(c Config)], returning a limiter or an error. *)
Definition NewLimiter {W : Type} (c : Config W) : M W (outcome (Limiter W)) :=
  match Redis c with
  | None => ret (Err (errors_New "the limiter must have a redis client"))
  | Some redis =>
      if Z.of_nat (List.length (Buckets c)) =? 0
      then ret (Err (errors_New "the limiter must have provided rates"))
      else
        let backoff :=
          match Backoff c with
          | None => Some (backoff_of (mkLinear f64_two))
          | Some b => Some b
          end in
        ret (rates <~ resolve_all (Buckets c) ;;
             let rates := sort_Slice less rates in
             args <~ build_args rates ;;
             Ok (mkLimiter args redis (Prefix c) backoff))
  end.

(** [func validate(raw any) (allow int64, value float64, index int64, err error)]:
    the named results keep what was assigned before the check that failed. *)
Definition validate `{GoEnv} (raw : any) : Z * float64 * Z * option error :=
  let invalid := Some (errors_New "invalid type returned from eval") in
  match raw with
  | any_slice [r0; r1; r2] =>
      match r0 with
      | any_int64 allow =>
          match r1 with
          | any_string val =>
              let '(value, err) := strconv_ParseFloat val in
              match err with
              | None =>
                  match r2 with
                  | any_int64 index => (allow, value, index, None)
                  | _ => (allow, value, 0, invalid)
                  end
              | Some _ => (allow, value, 0, invalid)
              end
          | _ => (allow, f64_zero, 0, invalid)
          end
      | _ => (0, f64_zero, 0, invalid)
      end
  | _ => (0, f64_zero, 0, invalid)
  end.

(** [func (l Limiter) Test(ctx, key string, cost float64) (Result, error)]. *)
Definition Test `{GoEnv} {W : Type} (l : Limiter W) (key : string)
  (cost : float64) : M W (outcome Result) :=
  let keys := [(prefix l ++ key)%string] in
  let args := any_float64 cost :: args l in
  '(raw, err) <- exec (redis l) keys args ;;
  match err with
  | Some e => ret (Err e)
  | None =>
      let '(allow, value, index, err) := validate raw in
      match err with
      | Some e => ret (Err e)
      | None =>
          if allow =? 1 then ret (Ok (mkResult true value 0))
          else
            ret (a <~ index_slice args (wrap64 (wrap64 (2 * index) - 1)) ;;
                 flow <~ assert_float64 a ;;
                 match backoff l with
                 | None => Panic
                 | Some backoff =>
                     let wait :=
                       ((cost / flow) * call_Backoff backoff (value / cost))%f64 in
                     Ok (mkResult false f64_zero (Duration_of_seconds wait))
                 end)
      end
  end.

End Cfg.

(* ================================================================== *)
(** * Tiers and their consolidation, in the specification's words *)
(* ================================================================== *)

(** A rate tier [(flow, burst)]. *)
Definition tier : Type := (float64 * float64)%type.

Definition tier_of_Rate (r : Rate) : tier := (Flow r, Burst r).
Definition tier_of_rate (r : Cfg.rate) : tier := (Cfg.flow r, Cfg.burst r).

(** The frozen argument template [[flow_1, burst_1, ..., flow_n, burst_n]]. *)
Definition template (ts : list tier) : list any :=
  flat_map (fun t => [any_float64 (fst t); any_float64 (snd t)]) ts.

(** Neither component is NaN. *)
Definition ordered_tier (t : tier) : bool :=
  negb (isNaN (fst t)) && negb (isNaN (snd t)).

(** The data model's invariant of a rate tier: [flow > 0] and [burst > 0]. *)
Definition positive_tier (t : tier) : bool :=
  (f64_zero <? fst t)%f64 && (f64_zero <? snd t)%f64.

(** What construction rejects: [flow <= 0 || burst <= 0]. *)
Definition rejected_tier (t : tier) : bool :=
  (fst t <=? f64_zero)%f64 || (snd t <=? f64_zero)%f64.

(** Ascending by flow, ties broken by ascending burst. *)
Definition tier_less (a b : tier) : bool :=
  if (fst a !=? fst b)%f64 then (fst a <? fst b)%f64
  else (snd a <? snd b)%f64.

Definition tier_le (a b : tier) : Prop :=
  (fst a <? fst b)%f64 = true \/
  ((fst a =? fst b)%f64 = true /\ (snd a <=? snd b)%f64 = true).

(** "Scan remaining tiers in order; keep a tier only if its burst is strictly
    less than the burst of the most recently kept tier." *)
Fixpoint scan (kept_burst : float64) (ts : list tier) : list tier :=
  match ts with
  | [] => []
  | t :: rest =>
      if (snd t <? kept_burst)%f64 then t :: scan (snd t) rest
      else scan kept_burst rest
  end.

(** "Always keep the first tier", then scan. *)
Definition prune (ts : list tier) : list tier :=
  match ts with
  | [] => []
  | t :: rest => t :: scan (snd t) rest
  end.

Definition consolidate (ts : list tier) : list tier :=
  prune (sort_Slice tier_less ts).

(** A tier dominates another when neither its flow nor its burst is larger:
    it is at least as restrictive at every elapsed time. *)
Definition dominates (k t : tier) : Prop :=
  (fst k <=? fst t)%f64 = true /\ (snd k <=? snd t)%f64 = true.

(* ================================================================== *)
(** * The atomic evaluator *)
(* ================================================================== *)

(** Modelled from the spec: the state the evaluator keeps for one tier of one
    key, the level and the time of the last update, or nothing yet (the
    embedded procedure [script/bucket.min.lua] is not among the sources). *)
Definition bucket_state : Type := option (float64 * float64).

(** Modelled from the spec: what the evaluator answers,
    [(allow, value, index)], the index 1-based. *)
Record response : Type := mkResponse {
  resp_allow : Z;
  resp_value : float64;
  resp_index : Z
}.

(** Modelled from the spec: [max(0, x)] of the evaluator's clamping; the
    procedure [script/bucket.min.lua] is not among the sources. *)
Definition clamp (x : float64) : float64 :=
  if (f64_zero <? x)%f64 then x else f64_zero.

(** Modelled from the spec: the state read for a tier, "absent state treated
    as [level = 0], [t = now]" (the embedded procedure is not among the
    sources). *)
Definition read_state (now : float64) (s : bucket_state) : float64 * float64 :=
  match s with
  | Some lt => lt
  | None => (f64_zero, now)
  end.

(** Modelled from the spec: step 1 of the evaluator (the embedded procedure is
    not among the sources), [elapsed = max(0, now - t)] and
    [decayed = max(0, level - flow * elapsed)]. *)
Definition decayed (now : float64) (t : tier) (s : bucket_state) : float64 :=
  let '(level, last) := read_state now s in
  let elapsed := clamp (now - last) in
  clamp (level - fst t * elapsed).

(** Modelled from the spec: step 2 of the evaluator (the embedded procedure is
    not among the sources), [projected = decayed + cost]. *)
Definition projected (now cost : float64) (t : tier) (s : bucket_state)
  : float64 :=
  (decayed now t s + cost)%f64.

(** Modelled from the spec: the state of tier number [i] (from 0) among the
    states of a key, absent when the key has none for it. *)
Definition state_at (ss : list bucket_state) (i : nat) : bucket_state :=
  nth i ss None.

(** Modelled from the spec: one tier under test, with its 1-based index and
    its projection. *)
Record probe : Type := mkProbe {
  probe_index : Z;
  probe_tier : tier;
  probe_projected : float64
}.

(** Modelled from the spec: the projections of all tiers, in order, numbered
    from [i + 1] (the embedded procedure is not among the sources). *)
Fixpoint probes (now cost : float64) (i : nat) (ts : list tier)
  (ss : list bucket_state) : list probe :=
  match ts with
  | [] => []
  | t :: rest =>
      mkProbe (Z.of_nat i + 1) t (projected now cost t (state_at ss i))
        :: probes now cost (S i) rest ss
  end.

(** Modelled from the spec: step 3, a tier is in violation when
    [projected > burst]. *)
Definition violates (p : probe) : bool :=
  (snd (probe_tier p) <? probe_projected p)%f64.

(** Modelled from the spec: the headroom [burst - projected] of step 4. *)
Definition headroom (p : probe) : float64 :=
  (snd (probe_tier p) - probe_projected p)%f64.

(** Modelled from the spec: the excess [projected - burst] of step 5. *)
Definition excess (p : probe) : float64 :=
  (probe_projected p - snd (probe_tier p))%f64.

(** Modelled from the spec: the implied wait [(projected - burst) / flow]
    of step 5. *)
Definition implied_wait (p : probe) : float64 :=
  (excess p / fst (probe_tier p))%f64.

(** Modelled from the spec: the least of the headrooms, starting from [h]. *)
Definition least (h : float64) (hs : list float64) : float64 :=
  fold_left (fun m x => if (x <? m)%f64 then x else m) hs h.

(** Modelled from the spec: the probe of largest implied wait, starting from
    [p]; the specification leaves ties open, here the earliest one wins. *)
Definition controlling (p : probe) (ps : list probe) : probe :=
  fold_left
    (fun best q => if (implied_wait best <? implied_wait q)%f64 then q else best)
    ps p.

(** Modelled from the spec: the atomic evaluator of section 4.4, steps 1 to 5
    (the embedded procedure [script/bucket.min.lua] is not among the sources).
    It takes the evaluation time, the cost, the consolidated tiers and the
    states of the key, and yields the response and the states afterwards. *)
Definition evaluate (now cost : float64) (ts : list tier)
  (ss : list bucket_state) : response * list bucket_state :=
  let ps := probes now cost 0 ts ss in
  match filter violates ps with
  | [] =>
      (mkResponse 1 (least f64_inf (map headroom ps)) 0,
       map (fun p => Some (probe_projected p, now)) ps)
  | v :: vs =>
      let c := controlling v vs in
      (mkResponse 0 (excess c) (probe_index c), ss)
  end.

(* ================================================================== *)
(** * The two constructors side by side *)
(* ================================================================== *)

(** A caller's own backoff function, as a type implementing [Backoff]. *)
#[export] Instance func_impl : Backoff (float64 -> float64) :=
  fun f value => f value.

(** The backoff a caller may choose through either constructor. *)
Inductive BackoffChoice : Type :=
| choose_Constant (factor : float64)
| choose_Linear (factor : float64)
| choose_Power (factor : float64)
| choose_Exponential (factor : float64)
| choose_Custom (f : float64 -> float64).

(** What a caller may set besides the first bucket. *)
Inductive Setting : Type :=
| set_bucket (b : BucketValue)
| set_prefix (p : string)
| set_backoff (c : BackoffChoice).

(** The setting as an option handed to [New]. *)
Definition option_of `{GoEnv} (s : Setting) : Opt.Config :=
  match s with
  | set_bucket b => Opt.WithAdditionalBucket b
  | set_prefix p => Opt.WithPrefix p
  | set_backoff (choose_Constant k) => Opt.WithConstantBackoff k
  | set_backoff (choose_Linear k) => Opt.WithLinearBackoff k
  | set_backoff (choose_Power k) => Opt.WithPowerBackoff k
  | set_backoff (choose_Exponential k) => Opt.WithExponentialBackoff k
  | set_backoff (choose_Custom f) => Opt.WithCustomBackoff (Some f)
  end.

(** The chosen backoff as a value of the [Backoff] interface. *)
Definition backoff_value `{GoEnv} (c : BackoffChoice) : BackoffValue :=
  match c with
  | choose_Constant k => backoff_of (mkConstant k)
  | choose_Linear k => backoff_of (mkLinear k)
  | choose_Power k => backoff_of (mkPower k)
  | choose_Exponential k => backoff_of (mkExponential k)
  | choose_Custom f => backoff_of f
  end.

(** The setting as a change of the struct handed to [NewLimiter]. *)
Definition apply_setting `{GoEnv} {W : Type} (c : Cfg.Config W) (s : Setting)
  : Cfg.Config W :=
  match s with
  | set_bucket b =>
      Cfg.mkConfig (Cfg.Redis c) (Cfg.Prefix c) (Cfg.Backoff c)
        (Cfg.Buckets c ++ [b])
  | set_prefix p =>
      Cfg.mkConfig (Cfg.Redis c) p (Cfg.Backoff c) (Cfg.Buckets c)
  | set_backoff ch =>
      Cfg.mkConfig (Cfg.Redis c) (Cfg.Prefix c) (Some (backoff_value ch))
        (Cfg.Buckets c)
  end.

(** The struct that says what [New redis b (map option_of settings)] says. *)
Definition config_of `{GoEnv} {W : Type} (redis : option (Client W))
  (b : BucketValue) (settings : list Setting) : Cfg.Config W :=
  fold_left apply_setting settings (Cfg.mkConfig redis EmptyString None [b]).

(** The buckets, the prefix and the backoff that a list of settings comes to:
    buckets add up in order, the last prefix and the last backoff win. *)
Definition extra_buckets (settings : list Setting) : list BucketValue :=
  flat_map (fun s => match s with set_bucket b => [b] | _ => [] end) settings.

Definition chosen_prefix (settings : list Setting) : string :=
  fold_left (fun p s => match s with set_prefix q => q | _ => p end)
    settings EmptyString.

Definition chosen_backoff (settings : list Setting) : option BackoffChoice :=
  fold_left (fun c s => match s with set_backoff ch => Some ch | _ => c end)
    settings None.

(** The backoff as the function stored by [New]. *)
Definition backoff_func `{GoEnv} (c : BackoffChoice) : float64 -> float64 :=
  match c with
  | choose_Constant k => fun deny => k
  | choose_Linear k => fun deny => (k * deny)%f64
  | choose_Power k => fun deny => Pow deny k
  | choose_Exponential k => fun deny => Pow k deny
  | choose_Custom f => f
  end.

(** The backoff in force: the chosen one, or else [Linear(2)]. *)
Definition effective_backoff (settings : list Setting) : BackoffChoice :=
  match chosen_backoff settings with
  | Some ch => ch
  | None => choose_Linear f64_two
  end.

(** The tiers a list of buckets resolves to. *)
Definition tiers_of (buckets : list BucketValue) : list tier :=
  map resolve buckets.

(** The two facades' results compared field by field. *)
Definition same_result (r : Opt.Result) (r' : Cfg.Result) : Prop :=
  Opt.Allow r = Cfg.Allow r' /\ Opt.Free r = Cfg.Free r' /\
  Opt.Wait r = Cfg.Wait r'.

(** The two facades' backoffs compared as functions. *)
Definition same_backoff (f : option (float64 -> float64))
  (b : option BackoffValue) : Prop :=
  match f, b with
  | Some f, Some b => forall value, f value = call_Backoff b value
  | None, None => True
  | _, _ => False
  end.

(* ================================================================== *)
(** * A small environment and client to run the definitions on *)
(* ================================================================== *)

Definition digit_of (c : ascii) : option Z :=
  let n := Z.of_nat (nat_of_ascii c) in
  if (48 <=? n) && (n <=? 57) then Some (n - 48) else None.

Fixpoint parse_digits (acc : Z) (s : string) : option Z :=
  match s with
  | EmptyString => Some acc
  | String c rest =>
      match digit_of c with
      | Some d => parse_digits (10 * acc + d) rest
      | None => None
      end
  end.

(** A [ParseFloat] that reads non-empty strings of decimal digits. *)
Definition sample_ParseFloat (s : string) : float64 * option error :=
  match s with
  | EmptyString => (f64_zero, Some (errors_New "invalid syntax"))
  | _ =>
      match parse_digits 0 s with
      | Some n => (f64_of_Z n, None)
      | None => (f64_zero, Some (errors_New "invalid syntax"))
      end
  end.

Definition sample_env : GoEnv := {|
  math_Exp := fun _ => S754_nan;
  math_Log := fun _ => S754_nan;
  strconv_ParseFloat := sample_ParseFloat;
  script := "return bucket(KEYS, ARGV)";
  sha1 := "da39a3ee5e6b4b0d3255bfef95601890afd80709"
|}.

(** A client whose world is the list of answers it will give, in order; it
    answers nil once the list is used up. *)
Definition scripted_call (_ : string) (_ : list string) (_ : list any)
  (w : list (any * option error)) : (any * option error) * list (any * option error) :=
  match w with
  | [] => ((any_nil, None), [])
  | a :: rest => (a, rest)
  end.

Definition eval_only : Client (list (any * option error)) :=
  mkClient scripted_call None.

Definition eval_and_sha : Client (list (any * option error)) :=
  mkClient scripted_call (Some scripted_call).

(** [n/d] as a float: the nearest binary64 to the decimal constant when [n]
    and [d] are small integers. *)
Definition ratio (n d : Z) : float64 := (f64_of_Z n / f64_of_Z d)%f64.

(* ================================================================== *)
(** * The order of float64, on a line of integers *)
(* ================================================================== *)

(** A float that is not NaN has a place among the triples of integers
    compared lexicographically: sign class, then exponent, then mantissa. *)
Definition rank (x : float64) : Z * Z * Z :=
  match x with
  | S754_infinity true => (-2, 0, 0)
  | S754_finite true m e => (-1, - e, Zneg m)
  | S754_zero _ => (0, 0, 0)
  | S754_finite false m e => (1, e, Zpos m)
  | S754_infinity false => (2, 0, 0)
  | S754_nan => (3, 0, 0)
  end.

Definition lex_lt (a b : Z * Z * Z) : Prop :=
  let '(a1, a2, a3) := a in
  let '(b1, b2, b3) := b in
  a1 < b1 \/ (a1 = b1 /\ (a2 < b2 \/ (a2 = b2 /\ a3 < b3))).

(** The tiers of the specification's example:
    (0.1,4), (0.2,3), (0.2,2), (0.3,2), (0.4,1). *)
Definition example_buckets : list BucketValue :=
  [bucket (mkRate (ratio 1 10) (f64_of_Z 4));
   bucket (mkRate (ratio 2 10) (f64_of_Z 3));
   bucket (mkRate (ratio 2 10) (f64_of_Z 2));
   bucket (mkRate (ratio 3 10) (f64_of_Z 2));
   bucket (mkRate (ratio 4 10) (f64_of_Z 1))].

(** The consolidated result the specification gives for them:
    [(0.1,4), (0.2,2), (0.4,1)]. *)
Definition example_consolidated : list tier :=
  [(ratio 1 10, f64_of_Z 4); (ratio 2 10, f64_of_Z 2); (ratio 4 10, f64_of_Z 1)].


(* ================================================================== *)
(** * Vocabulary of the claims *)
(* ================================================================== *)

(** The error says the script reference is unknown. *)
Definition unknown_reference (err : option error) : bool :=
  match err with
  | Some e => Contains (Error e) "NOSCRIPT"
  | None => false
  end.

(** The shape [validate] accepts: three elements, an [int64], a string that
    parses as a float, an [int64]. *)
Definition well_shaped `{GoEnv} (raw : any) : bool :=
  match raw with
  | any_slice [any_int64 _; any_string val; any_int64 _] =>
      match snd (strconv_ParseFloat val) with
      | None => true
      | Some _ => false
      end
  | _ => false
  end.

(** The shape the specification expects of a response over [n] tiers: as
    above, with [allow] 0 or 1 and, on a denial, a 1-based index of a tier. *)
Definition expected_shape `{GoEnv} (n : Z) (raw : any) : bool :=
  match raw with
  | any_slice [any_int64 allow; any_string val; any_int64 index] =>
      match snd (strconv_ParseFloat val) with
      | None =>
          ((allow =? 0) || (allow =? 1)) &&
          ((allow =? 1) || ((1 <=? index) && (index <=? n)))
      | Some _ => false
      end
  | _ => false
  end.

Definition call_keys (c : Call) : list string :=
  match c with
  | call_Eval _ keys _ | call_EvalSha _ keys _ => keys
  end.

Definition call_args (c : Call) : list any :=
  match c with
  | call_Eval _ _ args | call_EvalSha _ _ args => args
  end.

(** The two facades' errors: the same error, or the two wordings of the
    decoding error. *)
Definition same_error (e e' : error) : Prop :=
  e = e' \/
  (e = errors_New "limiter: invalid type returned from eval" /\
   e' = errors_New "invalid type returned from eval").

Definition same_outcome (o : outcome Opt.Result) (o' : outcome Cfg.Result)
  : Prop :=
  match o, o' with
  | Ok r, Ok r' => same_result r r'
  | Err e, Err e' => same_error e e'
  | Panic, Panic => True
  | _, _ => False
  end.

(** A capacity whose window is zero: it resolves to an infinite flow. *)
Definition zero_window : Capacity := mkCapacity 0 (f64_of_Z 10) (f64_of_Z 20).

(** The capacity of the test suite's "negative capacity window". *)
Definition negative_window : Capacity :=
  mkCapacity (- Minute) (f64_of_Z 10) (f64_of_Z 20).

(** A state to start from: the client will give these answers. *)
Definition start (answers : list (any * option error))
  : State (list (any * option error)) :=
  mkState answers [].

(** Limiters over the consolidated example tiers, one of each facade, with
    the prefix "rate:" and the default backoff. *)
Definition example_Cfg_limiter : Cfg.Limiter (list (any * option error)) :=
  Cfg.mkLimiter (template example_consolidated) eval_only "rate:"
    (Some (backoff_of (mkLinear f64_two))).

Definition example_Opt_limiter : Opt.Limiter (list (any * option error)) :=
  Opt.mkLimiter (template example_consolidated) eval_only "rate:"
    (Some (fun deny => (f64_two * deny)%f64)).

(** A denial by tier 2 with excess 3, and an admission with 1 left. *)
Definition denial : any * option error :=
  (any_slice [any_int64 0; any_string "3"; any_int64 2], None).

Definition admission : any * option error :=
  (any_slice [any_int64 1; any_string "1"; any_int64 1], None).

(** Buckets of which the first has a NaN burst and the second a negative
    one. *)
Definition nan_burst : BucketValue := bucket (mkRate f64_one S754_nan).
Definition negative_burst : BucketValue :=
  bucket (mkRate f64_two (f64_of_Z (-1))).

(* ================================================================== *)
(** * Vocabulary of the further properties *)
(* ================================================================== *)

(** [a] comes before [b] among the kept tiers: a slower flow and a larger
    burst. *)
Definition tighter_later (a b : tier) : Prop :=
  (fst a <? fst b)%f64 = true /\ (snd b <? snd a)%f64 = true.

(** The bursts go down strictly. *)
Definition burst_falls (a b : tier) : Prop := (snd b <? snd a)%f64 = true.

(** The position [2*index - 1] that [Test] reads, in 64-bit arithmetic. *)
Definition flow_position (index : Z) : Z := wrap64 (wrap64 (2 * index) - 1).

(** The tier that an index names once [2*index - 1] has wrapped around. *)
Definition tier_number (index : Z) : Z := index mod 2 ^ 63.

(** The tiers held by a frozen template, read back two arguments at a
    time. *)
Fixpoint template_tiers (args : list any) : list tier :=
  match args with
  | any_float64 flow :: any_float64 burst :: rest =>
      (flow, burst) :: template_tiers rest
  | _ => []
  end.

Definition is_prefix_setting (s : Setting) : bool :=
  match s with set_prefix _ => true | _ => false end.

Definition is_backoff_setting (s : Setting) : bool :=
  match s with set_backoff _ => true | _ => false end.

(** What a constructor froze in [args], told against the buckets it was
    given: the kept tiers are some of the buckets' tiers, at least one and no
    more than there were buckets, none of them one that construction rejects,
    and their bursts go down strictly. *)
Definition frozen_from (args : list any) (buckets : list BucketValue) : Prop :=
  let kept := template_tiers args in
  args = template kept /\
  kept <> [] /\
  (List.length kept <= List.length buckets)%nat /\
  (forall t, In t kept -> exists b, In b buckets /\ resolve b = t) /\
  Forall (fun t => rejected_tier t = false) kept /\
  StronglySorted burst_falls kept.

(** A denial whose index is that of tier 2 less [2^63], and one whose index
    names no tier. *)
Definition wrapped_denial : any * option error :=
  (any_slice [any_int64 0; any_string "3"; any_int64 (2 - 2 ^ 63)], None).

Definition stray_denial : any * option error :=
  (any_slice [any_int64 0; any_string "3"; any_int64 4], None).

(** The string [sub] occurs somewhere in [s]. *)
Definition occurs_in (sub s : string) : Prop :=
  exists pre post, s = (pre ++ sub ++ post)%string.

(** A float that is an infinity or a finite number of sign [s], and so
    neither a zero nor NaN. *)
Definition strict (s : bool) (x : float64) : Prop :=
  match x with
  | S754_infinity s' => s' = s
  | S754_finite s' _ e => s' = s /\ -1074 <= e
  | _ => False
  end.


(** A zero, a finite number or an infinity of sign [s], a finite one with an
    exponent the format allows. *)
Definition weak (s : bool) (x : float64) : Prop :=
  match x with
  | S754_zero s' | S754_infinity s' => s' = s
  | S754_finite s' _ e => s' = s /\ -1074 <= e
  | S754_nan => False
  end.


(* ================================================================== *)
(** * Facts about the order of float64 *)
(* ================================================================== *)

Lemma compare_cont_Eq (m1 m2 : positive) :
  Pos.compare_cont Eq m1 m2 = (Zpos m1 ?= Zpos m2).
Proof. reflexivity. Qed.

Lemma SFcompare_rank (x y : float64) :
  isNaN x = false -> isNaN y = false ->
  exists c, SFcompare x y = Some c /\
    (c = Lt <-> lex_lt (rank x) (rank y)) /\
    (c = Eq <-> rank x = rank y) /\
    (c = Gt <-> lex_lt (rank y) (rank x)).
Proof.
  intros Hx Hy.
  destruct x as [sx|sx| |sx mx ex], y as [sy|sy| |sy my ey];
    try discriminate; simpl;
    try (destruct sx); try (destruct sy);
    try (eexists; split; [reflexivity|];
         repeat split; intros; try discriminate; try reflexivity;
         try (exfalso; cbn in *; lia); cbn; try lia; try congruence; fail).
  all: rewrite compare_cont_Eq; cbn [rank lex_lt].
  all: destruct (Z.compare_spec ex ey) as [E|E|E];
      [ subst ey; destruct (Z.compare_spec (Zpos mx) (Zpos my)) as [F|F|F] | | ];
      eexists; (split; [reflexivity|]); cbn [CompOpp];
      repeat split; intros; try discriminate; try reflexivity;
      try congruence; try lia.
  all: exfalso; match goal with H : (_, _, _) = (_, _, _) |- _ => inversion H; lia end.
Qed.

Lemma isNaN_true (x : float64) : isNaN x = true -> x = S754_nan.
Proof. destruct x; simpl; congruence. Qed.

Lemma SFcompare_nan (x y : float64) :
  isNaN x = true \/ isNaN y = true -> SFcompare x y = None.
Proof.
  intros [H|H]; apply isNaN_true in H; subst; [|destruct x]; reflexivity.
Qed.

Lemma f64_lt_spec (x y : float64) :
  (x <? y)%f64 = true <->
  isNaN x = false /\ isNaN y = false /\ lex_lt (rank x) (rank y).
Proof.
  unfold f64_lt, SFltb.
  destruct (isNaN x) eqn:Hx; [rewrite SFcompare_nan by auto; intuition congruence|].
  destruct (isNaN y) eqn:Hy; [rewrite SFcompare_nan by auto; intuition congruence|].
  destruct (SFcompare_rank x y Hx Hy) as (c & -> & HL & HE & HG).
  destruct c; intuition congruence.
Qed.

Lemma f64_eq_spec (x y : float64) :
  (x =? y)%f64 = true <->
  isNaN x = false /\ isNaN y = false /\ rank x = rank y.
Proof.
  unfold f64_eq, SFeqb.
  destruct (isNaN x) eqn:Hx; [rewrite SFcompare_nan by auto; intuition congruence|].
  destruct (isNaN y) eqn:Hy; [rewrite SFcompare_nan by auto; intuition congruence|].
  destruct (SFcompare_rank x y Hx Hy) as (c & -> & HL & HE & HG).
  destruct c; intuition congruence.
Qed.

Lemma f64_le_spec (x y : float64) :
  (x <=? y)%f64 = true <->
  isNaN x = false /\ isNaN y = false /\
  (lex_lt (rank x) (rank y) \/ rank x = rank y).
Proof.
  unfold f64_le, SFleb.
  destruct (isNaN x) eqn:Hx; [rewrite SFcompare_nan by auto; intuition congruence|].
  destruct (isNaN y) eqn:Hy; [rewrite SFcompare_nan by auto; intuition congruence|].
  destruct (SFcompare_rank x y Hx Hy) as (c & -> & HL & HE & HG).
  destruct c; intuition congruence.
Qed.

Lemma f64_ne_spec (x y : float64) :
  (x !=? y)%f64 = true <-> ~ (x =? y)%f64 = true.
Proof.
  unfold f64_ne, f64_eq. destruct (SFeqb x y); simpl; intuition congruence.
Qed.

Lemma lex_lt_cases (a b : Z * Z * Z) : lex_lt a b \/ a = b \/ lex_lt b a.
Proof.
  destruct a as [[a1 a2] a3], b as [[b1 b2] b3]; unfold lex_lt.
  destruct (Z.lt_trichotomy a1 b1) as [?|[?|?]]; [lia| |lia].
  destruct (Z.lt_trichotomy a2 b2) as [?|[?|?]]; [lia| |lia].
  destruct (Z.lt_trichotomy a3 b3) as [?|[?|?]]; [lia| |lia].
  right; left; congruence.
Qed.

Lemma lex_lt_trans (a b c : Z * Z * Z) : lex_lt a b -> lex_lt b c -> lex_lt a c.
Proof.
  destruct a as [[a1 a2] a3], b as [[b1 b2] b3], c as [[c1 c2] c3].
  unfold lex_lt; lia.
Qed.

Lemma lex_lt_irrefl (a : Z * Z * Z) : ~ lex_lt a a.
Proof. destruct a as [[a1 a2] a3]; unfold lex_lt; lia. Qed.

Lemma lex_lt_asym (a b : Z * Z * Z) : lex_lt a b -> ~ lex_lt b a.
Proof. intros H H'; exact (lex_lt_irrefl a (lex_lt_trans _ _ _ H H')). Qed.

(** Turns every comparison of floats in sight into a statement on ranks. *)
Ltac f64_ranks :=
  repeat match goal with
    | H : f64_lt _ _ = false |- _ => apply not_true_iff_false in H
    | H : f64_le _ _ = false |- _ => apply not_true_iff_false in H
    | H : f64_eq _ _ = false |- _ => apply not_true_iff_false in H
    | H : f64_ne _ _ = false |- _ => apply not_true_iff_false in H
    | |- f64_lt _ _ = false => apply not_true_iff_false
    | |- f64_le _ _ = false => apply not_true_iff_false
    | |- f64_eq _ _ = false => apply not_true_iff_false
    | |- f64_ne _ _ = false => apply not_true_iff_false
    end;
  repeat rewrite f64_ne_spec in *;
  repeat rewrite f64_lt_spec in *;
  repeat rewrite f64_le_spec in *;
  repeat rewrite f64_eq_spec in *.

Lemma f64_lt_trans (x y z : float64) :
  (x <? y)%f64 = true -> (y <? z)%f64 = true -> (x <? z)%f64 = true.
Proof.
  f64_ranks. intros (? & ? & H1) (? & ? & H2).
  eauto using lex_lt_trans.
Qed.

Lemma f64_lt_irrefl (x : float64) : (x <? x)%f64 = false.
Proof. f64_ranks. intros (? & ? & H). exact (lex_lt_irrefl _ H). Qed.

Lemma f64_le_lt_trans (x y z : float64) :
  (x <=? y)%f64 = true -> (y <? z)%f64 = true -> (x <? z)%f64 = true.
Proof.
  f64_ranks. intros (? & ? & [H1|H1]) (? & ? & H2); repeat split; auto.
  - eauto using lex_lt_trans.
  - congruence.
Qed.

Lemma f64_lt_le_trans (x y z : float64) :
  (x <? y)%f64 = true -> (y <=? z)%f64 = true -> (x <? z)%f64 = true.
Proof.
  f64_ranks. intros (? & ? & H1) (? & ? & [H2|H2]); repeat split; auto.
  - eauto using lex_lt_trans.
  - congruence.
Qed.

Lemma f64_le_trans (x y z : float64) :
  (x <=? y)%f64 = true -> (y <=? z)%f64 = true -> (x <=? z)%f64 = true.
Proof.
  f64_ranks. intros (? & ? & [H1|H1]) (? & ? & [H2|H2]); repeat split; auto.
  - left; eauto using lex_lt_trans.
  - left; congruence.
  - left; congruence.
  - right; congruence.
Qed.

Lemma f64_lt_le (x y : float64) :
  (x <? y)%f64 = true -> (x <=? y)%f64 = true.
Proof. f64_ranks. intuition. Qed.

Lemma f64_eq_le (x y : float64) :
  (x =? y)%f64 = true -> (x <=? y)%f64 = true.
Proof. f64_ranks. intuition. Qed.

Lemma f64_lt_not_le (x y : float64) :
  (x <? y)%f64 = true -> (y <=? x)%f64 = false.
Proof.
  intros H1. f64_ranks. destruct H1 as (? & ? & H). intros (? & ? & [H'|H']).
  - exact (lex_lt_asym _ _ H H').
  - rewrite H' in H. exact (lex_lt_irrefl _ H).
Qed.

(** Among floats that are not NaN the order is total. *)
Lemma f64_not_lt_le (x y : float64) :
  isNaN x = false -> isNaN y = false ->
  (x <? y)%f64 = false -> (y <=? x)%f64 = true.
Proof.
  intros Hx Hy H. f64_ranks. repeat split; auto.
  destruct (lex_lt_cases (rank x) (rank y)) as [L|[E|G]];
    [exfalso; apply H; auto | right; symmetry; exact E | left; exact G].
Qed.

Lemma f64_not_le_lt (x y : float64) :
  isNaN x = false -> isNaN y = false ->
  (x <=? y)%f64 = false -> (y <? x)%f64 = true.
Proof.
  intros Hx Hy H. f64_ranks. repeat split; auto.
  destruct (lex_lt_cases (rank x) (rank y)) as [?|[?|?]]; auto;
    exfalso; apply H; auto.
Qed.

Lemma f64_lt_notNaN (x y : float64) :
  (x <? y)%f64 = true -> isNaN x = false /\ isNaN y = false.
Proof. f64_ranks. intuition. Qed.

Lemma f64_le_notNaN (x y : float64) :
  (x <=? y)%f64 = true -> isNaN x = false /\ isNaN y = false.
Proof. f64_ranks. intuition. Qed.

(** Two floats that compare equal are the same float, zeros apart. *)
Lemma f64_eq_leibniz (x y : float64) :
  (x =? y)%f64 = true -> (x =? f64_zero)%f64 = false -> x = y.
Proof.
  intros H Hz. f64_ranks. destruct H as (Hx & Hy & H).
  destruct x as [sx|[|]| |[|] mx ex], y as [sy|[|]| |[|] my ey];
    try discriminate; try reflexivity;
    try (exfalso; apply Hz; repeat split; reflexivity);
    cbn in H; inversion H; try reflexivity.
  f_equal; lia.
Qed.

(* ================================================================== *)
(** * sort.Slice returns a sorted permutation *)
(* ================================================================== *)

Section Sorting.

Context {A : Type} (less : A -> A -> bool).

Lemma sink_perm (x : A) (l : list A) : Permutation (sink less x l) (x :: l).
Proof.
  induction l as [|y ys IH]; simpl; [reflexivity|].
  destruct (less x y); [|reflexivity].
  rewrite IH. apply perm_swap.
Qed.

Lemma insertion_perm (l acc : list A) :
  Permutation (fold_left (fun acc x => sink less x acc) l acc) (rev l ++ acc).
Proof.
  revert acc; induction l as [|x l IH]; intros acc; simpl; [reflexivity|].
  rewrite IH, sink_perm, <- app_assoc. reflexivity.
Qed.

Lemma sort_Slice_perm (l : list A) : Permutation (sort_Slice less l) l.
Proof.
  unfold sort_Slice. rewrite <- Permutation_rev, insertion_perm, app_nil_r.
  symmetry. apply Permutation_rev.
Qed.

Lemma sort_Slice_In (l : list A) (x : A) : In x (sort_Slice less l) <-> In x l.
Proof.
  split; apply Permutation_in; [|symmetry]; apply sort_Slice_perm.
Qed.

Lemma sort_Slice_length (l : list A) :
  List.length (sort_Slice less l) = List.length l.
Proof. apply Permutation_length, sort_Slice_perm. Qed.

Lemma descending_rev (l : list A) : descending less l -> ascending less (rev l).
Proof.
  unfold descending, ascending.
  induction 1 as [|a l Hl IH Ha]; simpl; [constructor|].
  clear Hl. revert IH. generalize (rev_involutive l).
  assert (Hin : Forall (fun b => less a b = false) (rev l)).
  { rewrite Forall_forall in *. intros b Hb. apply Ha, in_rev, Hb. }
  clear Ha. intros _. induction (rev l) as [|b r IHr]; intros Hs; simpl.
  - repeat constructor.
  - inversion Hs; subst. inversion Hin; subst. constructor.
    + apply IHr; assumption.
    + apply Forall_app; split; [assumption|]. constructor; [assumption|constructor].
Qed.

(** An ascending slice is left as it is. *)
Lemma insertion_ascending (l acc : list A) :
  ascending less l ->
  (forall x y, In x l -> In y acc -> less x y = false) ->
  fold_left (fun acc x => sink less x acc) l acc = rev l ++ acc.
Proof.
  revert acc; induction l as [|x l IH]; intros acc Hs Hacc; simpl; [reflexivity|].
  inversion Hs as [|? ? Hl Hx]; subst.
  assert (E : sink less x acc = x :: acc).
  { destruct acc as [|y ys]; simpl; [reflexivity|].
    rewrite (Hacc x y); simpl; auto. }
  rewrite E, IH, <- app_assoc; [reflexivity|assumption|].
  intros z y Hz [<-|Hy].
  - rewrite Forall_forall in Hx. apply Hx, Hz.
  - apply Hacc; simpl; auto.
Qed.

Lemma sort_Slice_ascending (l : list A) : ascending less l -> sort_Slice less l = l.
Proof.
  intros Hs. unfold sort_Slice.
  rewrite insertion_ascending, app_nil_r, rev_involutive; auto.
  intros x y _ [].
Qed.

(** [less] behaves as a strict weak order on the elements satisfying [P]. *)
Variable P : A -> Prop.
Hypothesis less_asym :
  forall a b, P a -> P b -> less a b = true -> less b a = false.
Hypothesis less_negtrans :
  forall a b c, P a -> P b -> P c ->
    less a b = false -> less b c = false -> less a c = false.

Lemma sink_descending (x : A) (l : list A) :
  P x -> Forall P l -> descending less l -> descending less (sink less x l).
Proof.
  intros Px Pl Hs. induction Hs as [|y ys Hys IH Hy]; simpl.
  - repeat constructor.
  - inversion Pl as [|? ? Py Pys]; subst.
    destruct (less x y) eqn:E.
    + constructor; [apply IH, Pys|].
      rewrite Forall_forall in *. intros z Hz.
      apply (Permutation_in _ (sink_perm x ys)) in Hz.
      destruct Hz as [<-|Hz]; [apply less_asym; assumption|apply Hy, Hz].
    + constructor; [constructor; assumption|].
      constructor; [assumption|].
      rewrite Forall_forall in *. intros z Hz.
      apply less_negtrans with y; auto.
Qed.

Lemma insertion_descending (l acc : list A) :
  Forall P l -> Forall P acc -> descending less acc ->
  descending less (fold_left (fun acc x => sink less x acc) l acc).
Proof.
  revert acc; induction l as [|x l IH]; intros acc Pl Pacc Hs; simpl; [assumption|].
  inversion Pl; subst. apply IH; [assumption| |apply sink_descending; assumption].
  rewrite Forall_forall in *. intros z Hz.
  apply (Permutation_in _ (sink_perm x acc)) in Hz.
  destruct Hz as [<-|Hz]; auto.
Qed.

Lemma sort_Slice_sorted (l : list A) : Forall P l -> ascending less (sort_Slice less l).
Proof.
  intros Pl. apply descending_rev, insertion_descending; auto; constructor.
Qed.

(** On such elements, when moreover two elements neither of which is less
    than the other are the same element, the sorted arrangement is unique:
    every sorting algorithm returns what the insertion sort returns. *)
Hypothesis less_antisym :
  forall a b, P a -> P b -> less a b = false -> less b a = false -> a = b.

Lemma sorted_permutation_unique (l1 l2 : list A) :
  Forall P l1 -> Permutation l1 l2 -> ascending less l1 -> ascending less l2 -> l1 = l2.
Proof.
  revert l2; induction l1 as [|a l1 IH]; intros l2 P1 Hp H1 H2.
  - apply Permutation_nil in Hp. congruence.
  - destruct l2 as [|b l2]; [symmetry in Hp; apply Permutation_nil in Hp; discriminate|].
    inversion H1 as [|? ? H1' Ha]; inversion H2 as [|? ? H2' Hb]; subst.
    inversion P1 as [|? ? Pa P1']; subst.
    rewrite Forall_forall in Ha, Hb, P1'.
    assert (Pb : P b).
    { assert (Hin : In b (a :: l1)) by (apply (Permutation_in _ (Permutation_sym Hp)); simpl; auto).
      destruct Hin as [<-|Hin]; auto. }
    assert (E : a = b).
    { assert (Hin1 : In a (b :: l2)) by (apply (Permutation_in _ Hp); simpl; auto).
      assert (Hin2 : In b (a :: l1)) by (apply (Permutation_in _ (Permutation_sym Hp)); simpl; auto).
      destruct Hin1 as [->|Hin1]; [reflexivity|].
      destruct Hin2 as [->|Hin2]; [reflexivity|].
      apply less_antisym; auto. }
    subst b. f_equal. apply IH; auto.
    + rewrite Forall_forall; assumption.
    + eapply Permutation_cons_inv; eassumption.
Qed.

Lemma sort_Slice_unique (l s : list A) :
  Forall P l -> Permutation s l -> ascending less s -> s = sort_Slice less l.
Proof.
  intros Pl Hp Hs. apply sorted_permutation_unique; auto.
  - rewrite Forall_forall in *. intros x Hx. apply Pl, (Permutation_in _ Hp), Hx.
  - rewrite Hp. symmetry. apply sort_Slice_perm.
  - apply sort_Slice_sorted, Pl.
Qed.

End Sorting.

Lemma sink_map {A B : Type} (f : A -> B) (lessA : A -> A -> bool)
  (lessB : B -> B -> bool) (x : A) (l : list A) :
  (forall a b, lessA a b = lessB (f a) (f b)) ->
  map f (sink lessA x l) = sink lessB (f x) (map f l).
Proof.
  intros H. induction l as [|y ys IH]; simpl; [reflexivity|].
  rewrite <- H. destruct (lessA x y); simpl; congruence.
Qed.

Lemma sort_Slice_map {A B : Type} (f : A -> B) (lessA : A -> A -> bool)
  (lessB : B -> B -> bool) (l : list A) :
  (forall a b, lessA a b = lessB (f a) (f b)) ->
  map f (sort_Slice lessA l) = sort_Slice lessB (map f l).
Proof.
  intros H. unfold sort_Slice. rewrite map_rev. f_equal.
  change (@nil B) with (map f []). generalize (@nil A).
  induction l as [|x l IH]; intros acc; simpl; [reflexivity|].
  rewrite IH. f_equal. apply sink_map, H.
Qed.

(* ================================================================== *)
(** * The comparison of tiers *)
(* ================================================================== *)

Lemma ordered_tier_spec (t : tier) :
  ordered_tier t = true <-> isNaN (fst t) = false /\ isNaN (snd t) = false.
Proof.
  unfold ordered_tier. rewrite andb_true_iff, !negb_true_iff. reflexivity.
Qed.

Lemma positive_tier_ordered (t : tier) :
  positive_tier t = true -> ordered_tier t = true.
Proof.
  unfold positive_tier. rewrite andb_true_iff, ordered_tier_spec.
  intros [H1 H2]. apply f64_lt_notNaN in H1, H2. tauto.
Qed.

(** On tiers without NaN, [tier_less] is the lexicographic order of the
    ranks of flow and burst. *)
Lemma tier_less_spec (a b : tier) :
  ordered_tier a = true -> ordered_tier b = true ->
  (tier_less a b = true <->
   lex_lt (rank (fst a)) (rank (fst b)) \/
   (rank (fst a) = rank (fst b) /\ lex_lt (rank (snd a)) (rank (snd b)))).
Proof.
  rewrite !ordered_tier_spec. intros [Ha1 Ha2] [Hb1 Hb2].
  unfold tier_less.
  destruct (fst a !=? fst b)%f64 eqn:E.
  - f64_ranks. split.
    + intros (_ & _ & H); auto.
    + intros [H|[H _]]; [auto|]. exfalso; apply E; auto.
  - f64_ranks. split.
    + intros (_ & _ & H). right. split; [|exact H].
      destruct (lex_lt_cases (rank (fst a)) (rank (fst b))) as [L|[L|L]]; auto;
        exfalso; apply E; intros (_ & _ & R); rewrite R in L;
        exact (lex_lt_irrefl _ L).
    + intros [H|[_ H]]; [|auto].
      exfalso; apply E. intros (_ & _ & R). rewrite R in H.
      exact (lex_lt_irrefl _ H).
Qed.

Ltac lex_lia :=
  repeat match goal with
    | x : (Z * Z * Z)%type |- _ => destruct x as [[? ?] ?]
    end;
  unfold lex_lt in *; rewrite ?pair_equal_spec in *; lia.

Lemma tier_less_false_spec (a b : tier) :
  ordered_tier a = true -> ordered_tier b = true ->
  (tier_less a b = false <->
   lex_lt (rank (fst b)) (rank (fst a)) \/
   (rank (fst a) = rank (fst b) /\
    (lex_lt (rank (snd b)) (rank (snd a)) \/ rank (snd a) = rank (snd b)))).
Proof.
  intros Ha Hb. rewrite <- not_true_iff_false, (tier_less_spec a b Ha Hb).
  generalize (rank (fst a)) (rank (fst b)) (rank (snd a)) (rank (snd b)).
  intros a1 b1 a2 b2. lex_lia.
Qed.

Lemma lex_pair_negtrans (a1 a2 b1 b2 c1 c2 : Z * Z * Z) :
  lex_lt b1 a1 \/ (a1 = b1 /\ (lex_lt b2 a2 \/ a2 = b2)) ->
  lex_lt c1 b1 \/ (b1 = c1 /\ (lex_lt c2 b2 \/ b2 = c2)) ->
  lex_lt c1 a1 \/ (a1 = c1 /\ (lex_lt c2 a2 \/ a2 = c2)).
Proof. lex_lia. Qed.

Lemma lex_pair_asym (a1 a2 b1 b2 : Z * Z * Z) :
  lex_lt a1 b1 \/ (a1 = b1 /\ lex_lt a2 b2) ->
  lex_lt a1 b1 \/ (b1 = a1 /\ (lex_lt a2 b2 \/ b2 = a2)).
Proof. lex_lia. Qed.

Lemma lex_pair_antisym (a1 a2 b1 b2 : Z * Z * Z) :
  lex_lt b1 a1 \/ (a1 = b1 /\ (lex_lt b2 a2 \/ a2 = b2)) ->
  lex_lt a1 b1 \/ (b1 = a1 /\ (lex_lt a2 b2 \/ b2 = a2)) ->
  a1 = b1 /\ a2 = b2.
Proof. lex_lia. Qed.

Lemma tier_less_asym (a b : tier) :
  ordered_tier a = true -> ordered_tier b = true ->
  tier_less a b = true -> tier_less b a = false.
Proof.
  intros Ha Hb. rewrite (tier_less_spec a b Ha Hb), (tier_less_false_spec b a Hb Ha).
  apply lex_pair_asym.
Qed.

Lemma tier_less_negtrans (a b c : tier) :
  ordered_tier a = true -> ordered_tier b = true -> ordered_tier c = true ->
  tier_less a b = false -> tier_less b c = false -> tier_less a c = false.
Proof.
  intros Ha Hb Hc.
  rewrite (tier_less_false_spec a b Ha Hb), (tier_less_false_spec b c Hb Hc),
    (tier_less_false_spec a c Ha Hc).
  apply lex_pair_negtrans.
Qed.

Lemma rank_inj (x y : float64) :
  isNaN x = false -> (x =? f64_zero)%f64 = false -> rank x = rank y -> x = y.
Proof.
  intros Hx Hz H. apply f64_eq_leibniz; [|assumption].
  f64_ranks. repeat split; auto.
  destruct y; try reflexivity. destruct x as [| [|] | | [|] ]; discriminate.
Qed.

(** Tiers of positive flow and burst that [tier_less] does not tell apart
    are the same tier. *)
Lemma tier_less_antisym (a b : tier) :
  positive_tier a = true -> positive_tier b = true ->
  tier_less a b = false -> tier_less b a = false -> a = b.
Proof.
  intros Pa Pb.
  pose proof (positive_tier_ordered a Pa) as Ha.
  pose proof (positive_tier_ordered b Pb) as Hb.
  rewrite (tier_less_false_spec a b Ha Hb), (tier_less_false_spec b a Hb Ha).
  intros H1 H2. destruct (lex_pair_antisym _ _ _ _ H1 H2) as [E1 E2].
  unfold positive_tier in Pa. apply andb_true_iff in Pa. destruct Pa as [Pa1 Pa2].
  apply ordered_tier_spec in Ha. destruct Ha as [Ha1 Ha2].
  destruct a as [a1 a2], b as [b1 b2]; simpl in *.
  f_equal; apply rank_inj; auto.
  - destruct (a1 =? f64_zero)%f64 eqn:E; [|reflexivity].
    exfalso. f64_ranks. destruct Pa1 as (_ & _ & L), E as (_ & _ & R).
    rewrite R in L. exact (lex_lt_irrefl _ L).
  - destruct (a2 =? f64_zero)%f64 eqn:E; [|reflexivity].
    exfalso. f64_ranks. destruct Pa2 as (_ & _ & L), E as (_ & _ & R).
    rewrite R in L. exact (lex_lt_irrefl _ L).
Qed.

(** Sorting tiers without NaN puts them in ascending order of flow, ties in
    ascending order of burst. *)
Lemma sort_tiers_sorted (ts : list tier) :
  Forall (fun t => ordered_tier t = true) ts ->
  StronglySorted tier_le (sort_Slice tier_less ts).
Proof.
  intros Hts.
  pose proof (sort_Slice_sorted tier_less (fun t => ordered_tier t = true)
                tier_less_asym tier_less_negtrans ts Hts) as Hs.
  assert (Hall : Forall (fun t => ordered_tier t = true) (sort_Slice tier_less ts)).
  { rewrite Forall_forall in *. intros t Ht.
    apply Hts, (proj1 (sort_Slice_In tier_less ts t)), Ht. }
  unfold ascending in Hs. induction Hs as [|a l Hl IH Ha]; [constructor|].
  inversion Hall as [|? ? Oa Ol]; subst. constructor; [apply IH, Ol|].
  rewrite Forall_forall in *. intros b Hb.
  specialize (Ha b Hb). specialize (Ol b Hb).
  apply (tier_less_false_spec b a Ol Oa) in Ha.
  apply ordered_tier_spec in Oa, Ol. unfold tier_le.
  destruct Ha as [L|[E [L|E2]]].
  - left. f64_ranks. tauto.
  - right. split; f64_ranks; repeat split; try tauto; auto.
  - right. split; f64_ranks; repeat split; try tauto; auto.
Qed.

(** On tiers of positive flow and burst the sorted arrangement is unique:
    whatever algorithm [sort.Slice] runs, it returns this list. *)
Lemma sort_tiers_unique (ts s : list tier) :
  Forall (fun t => positive_tier t = true) ts ->
  Permutation s ts -> ascending tier_less s -> s = sort_Slice tier_less ts.
Proof.
  intros Hpos. apply (sort_Slice_unique tier_less (fun t => positive_tier t = true)).
  - intros a b Pa Pb. apply tier_less_asym; apply positive_tier_ordered; assumption.
  - intros a b c Pa Pb Pc.
    apply tier_less_negtrans; apply positive_tier_ordered; assumption.
  - exact tier_less_antisym.
  - exact Hpos.
Qed.

(* ================================================================== *)
(** * The argument-building loop keeps what the specification keeps *)
(* ================================================================== *)

Lemma index_slice_last {A : Type} (pre : list A) (x : A) :
  index_slice (pre ++ [x]) (Z.of_nat (List.length (pre ++ [x])) - 1) = Ok x.
Proof.
  unfold index_slice. rewrite length_app. simpl List.length.
  replace (Z.of_nat (List.length pre + 1) - 1) with (Z.of_nat (List.length pre)) by lia.
  destruct (Z.ltb_spec (Z.of_nat (List.length pre)) 0); [lia|].
  destruct (Z.leb_spec (Z.of_nat (List.length pre + 1)) (Z.of_nat (List.length pre))); [lia|].
  simpl. rewrite Nat2Z.id, nth_error_app2, Nat.sub_diag by lia. reflexivity.
Qed.

Lemma template_app (ts us : list tier) :
  template (ts ++ us) = template ts ++ template us.
Proof. unfold template. apply flat_map_app. Qed.

Lemma template_length (ts : list tier) :
  List.length (template ts) = (2 * List.length ts)%nat.
Proof. induction ts as [|t ts IH]; simpl; lia. Qed.

Section Keep.

Context {R : Type} (keepf : outcome (list any) -> R -> outcome (list any))
  (tof : R -> tier).
Hypothesis keepf_eq : forall acc r,
  keepf acc r =
  (args <~ acc ;;
   last <~ index_slice args (Z.of_nat (List.length args) - 1) ;;
   b <~ assert_float64 last ;;
   if (snd (tof r) <? b)%f64 then Ok (args ++ template [tof r]) else Ok args).

Lemma keep_scan (rates : list R) (pre : list any) (b : float64) :
  fold_left keepf rates (Ok (pre ++ [any_float64 b])) =
  Ok (pre ++ [any_float64 b] ++ template (scan b (map tof rates))).
Proof.
  revert pre b; induction rates as [|r rates IH]; intros pre b; simpl.
  - reflexivity.
  - rewrite keepf_eq. cbn [obind]. rewrite index_slice_last. cbn [obind assert_float64].
    destruct (snd (tof r) <? b)%f64.
    + replace ((pre ++ [any_float64 b]) ++ template [tof r])
        with ((pre ++ [any_float64 b; any_float64 (fst (tof r))])
                ++ [any_float64 (snd (tof r))])
        by (simpl; rewrite <- !app_assoc; reflexivity).
      rewrite IH. simpl. rewrite <- !app_assoc. reflexivity.
    + apply IH.
Qed.

Lemma keep_prune (r0 : R) (rates : list R) :
  fold_left keepf rates
    (Ok [any_float64 (fst (tof r0)); any_float64 (snd (tof r0))]) =
  Ok (template (prune (map tof (r0 :: rates)))).
Proof.
  exact (keep_scan rates [any_float64 (fst (tof r0))] (snd (tof r0))).
Qed.

End Keep.

Lemma Opt_build_args (r0 : Rate) (rates : list Rate) :
  Opt.build_args (r0 :: rates) =
  Ok (template (prune (map tier_of_Rate (r0 :: rates)))).
Proof.
  unfold Opt.build_args. cbn [index_slice List.length obind skipn].
  apply (keep_prune Opt.keep tier_of_Rate). reflexivity.
Qed.

Lemma Cfg_build_args (r0 : Cfg.rate) (rates : list Cfg.rate) :
  Cfg.build_args (r0 :: rates) =
  Ok (template (prune (map tier_of_rate (r0 :: rates)))).
Proof.
  unfold Cfg.build_args. cbn [index_slice List.length obind skipn].
  apply (keep_prune Cfg.keep tier_of_rate). reflexivity.
Qed.

Lemma Opt_less_tier (a b : Rate) :
  Opt.less a b = tier_less (tier_of_Rate a) (tier_of_Rate b).
Proof. reflexivity. Qed.

Lemma Cfg_less_tier (a b : Cfg.rate) :
  Cfg.less a b = tier_less (tier_of_rate a) (tier_of_rate b).
Proof. reflexivity. Qed.

(** Sorting and pruning rates is consolidating their tiers. *)
Lemma Opt_build_sorted (rates : list Rate) :
  rates <> [] ->
  Opt.build_args (sort_Slice Opt.less rates) =
  Ok (template (consolidate (map tier_of_Rate rates))).
Proof.
  intros Hne. unfold consolidate.
  rewrite <- (sort_Slice_map tier_of_Rate Opt.less tier_less rates Opt_less_tier).
  destruct (sort_Slice Opt.less rates) as [|r0 rs] eqn:E.
  - exfalso. apply Hne. apply length_zero_iff_nil.
    rewrite <- (sort_Slice_length Opt.less), E. reflexivity.
  - apply Opt_build_args.
Qed.

Lemma Cfg_build_sorted (rates : list Cfg.rate) :
  rates <> [] ->
  Cfg.build_args (sort_Slice Cfg.less rates) =
  Ok (template (consolidate (map tier_of_rate rates))).
Proof.
  intros Hne. unfold consolidate.
  rewrite <- (sort_Slice_map tier_of_rate Cfg.less tier_less rates Cfg_less_tier).
  destruct (sort_Slice Cfg.less rates) as [|r0 rs] eqn:E.
  - exfalso. apply Hne. apply length_zero_iff_nil.
    rewrite <- (sort_Slice_length Cfg.less), E. reflexivity.
  - apply Cfg_build_args.
Qed.

(* ================================================================== *)
(** * What the constructors compute *)
(* ================================================================== *)

Lemma existsb_rejected_spec (ts : list tier) :
  existsb rejected_tier ts = true <->
  exists t, In t ts /\
    ((fst t <=? f64_zero)%f64 = true \/ (snd t <=? f64_zero)%f64 = true).
Proof.
  rewrite existsb_exists. unfold rejected_tier.
  split; intros (t & Hin & H); exists t; split; auto;
    [apply orb_true_iff in H|apply orb_true_iff]; exact H.
Qed.

Lemma Cfg_resolve_all (buckets : list BucketValue) :
  Cfg.resolve_all buckets =
  if existsb rejected_tier (tiers_of buckets)
  then Err (errors_New "all rate parameters must be positive")
  else Ok (map (fun b => Cfg.mkrate (fst (resolve b)) (snd (resolve b))) buckets).
Proof.
  induction buckets as [|b bs IH]; simpl; [reflexivity|].
  unfold rejected_tier at 1. destruct (resolve b) as [flow burst]; simpl.
  destruct ((flow <=? f64_zero)%f64 || (burst <=? f64_zero)%f64); simpl; [reflexivity|].
  rewrite IH. destruct (existsb rejected_tier (tiers_of bs)); reflexivity.
Qed.

Lemma tier_of_rate_resolve (buckets : list BucketValue) :
  map tier_of_rate
    (map (fun b => Cfg.mkrate (fst (resolve b)) (snd (resolve b))) buckets) =
  tiers_of buckets.
Proof.
  unfold tiers_of. rewrite map_map. apply map_ext.
  intros b. unfold tier_of_rate; simpl. destruct (resolve b); reflexivity.
Qed.

(** [NewLimiter], outcome by outcome; the state is handed back as it came. *)
Lemma NewLimiter_eq {W : Type} (c : Cfg.Config W) (st : State W) :
  Cfg.NewLimiter c st =
  (match Cfg.Redis c with
   | None => Err (errors_New "the limiter must have a redis client")
   | Some redis =>
       match Cfg.Buckets c with
       | [] => Err (errors_New "the limiter must have provided rates")
       | _ :: _ =>
           if existsb rejected_tier (tiers_of (Cfg.Buckets c))
           then Err (errors_New "all rate parameters must be positive")
           else Ok (Cfg.mkLimiter
                      (template (consolidate (tiers_of (Cfg.Buckets c))))
                      redis (Cfg.Prefix c)
                      (match Cfg.Backoff c with
                       | None => Some (backoff_of (mkLinear f64_two))
                       | Some b => Some b
                       end))
       end
   end, st).
Proof.
  unfold Cfg.NewLimiter. destruct (Cfg.Redis c) as [redis|]; [|reflexivity].
  destruct (Cfg.Buckets c) as [|b bs] eqn:Eb; [reflexivity|].
  cbn [List.length Z.of_nat Z.eqb]. unfold ret. f_equal.
  rewrite Cfg_resolve_all.
  destruct (existsb rejected_tier (tiers_of (b :: bs))); [reflexivity|].
  cbn [obind]. rewrite Cfg_build_sorted by discriminate.
  rewrite tier_of_rate_resolve. reflexivity.
Qed.

Lemma Opt_check_args (ts : list tier) :
  Opt.check_args (template ts) =
  if existsb rejected_tier ts
  then Err (errors_New "limiter: rate parameters must be positive")
  else Ok tt.
Proof.
  induction ts as [|[flow burst] ts IH]; simpl; [reflexivity|].
  unfold rejected_tier at 1; simpl.
  destruct (flow <=? f64_zero)%f64; simpl; [reflexivity|].
  destruct (burst <=? f64_zero)%f64; simpl; [reflexivity|].
  exact IH.
Qed.

(** What the options of a list of settings do to a configuration. *)
Lemma options_fold `{GoEnv} (settings : list Setting) (c : Opt.config) :
  fold_left (fun c cfg => cfg c) (map option_of settings) c =
  Opt.mkconfig
    (Opt.config_rates c ++
       map (fun b => mkRate (fst (resolve b)) (snd (resolve b)))
         (extra_buckets settings))
    (fold_left (fun p s => match s with set_prefix q => q | _ => p end)
       settings (Opt.config_prefix c))
    (fold_left (fun f s => match s with
                           | set_backoff ch => Some (backoff_func ch)
                           | _ => f
                           end)
       settings (Opt.config_backoff c)).
Proof.
  revert c; induction settings as [|s ss IH]; intros c; simpl.
  - rewrite app_nil_r. destruct c; reflexivity.
  - rewrite IH. destruct s as [b|p|[k|k|k|k|f]]; simpl;
      try (rewrite app_nil_r || idtac); try reflexivity.
    unfold Opt.WithAdditionalBucket. destruct (resolve b) as [flow burst]; simpl.
    rewrite <- app_assoc. reflexivity.
Qed.

Lemma chosen_backoff_fold `{GoEnv} (settings : list Setting)
  (c : option BackoffChoice) :
  fold_left (fun f s => match s with
                        | set_backoff ch => Some (backoff_func ch)
                        | _ => f
                        end) settings (option_map backoff_func c) =
  option_map backoff_func
    (fold_left (fun c s => match s with set_backoff ch => Some ch | _ => c end)
       settings c).
Proof.
  revert c; induction settings as [|s ss IH]; intros c; simpl; [reflexivity|].
  destruct s as [b|p|ch]; try apply IH. apply (IH (Some ch)).
Qed.

Lemma chosen_backoff_any (settings : list Setting) (o : option BackoffChoice) :
  fold_left (fun c s => match s with set_backoff ch => Some ch | _ => c end)
    settings o =
  match chosen_backoff settings with Some ch => Some ch | None => o end.
Proof.
  unfold chosen_backoff.
  revert o; induction settings as [|s ss IH]; intros o; simpl; [reflexivity|].
  destruct s as [b|p|ch]; try apply IH.
  rewrite (IH (Some ch)).
  destruct (fold_left _ ss None); reflexivity.
Qed.

Lemma chosen_prefix_fold (settings : list Setting) :
  fold_left (fun p s => match s with set_prefix q => q | _ => p end)
    settings EmptyString = chosen_prefix settings.
Proof. reflexivity. Qed.

(** [New] on the options of a list of settings, outcome by outcome; the state
    is handed back as it came. *)
Lemma New_eq `{GoEnv} {W : Type} (redis : option (Client W)) (b : BucketValue)
  (settings : list Setting) (st : State W) :
  Opt.New redis b (map option_of settings) st =
  (match redis with
   | None => Err (errors_New "limiter: must have a redis client")
   | Some redis =>
       let ts := consolidate (tiers_of (b :: extra_buckets settings)) in
       if existsb rejected_tier ts
       then Err (errors_New "limiter: rate parameters must be positive")
       else Ok (Opt.mkLimiter (template ts) redis (chosen_prefix settings)
                  (Some (backoff_func (effective_backoff settings))))
   end, st).
Proof.
  unfold Opt.New. destruct redis as [redis|]; [|reflexivity].
  unfold ret. f_equal. rewrite options_fold.
  destruct (resolve b) as [flow burst] eqn:Eb.
  assert (E0 : Opt.WithAdditionalBucket b
                 (Opt.WithLinearBackoff f64_two (Opt.mkconfig [] EmptyString None)) =
               Opt.mkconfig [mkRate flow burst] EmptyString
                 (Some (fun deny => (f64_two * deny)%f64))).
  { unfold Opt.WithAdditionalBucket, Opt.WithLinearBackoff. rewrite Eb. reflexivity. }
  rewrite E0.
  cbn [Opt.config_rates Opt.config_prefix Opt.config_backoff app].
  rewrite Opt_build_sorted by discriminate.
  assert (Et : map tier_of_Rate
                 (mkRate flow burst ::
                    map (fun b => mkRate (fst (resolve b)) (snd (resolve b)))
                      (extra_buckets settings)) =
               tiers_of (b :: extra_buckets settings)).
  { unfold tiers_of. simpl. rewrite Eb. f_equal. rewrite map_map.
    apply map_ext. intros x. unfold tier_of_Rate; simpl.
    destruct (resolve x); reflexivity. }
  rewrite Et. cbn [obind]. rewrite Opt_check_args. cbn zeta.
  destruct (existsb rejected_tier _); [reflexivity|].
  cbn [obind]. f_equal. f_equal.
  change (Some (fun deny : float64 => (f64_two * deny)%f64))
    with (option_map backoff_func (Some (choose_Linear f64_two))).
  rewrite chosen_backoff_fold, chosen_backoff_any.
  unfold effective_backoff. destruct (chosen_backoff settings); reflexivity.
Qed.

(* ================================================================== *)
(** * What consolidation keeps *)
(* ================================================================== *)

Lemma scan_In (b : float64) (ts : list tier) (t : tier) :
  In t (scan b ts) -> In t ts.
Proof.
  revert b; induction ts as [|u ts IH]; intros b; simpl; [tauto|].
  destruct (snd u <? b)%f64; simpl; intros H.
  - destruct H as [H|H]; eauto.
  - eauto.
Qed.

Lemma prune_In (ts : list tier) (t : tier) : In t (prune ts) -> In t ts.
Proof.
  destruct ts as [|u ts]; simpl; [tauto|].
  intros [H|H]; [auto|right; eapply scan_In; eassumption].
Qed.

Lemma consolidate_In (ts : list tier) (t : tier) :
  In t (consolidate ts) -> In t ts.
Proof.
  intros H. apply prune_In in H. apply (sort_Slice_In tier_less ts t), H.
Qed.

Lemma consolidate_nonempty (ts : list tier) : ts <> [] -> consolidate ts <> [].
Proof.
  intros Hne. unfold consolidate.
  destruct (sort_Slice tier_less ts) as [|t s] eqn:E; [|discriminate].
  exfalso. apply Hne, length_zero_iff_nil.
  rewrite <- (sort_Slice_length tier_less), E. reflexivity.
Qed.

Lemma tier_le_flow (a b : tier) :
  tier_le a b -> (fst a <=? fst b)%f64 = true.
Proof. intros [H|[H _]]; [apply f64_lt_le|apply f64_eq_le]; exact H. Qed.

Lemma f64_le_refl (x : float64) : isNaN x = false -> (x <=? x)%f64 = true.
Proof. intros H. f64_ranks. auto. Qed.

(** Every tier of a sorted list is dominated by a tier that the scan keeps,
    or by the tier kept last before the scan. *)
Lemma scan_dominates (ts : list tier) (k0 : tier) :
  ordered_tier k0 = true ->
  Forall (fun t => ordered_tier t = true) ts ->
  Forall (fun t => (fst k0 <=? fst t)%f64 = true) ts ->
  StronglySorted tier_le ts ->
  forall t, In t ts -> exists k, In k (k0 :: scan (snd k0) ts) /\ dominates k t.
Proof.
  revert k0; induction ts as [|t1 ts IH]; intros k0 Ok0 Ots Hk0 Hs t Hin;
    [destruct Hin|].
  inversion Ots as [|? ? Ot1 Ots']; inversion Hk0 as [|? ? Hk1 Hk0'];
    inversion Hs as [|? ? Hs' Ht1]; subst.
  apply ordered_tier_spec in Ot1 as Ht1n. destruct Ht1n as [Hf1 Hb1].
  apply ordered_tier_spec in Ok0 as Hk0n. destruct Hk0n as [Hfk Hbk].
  simpl. destruct (snd t1 <? snd k0)%f64 eqn:E.
  - destruct Hin as [<-|Hin].
    + exists t1. split; [simpl; auto|]. split; apply f64_le_refl; assumption.
    + destruct (IH t1 Ot1 Ots') with (t := t) as (k & Hk & Hd); auto.
      * rewrite Forall_forall in *. intros u Hu. apply tier_le_flow, Ht1, Hu.
      * exists k. split; [right; exact Hk|exact Hd].
  - destruct Hin as [<-|Hin].
    + exists k0. split; [simpl; auto|]. split; [assumption|].
      apply f64_not_lt_le; assumption.
    + apply (IH k0); assumption.
Qed.

Lemma prune_dominates (ts : list tier) :
  Forall (fun t => ordered_tier t = true) ts ->
  StronglySorted tier_le ts ->
  forall t, In t ts -> exists k, In k (prune ts) /\ dominates k t.
Proof.
  intros Ots Hs t Hin. destruct ts as [|t0 ts]; [destruct Hin|].
  inversion Ots as [|? ? Ot0 Ots']; inversion Hs as [|? ? Hs' Ht0]; subst.
  apply ordered_tier_spec in Ot0 as Hn. destruct Hn as [Hf0 Hb0].
  destruct Hin as [<-|Hin].
  - exists t0. split; [simpl; auto|]. split; apply f64_le_refl; assumption.
  - apply (scan_dominates ts t0); auto.
    rewrite Forall_forall in *. intros u Hu. apply tier_le_flow, Ht0, Hu.
Qed.

Lemma ordered_sorted (ts : list tier) :
  Forall (fun t => ordered_tier t = true) ts ->
  Forall (fun t => ordered_tier t = true) (sort_Slice tier_less ts).
Proof.
  rewrite !Forall_forall. intros H t Ht.
  apply H, (sort_Slice_In tier_less ts t), Ht.
Qed.

Lemma consolidate_dominates (ts : list tier) :
  Forall (fun t => ordered_tier t = true) ts ->
  forall t, In t ts -> exists k, In k (consolidate ts) /\ dominates k t.
Proof.
  intros Ots t Hin. apply prune_dominates.
  - apply ordered_sorted, Ots.
  - apply sort_tiers_sorted, Ots.
  - apply (sort_Slice_In tier_less ts t), Hin.
Qed.

(** Consolidation discards no reason to reject: on tiers without NaN, some
    kept tier is non-positive exactly when some tier is. *)
Lemma rejected_consolidate (ts : list tier) :
  Forall (fun t => ordered_tier t = true) ts ->
  existsb rejected_tier (consolidate ts) = existsb rejected_tier ts.
Proof.
  intros Ots. apply eq_true_iff_eq. rewrite !existsb_rejected_spec. split.
  - intros (t & Hin & H). exists t. split; [apply consolidate_In, Hin|exact H].
  - intros (t & Hin & H).
    destruct (consolidate_dominates ts Ots t Hin) as (k & Hk & Hf & Hb).
    exists k. split; [exact Hk|].
    destruct H as [H|H]; [left|right]; eapply f64_le_trans; eassumption.
Qed.

(* ================================================================== *)
(** * Rounding keeps the sign *)
(* ================================================================== *)

Lemma signed_cases (s : bool) (x : float64) :
  signed s x ->
  x = S754_zero s \/ x = S754_infinity s \/ exists m e, x = S754_finite s m e.
Proof.
  destruct x as [s'|s'| |s' m e]; simpl; intros H; subst; eauto. destruct H.
Qed.


Lemma shr_1_nonneg (mrs : shr_record) : 0 <= shr_m mrs -> 0 <= shr_m (shr_1 mrs).
Proof.
  destruct mrs as [m r s]; simpl.
  destruct m as [|[p|p|]|[p|p|]]; simpl; lia.
Qed.

Lemma iter_shr_1_nonneg (p : positive) (mrs : shr_record) :
  0 <= shr_m mrs -> 0 <= shr_m (iter_pos shr_1 p mrs).
Proof.
  revert mrs; induction p as [p IH|p IH|]; intros mrs H; simpl.
  - apply IH, IH, shr_1_nonneg, H.
  - apply IH, IH, H.
  - apply shr_1_nonneg, H.
Qed.

Lemma shr_fexp_nonneg (m e : Z) (l : location) :
  0 <= m -> 0 <= shr_m (fst (shr_fexp prec emax m e l)).
Proof.
  intros H. unfold shr_fexp, shr.
  assert (H0 : 0 <= shr_m (shr_record_of_loc m l))
    by (destruct l as [|[| |]]; simpl; exact H).
  destruct (fexp prec emax (Zdigits2 m + e) - e); simpl; auto.
  apply iter_shr_1_nonneg, H0.
Qed.

Lemma round_nearest_even_nonneg (m : Z) (l : location) :
  0 <= m -> 0 <= round_nearest_even m l.
Proof.
  intros H. destruct l as [|[| |]]; simpl; try lia.
  destruct (Z.even m); lia.
Qed.

Lemma binary_round_aux_signed (s : bool) (m e : Z) (l : location) :
  0 <= m -> signed s (binary_round_aux prec emax s m e l).
Proof.
  intros H. unfold binary_round_aux.
  pose proof (shr_fexp_nonneg m e l H) as H1.
  destruct (shr_fexp prec emax m e l) as [mrs' e']. simpl in H1.
  pose proof (round_nearest_even_nonneg _ (loc_of_shr_record mrs') H1) as H2.
  pose proof (shr_fexp_nonneg _ e' loc_Exact H2) as H3.
  destruct (shr_fexp prec emax _ e' loc_Exact) as [mrs'' e'']. simpl in H3.
  destruct (shr_m mrs'') as [|p|p]; simpl; [reflexivity| |lia].
  match goal with |- context [if ?c then _ else _] => destruct c end;
    simpl; reflexivity.
Qed.

Lemma binary_round_signed (s : bool) (m : positive) (e : Z) :
  signed s (binary_round prec emax s m e).
Proof.
  unfold binary_round.
  destruct (shl_align m e _) as [mz ez].
  apply binary_round_aux_signed. lia.
Qed.


Lemma f64_pos_signed (x : float64) :
  (f64_zero <? x)%f64 = true -> signed false x.
Proof.
  destruct x as [s|[|]| |[|] m e]; intros H; try discriminate; simpl; reflexivity.
Qed.


(* ================================================================== *)
(** * Subtracting the larger bound from the smaller *)
(* ================================================================== *)

(** The float operations are written with the core library's integer
    functions; this states them with the standard ones, which [lia] reads. *)
Ltac std_Z :=
  change IntDef.Z.max with Z.max in *;
  change IntDef.Z.min with Z.min in *;
  change IntDef.Z.sub with Z.sub in *;
  change IntDef.Z.add with Z.add in *;
  change IntDef.Z.mul with Z.mul in *;
  change IntDef.Z.opp with Z.opp in *.

Lemma digits2_pos_bounds (m : positive) :
  2 ^ (Zpos (digits2_pos m) - 1) <= Zpos m < 2 ^ Zpos (digits2_pos m).
Proof.
  induction m as [p IH|p IH|]; simpl digits2_pos.
  - rewrite Pos2Z.inj_succ.
    replace (Z.succ (Zpos (digits2_pos p)) - 1) with (Z.succ (Zpos (digits2_pos p) - 1)) by lia.
    rewrite !Z.pow_succ_r by lia. lia.
  - rewrite Pos2Z.inj_succ.
    replace (Z.succ (Zpos (digits2_pos p)) - 1) with (Z.succ (Zpos (digits2_pos p) - 1)) by lia.
    rewrite !Z.pow_succ_r by lia. lia.
  - simpl. lia.
Qed.

(** A valid finite float has at most 53 digits, and exactly 53 unless its
    exponent is the least one. *)
Lemma valid_finite (s : bool) (m : positive) (e : Z) :
  valid (S754_finite s m e) = true ->
  Zpos (digits2_pos m) <= 53 /\ -1074 <= e /\
  (Zpos (digits2_pos m) = 53 \/ e = -1074).
Proof.
  unfold valid, valid_binary, bounded, canonical_mantissa, fexp, emin, prec, emax.
  rewrite andb_true_iff, Z.eqb_eq, Z.leb_le.
  std_Z. lia.
Qed.

Lemma iter_xO (m d : positive) : Zpos (Pos.iter xO m d) = Zpos m * 2 ^ Zpos d.
Proof.
  induction d as [|d IH] using Pos.peano_ind.
  - simpl. lia.
  - rewrite Pos.iter_succ, Pos2Z.inj_succ, Z.pow_succ_r by lia.
    rewrite Pos2Z.inj_xO, IH. lia.
Qed.

Lemma shl_align_fst (m : positive) (e e' : Z) :
  e' <= e -> Zpos (fst (shl_align m e e')) = Zpos m * 2 ^ (e - e').
Proof.
  intros H. unfold shl_align. std_Z.
  destruct (e' - e) as [|d|d] eqn:E; cbn [fst].
  - replace (e - e') with 0 by lia. rewrite Z.pow_0_r. lia.
  - lia.
  - rewrite iter_xO. f_equal. f_equal. lia.
Qed.

(** A valid float of smaller exponent has the smaller aligned mantissa. *)
Lemma aligned_lt (m1 m2 : positive) (e1 e2 : Z) (s1 s2 : bool) :
  valid (S754_finite s1 m1 e1) = true ->
  valid (S754_finite s2 m2 e2) = true ->
  e1 < e2 ->
  Zpos m1 < Zpos m2 * 2 ^ (e2 - e1).
Proof.
  intros V1 V2 H.
  apply valid_finite in V1, V2.
  pose proof (digits2_pos_bounds m1) as B1.
  pose proof (digits2_pos_bounds m2) as B2.
  assert (D2 : Zpos (digits2_pos m2) = 53) by lia.
  rewrite D2 in B2. change (2 ^ (53 - 1)) with (2 ^ 52) in B2.
  assert (P1 : 2 ^ Zpos (digits2_pos m1) <= 2 ^ 53)
    by (apply Z.pow_le_mono_r; lia).
  assert (P2 : 2 ^ 1 <= 2 ^ (e2 - e1)) by (apply Z.pow_le_mono_r; lia).
  change (2 ^ 1) with 2 in P2. change (2 ^ 53) with (2 * 2 ^ 52) in P1.
  nia.
Qed.

Lemma nonpositive_le_zero (x : float64) :
  signed true x \/ x = S754_zero false -> (x <=? f64_zero)%f64 = true.
Proof.
  intros [H| ->]; [|reflexivity].
  destruct (signed_cases _ _ H) as [->|[->|(m & e & ->)]]; reflexivity.
Qed.

(** For finite bounds with [x <= y], the difference [x - y] is zero or less:
    a capacity whose maximum does not exceed its minimum has no positive
    burst. *)
Lemma f64_sub_le_zero (x y : float64) :
  valid x = true -> valid y = true ->
  is_finite x = true -> is_finite y = true ->
  (x <=? y)%f64 = true -> ((x - y) <=? f64_zero)%f64 = true.
Proof.
  intros Vx Vy Fx Fy Hle. apply nonpositive_le_zero.
  destruct x as [sx|sx| |sx mx ex], y as [sy|sy| |sy my ey]; try discriminate.
  - destruct sx, sy; simpl; auto.
  - destruct sy; [discriminate|]. left; reflexivity.
  - destruct sx; [|discriminate]. left; reflexivity.
  - unfold f64_sub, SFsub, binary_normalize.
    std_Z.
    assert (Hz : cond_Zopp sx (Zpos (fst (shl_align mx ex (Z.min ex ey)))) -
                 cond_Zopp sy (Zpos (fst (shl_align my ey (Z.min ex ey)))) <= 0).
    { rewrite !shl_align_fst by lia.
      unfold f64_le, SFleb, SFcompare in Hle.
      destruct sx, sy; cbn [cond_Zopp]; try discriminate.
      - (* both negative *)
        destruct (Z.compare_spec ex ey) as [E|E|E]; try discriminate.
        + subst ey. rewrite Z.min_id, Z.sub_diag, !Z.mul_1_r.
          rewrite compare_cont_Eq in Hle.
          destruct (Z.compare_spec (Zpos mx) (Zpos my)); simpl in Hle;
            try discriminate; lia.
        + rewrite Z.min_r, Z.sub_diag, Z.mul_1_r by lia.
          pose proof (aligned_lt my mx ey ex _ _ Vy Vx E). lia.
      - (* negative, positive *)
        assert (0 < 2 ^ (ex - Z.min ex ey)) by (apply Z.pow_pos_nonneg; lia).
        assert (0 < 2 ^ (ey - Z.min ex ey)) by (apply Z.pow_pos_nonneg; lia).
        nia.
      - (* both positive *)
        destruct (Z.compare_spec ex ey) as [E|E|E]; try discriminate.
        + subst ey. rewrite Z.min_id, Z.sub_diag, !Z.mul_1_r.
          rewrite compare_cont_Eq in Hle.
          destruct (Z.compare_spec (Zpos mx) (Zpos my)); simpl in Hle;
            try discriminate; lia.
        + rewrite Z.min_l, Z.sub_diag, Z.mul_1_r by lia.
          pose proof (aligned_lt mx my ex ey _ _ Vx Vy E). lia. }
    destruct (cond_Zopp sx _ - cond_Zopp sy _) as [|p|p]; [right; reflexivity|lia|].
    left. apply binary_round_signed.
Qed.

(* ================================================================== *)
(** * Consolidation at construction (claims C2 and C8) *)
(* ================================================================== *)

Lemma positive_not_rejected (ts : list tier) :
  Forall (fun t => positive_tier t = true) ts ->
  existsb rejected_tier ts = false.
Proof.
  intros H. apply not_true_iff_false. rewrite existsb_rejected_spec.
  intros (t & Hin & Hr). rewrite Forall_forall in H. specialize (H t Hin).
  unfold positive_tier in H. apply andb_true_iff in H. destruct H as [H1 H2].
  apply f64_lt_not_le in H1, H2. destruct Hr; congruence.
Qed.

Lemma positive_all_ordered (ts : list tier) :
  Forall (fun t => positive_tier t = true) ts ->
  Forall (fun t => ordered_tier t = true) ts.
Proof.
  apply Forall_impl. intros t. apply positive_tier_ordered.
Qed.

Lemma consolidate_positive (ts : list tier) :
  Forall (fun t => positive_tier t = true) ts ->
  Forall (fun t => positive_tier t = true) (consolidate ts).
Proof.
  rewrite !Forall_forall. intros H t Ht. apply H, consolidate_In, Ht.
Qed.

Lemma additional_buckets `{GoEnv} (rest : list BucketValue) :
  map option_of (map set_bucket rest) = map Opt.WithAdditionalBucket rest /\
  extra_buckets (map set_bucket rest) = rest.
Proof.
  split.
  - rewrite map_map. reflexivity.
  - unfold extra_buckets. induction rest as [|b rest IH]; simpl; congruence.
Qed.

(** C2. Consolidation at construction.  For every non-empty list of tiers
    [b :: rest] of positive flow and burst, both constructors freeze the
    template of the tiers obtained by sorting ascending by flow, ties broken
    by ascending burst ([s] is a sorted permutation of the tiers), keeping the
    first tier and then each tier exactly when its burst is strictly less than
    the burst of the tier kept last ([prune]); and the tiers
    (0.1,4), (0.2,3), (0.2,2), (0.3,2), (0.4,1) consolidate to
    [(0.1,4), (0.2,2), (0.4,1)]. *)
Theorem C2_consolidation (W : Type) (redis : Client W) (prefix : string)
  (backoff : option BackoffValue) (b : BucketValue) (rest : list BucketValue)
  (st : State W) :
  Forall (fun t => positive_tier t = true) (tiers_of (b :: rest)) ->
  let s := sort_Slice tier_less (tiers_of (b :: rest)) in
  Permutation s (tiers_of (b :: rest)) /\
  StronglySorted tier_le s /\
  (exists l, Cfg.NewLimiter (Cfg.mkConfig (Some redis) prefix backoff (b :: rest)) st
             = (Ok l, st) /\ Cfg.args l = template (prune s)) /\
  (exists l, Opt.New (Some redis) b (map Opt.WithAdditionalBucket rest) st
             = (Ok l, st) /\ Opt.args l = template (prune s)) /\
  consolidate (tiers_of example_buckets) = example_consolidated.
Proof.
  intros Hpos s.
  pose proof (positive_all_ordered _ Hpos) as Hord.
  split; [apply sort_Slice_perm|].
  split; [apply sort_tiers_sorted, Hord|].
  split; [|split; [|vm_compute; reflexivity]].
  - rewrite NewLimiter_eq. cbn [Cfg.Redis Cfg.Buckets Cfg.Prefix Cfg.Backoff].
    rewrite positive_not_rejected by exact Hpos.
    eexists; split; reflexivity.
  - destruct (additional_buckets (H := sample_env) rest) as [E1 E2].
    rewrite <- E1, (New_eq (H := sample_env)), E2. cbn zeta.
    rewrite positive_not_rejected by (apply consolidate_positive, Hpos).
    eexists; split; reflexivity.
Qed.

Lemma C2_consolidation_witness :
  Forall (fun t => positive_tier t = true) (tiers_of example_buckets) /\
  exists l,
    Cfg.NewLimiter (Cfg.mkConfig (Some eval_only) "rate:" None example_buckets)
      (mkState [] []) = (Ok l, mkState [] []) /\
    Cfg.args l = template example_consolidated.
Proof.
  assert (H : Forall (fun t => positive_tier t = true) (tiers_of example_buckets))
    by (repeat constructor).
  split; [exact H|].
  destruct (C2_consolidation _ eval_only "rate:" None
              (bucket (mkRate (ratio 1 10) (f64_of_Z 4)))
              (List.tl example_buckets) (mkState [] []) H)
    as (_ & _ & (l & Hl & Ha) & _).
  exists l. split; [exact Hl|]. rewrite Ha. vm_compute. reflexivity.
Defined.

Lemma scan_idempotent (b : float64) (ts : list tier) :
  scan b (scan b ts) = scan b ts.
Proof.
  revert b; induction ts as [|t ts IH]; intros b; simpl; [reflexivity|].
  destruct (snd t <? b)%f64 eqn:E; simpl.
  - rewrite E, IH. reflexivity.
  - apply IH.
Qed.

Lemma prune_idempotent (ts : list tier) : prune (prune ts) = prune ts.
Proof.
  destruct ts as [|t ts]; simpl; [reflexivity|].
  rewrite scan_idempotent. reflexivity.
Qed.

Lemma scan_StronglySorted (R : tier -> tier -> Prop) (b : float64)
  (ts : list tier) :
  StronglySorted R ts -> StronglySorted R (scan b ts).
Proof.
  intros H; revert b; induction H as [|t ts Hs IH Ht]; intros b; simpl;
    [constructor|].
  destruct (snd t <? b)%f64; [|apply IH].
  constructor; [apply IH|].
  rewrite Forall_forall in *. intros u Hu. apply Ht. eapply scan_In, Hu.
Qed.

Lemma prune_StronglySorted (R : tier -> tier -> Prop) (ts : list tier) :
  StronglySorted R ts -> StronglySorted R (prune ts).
Proof.
  intros H. destruct H as [|t ts Hs Ht]; simpl; constructor.
  - apply scan_StronglySorted, Hs.
  - rewrite Forall_forall in *. intros u Hu. apply Ht. eapply scan_In, Hu.
Qed.

(** C8. Consolidation is idempotent.  For every list of tiers without NaN,
    consolidating the consolidated list yields that same list, in the same
    order; and so does the constructors' own sort-and-prune when it is run on
    rates that are already consolidated. *)
Theorem C8_consolidation_idempotent (ts : list tier) :
  Forall (fun t => ordered_tier t = true) ts ->
  consolidate (consolidate ts) = consolidate ts /\
  (forall rates : list Cfg.rate,
     rates <> [] -> map tier_of_rate rates = consolidate ts ->
     Cfg.build_args (sort_Slice Cfg.less rates) = Ok (template (consolidate ts))) /\
  (forall rates : list Rate,
     rates <> [] -> map tier_of_Rate rates = consolidate ts ->
     Opt.build_args (sort_Slice Opt.less rates) = Ok (template (consolidate ts))).
Proof.
  intros Hord.
  assert (E : consolidate (consolidate ts) = consolidate ts).
  { unfold consolidate at 1. rewrite sort_Slice_ascending.
    - apply prune_idempotent.
    - apply prune_StronglySorted.
      apply (sort_Slice_sorted tier_less (fun t => ordered_tier t = true)
               tier_less_asym tier_less_negtrans ts Hord). }
  split; [exact E|]. split.
  - intros rates Hne Hr. rewrite Cfg_build_sorted, Hr, E by assumption. reflexivity.
  - intros rates Hne Hr. rewrite Opt_build_sorted, Hr, E by assumption. reflexivity.
Qed.

Lemma C8_consolidation_idempotent_witness :
  Forall (fun t => ordered_tier t = true) (tiers_of example_buckets) /\
  consolidate (consolidate (tiers_of example_buckets)) =
  consolidate (tiers_of example_buckets).
Proof.
  assert (H : Forall (fun t => ordered_tier t = true) (tiers_of example_buckets))
    by (repeat constructor).
  split; [exact H|].
  exact (proj1 (C8_consolidation_idempotent (tiers_of example_buckets) H)).
Defined.

(** The hypothesis cannot be dropped.  A NaN compares as neither less nor
    more than anything, so a NaN flow between two tiers keeps the sort from
    moving the later one forward; once pruning has removed it, sorting again
    does move it, and the result changes.  Such a flow arises from a capacity
    of window 0 and minimum 0, which is 0/0. *)
Example nan_flow_defeats_order :
  let ts := [(f64_two, f64_of_Z 5); (S754_nan, f64_of_Z 9); (f64_one, f64_of_Z 3)] in
  resolve (bucket (mkCapacity 0 f64_zero (f64_of_Z 9))) = (S754_nan, f64_of_Z 9) /\
  consolidate ts = [(f64_two, f64_of_Z 5); (f64_one, f64_of_Z 3)] /\
  consolidate (consolidate ts) = [(f64_one, f64_of_Z 3)].
Proof. vm_compute. repeat split. Qed.

(* ================================================================== *)
(** * Configuration errors (claim C4) *)
(* ================================================================== *)

Lemma rejected_bucket (buckets : list BucketValue) :
  existsb rejected_tier (tiers_of buckets) = true <->
  exists b, In b buckets /\ rejected_tier (resolve b) = true.
Proof.
  unfold tiers_of. rewrite existsb_exists. split.
  - intros (t & Hin & H). apply in_map_iff in Hin. destruct Hin as (b & <- & Hb).
    eauto.
  - intros (b & Hb & H). exists (resolve b). split; [apply in_map, Hb|exact H].
Qed.

Lemma apply_settings `{GoEnv} {W : Type} (settings : list Setting)
  (c : Cfg.Config W) :
  fold_left apply_setting settings c =
  Cfg.mkConfig (Cfg.Redis c)
    (fold_left (fun p s => match s with set_prefix q => q | _ => p end)
       settings (Cfg.Prefix c))
    (fold_left (fun o s => match s with
                           | set_backoff ch => Some (backoff_value ch)
                           | _ => o
                           end) settings (Cfg.Backoff c))
    (Cfg.Buckets c ++ extra_buckets settings).
Proof.
  revert c; induction settings as [|s ss IH]; intros c; simpl.
  - rewrite app_nil_r. destruct c; reflexivity.
  - rewrite IH. destruct s as [b|p|ch]; simpl; rewrite ?app_nil_r;
      try reflexivity.
    rewrite <- app_assoc. reflexivity.
Qed.

Lemma chosen_value_fold `{GoEnv} (settings : list Setting)
  (c : option BackoffChoice) :
  fold_left (fun o s => match s with
                        | set_backoff ch => Some (backoff_value ch)
                        | _ => o
                        end) settings (option_map backoff_value c) =
  option_map backoff_value
    (fold_left (fun c s => match s with set_backoff ch => Some ch | _ => c end)
       settings c).
Proof.
  revert c; induction settings as [|s ss IH]; intros c; simpl; [reflexivity|].
  destruct s as [b|p|ch]; try apply IH. apply (IH (Some ch)).
Qed.

Lemma config_of_eq `{GoEnv} {W : Type} (redis : option (Client W))
  (b : BucketValue) (settings : list Setting) :
  config_of redis b settings =
  Cfg.mkConfig redis (chosen_prefix settings)
    (option_map backoff_value (chosen_backoff settings))
    (b :: extra_buckets settings).
Proof.
  unfold config_of. rewrite apply_settings.
  cbn [Cfg.Redis Cfg.Prefix Cfg.Backoff Cfg.Buckets app].
  change (@None BackoffValue) with (option_map backoff_value None).
  rewrite chosen_value_fold. reflexivity.
Qed.

(** C4 (amended). Configuration errors.  [NewLimiter] returns an error
    exactly when the client is missing, the bucket list is empty, or some
    bucket resolves to [flow <= 0] or [burst <= 0]; [New], whose bucket list
    cannot be empty, returns one exactly when the client is missing or some
    bucket resolves so, provided no resolved value is NaN, and this although
    it checks only the tiers that consolidation kept.  Either constructor
    returns a limiter or an error, never both nor a panic, and leaves the
    client untouched: no call is made.  A capacity with finite bounds and
    [max <= min] resolves to [burst <= 0], so it is rejected; so is the
    capacity of window -1m, minimum 10 and maximum 20. *)
Theorem C4_configuration_errors `{GoEnv} (W : Type) (c : Cfg.Config W)
  (redis : option (Client W)) (b : BucketValue) (settings : list Setting)
  (st : State W) :
  (snd (Cfg.NewLimiter c st) = st /\
   ((exists e, fst (Cfg.NewLimiter c st) = Err e) <->
    (Cfg.Redis c = None \/ Cfg.Buckets c = [] \/
     exists b', In b' (Cfg.Buckets c) /\ rejected_tier (resolve b') = true)) /\
   ((exists l, fst (Cfg.NewLimiter c st) = Ok l) \/
    (exists e, fst (Cfg.NewLimiter c st) = Err e))) /\
  (snd (Opt.New redis b (map option_of settings) st) = st /\
   (Forall (fun t => ordered_tier t = true)
      (tiers_of (b :: extra_buckets settings)) ->
    ((exists e, fst (Opt.New redis b (map option_of settings) st) = Err e) <->
     (redis = None \/
      exists b', In b' (b :: extra_buckets settings) /\
                 rejected_tier (resolve b') = true))) /\
   ((exists l, fst (Opt.New redis b (map option_of settings) st) = Ok l) \/
    (exists e, fst (Opt.New redis b (map option_of settings) st) = Err e))) /\
  (forall cap : Capacity,
     valid (Min cap) = true -> valid (Max cap) = true ->
     is_finite (Min cap) = true -> is_finite (Max cap) = true ->
     (Max cap <=? Min cap)%f64 = true ->
     rejected_tier (resolve (bucket cap)) = true) /\
  rejected_tier (resolve (bucket negative_window)) = true.
Proof.
  split; [|split; [|split]].
  - rewrite NewLimiter_eq. cbn [fst snd]. split; [reflexivity|].
    destruct (Cfg.Redis c) as [r|].
    + destruct (Cfg.Buckets c) as [|b0 bs] eqn:Eb.
      * split; [|right; eauto]. split; eauto.
      * destruct (existsb rejected_tier (tiers_of (b0 :: bs))) eqn:Er.
        -- split; [|right; eauto]. split; [|eauto].
           intros _. right; right. apply rejected_bucket, Er.
        -- split; [|left; eauto]. split.
           ++ intros (e & He). discriminate.
           ++ intros [Hc|[Hc|Hc]]; try discriminate.
              apply rejected_bucket in Hc. congruence.
    + split; [|right; eauto]. split; eauto.
  - rewrite New_eq. cbn [fst snd]. split; [reflexivity|].
    destruct redis as [r|].
    + cbn zeta. split.
      * intros Hord. rewrite <- rejected_bucket, <- (rejected_consolidate _ Hord).
        destruct (existsb rejected_tier _); split; eauto.
        -- intros (e & He). discriminate.
        -- intros [Hc|Hc]; discriminate.
      * destruct (existsb rejected_tier _); eauto.
    + split; [|right; eauto]. intros _. split; eauto.
  - intros cap V1 V2 F1 F2 Hle. unfold rejected_tier. apply orb_true_iff. right.
    apply f64_sub_le_zero; assumption.
  - vm_compute. reflexivity.
Qed.

(** C4, as stated, fails: a capacity of window 0 with minimum 10 and maximum
    20 has a non-positive window, yet it resolves to the flow +Inf and the
    burst 10, which are not [<= 0], and [NewLimiter] returns a limiter. *)
Lemma C4_counterexample :
  (Window zero_window <= 0)%Z /\
  resolve (bucket zero_window) = (f64_inf, f64_of_Z 10) /\
  exists l,
    Cfg.NewLimiter (Cfg.mkConfig (Some eval_only) "" None [bucket zero_window])
      (start []) = (Ok l, start []) /\
    Cfg.args l = [any_float64 f64_inf; any_float64 (f64_of_Z 10)].
Proof.
  split; [vm_compute; discriminate|].
  split; [vm_compute; reflexivity|].
  eexists. split; vm_compute; reflexivity.
Qed.

(* ================================================================== *)
(** * The fallback of exec (claim C6) *)
(* ================================================================== *)

Lemma exec_run `{GoEnv} {W : Type} (c : Client W) (keys : list string)
  (args : list any) (st : State W) :
  exec c keys args st =
  match EvalSha c with
  | Some evalsha =>
      let '(r, w) := evalsha sha1 keys args (world st) in
      let st1 := mkState w (calls st ++ [call_EvalSha sha1 keys args]) in
      if unknown_reference (snd r) then do_Eval c script keys args st1
      else (r, st1)
  | None => do_Eval c script keys args st
  end.
Proof.
  unfold exec. destruct (EvalSha c) as [evalsha|]; [|reflexivity].
  unfold bind, do_EvalSha.
  destruct (evalsha sha1 keys args (world st)) as [[res err] w].
  destruct err as [e|]; simpl; [|reflexivity].
  destruct (Contains (Error e) "NOSCRIPT"); reflexivity.
Qed.

(** What [exec] adds to the calls: one or two calls, all with the keys and
    the arguments it was given. *)
Lemma exec_calls `{GoEnv} {W : Type} (c : Client W) (keys : list string)
  (args : list any) (st : State W) :
  exists new,
    calls (snd (exec c keys args st)) = calls st ++ new /\
    new <> [] /\ (List.length new <= 2)%nat /\
    Forall (fun k => call_keys k = keys /\ call_args k = args) new.
Proof.
  rewrite exec_run. destruct (EvalSha c) as [evalsha|].
  - destruct (evalsha sha1 keys args (world st)) as [r w].
    destruct (unknown_reference (snd r)).
    + unfold do_Eval. cbn [world calls].
      destruct (Eval c script keys args w) as [r' w']. cbn [snd calls].
      exists [call_EvalSha sha1 keys args; call_Eval script keys args].
      rewrite <- app_assoc. repeat split; try discriminate; simpl; auto.
    + exists [call_EvalSha sha1 keys args].
      repeat split; try discriminate; simpl; auto.
  - unfold do_Eval. destruct (Eval c script keys args (world st)) as [r' w'].
    exists [call_Eval script keys args].
    repeat split; try discriminate; simpl; auto.
Qed.

Lemma Cfg_Test_error `{GoEnv} {W : Type} (l : Cfg.Limiter W) (key : string)
  (cost : float64) (st st' : State W) (raw : any) (e : error) :
  exec (Cfg.redis l) [(Cfg.prefix l ++ key)%string]
    (any_float64 cost :: Cfg.args l) st = ((raw, Some e), st') ->
  Cfg.Test l key cost st = (Err e, st').
Proof. intros E. unfold Cfg.Test, bind. rewrite E. reflexivity. Qed.

Lemma Opt_Test_error `{GoEnv} {W : Type} (l : Opt.Limiter W) (key : string)
  (cost : float64) (st st' : State W) (raw : any) (e : error) :
  exec (Opt.redis l) [(Opt.prefix l ++ key)%string]
    (any_float64 cost :: Opt.args l) st = ((raw, Some e), st') ->
  Opt.Test l key cost st = (Err e, st').
Proof. intros E. unfold Opt.Test, bind. rewrite E. reflexivity. Qed.

(** C6. The fallback of [exec].  A client with [EvalSha] is first called by
    the script's SHA-1.  When that call returns no error, or an error whose
    message does not contain NOSCRIPT, its result and error are returned as
    they are and no other call is made.  When the error does contain
    NOSCRIPT, the full script is submitted once through [Eval], and whatever
    that call returns, error included, is the result: two calls in all.  A
    client without [EvalSha] is called once, through [Eval] with the full
    script.  An error that [exec] returns is what [Test] returns, after no
    further call. *)
Theorem C6_exec_fallback `{GoEnv} (W : Type) (c : Client W)
  (keys : list string) (args : list any) (st : State W) :
  (EvalSha c = None ->
   exec c keys args st =
   (fst (Eval c script keys args (world st)),
    mkState (snd (Eval c script keys args (world st)))
      (calls st ++ [call_Eval script keys args]))) /\
  (forall evalsha r w,
     EvalSha c = Some evalsha ->
     evalsha sha1 keys args (world st) = (r, w) ->
     (unknown_reference (snd r) = false ->
      exec c keys args st =
      (r, mkState w (calls st ++ [call_EvalSha sha1 keys args]))) /\
     (unknown_reference (snd r) = true ->
      exec c keys args st =
      (fst (Eval c script keys args w),
       mkState (snd (Eval c script keys args w))
         (calls st ++ [call_EvalSha sha1 keys args; call_Eval script keys args])))) /\
  (forall (l : Cfg.Limiter W) key cost raw e st',
     exec (Cfg.redis l) [(Cfg.prefix l ++ key)%string]
       (any_float64 cost :: Cfg.args l) st = ((raw, Some e), st') ->
     Cfg.Test l key cost st = (Err e, st')) /\
  (forall (l : Opt.Limiter W) key cost raw e st',
     exec (Opt.redis l) [(Opt.prefix l ++ key)%string]
       (any_float64 cost :: Opt.args l) st = ((raw, Some e), st') ->
     Opt.Test l key cost st = (Err e, st')).
Proof.
  split; [|split; [|split]].
  - intros E. rewrite exec_run, E. unfold do_Eval.
    destruct (Eval c script keys args (world st)); reflexivity.
  - intros evalsha r w E Er. rewrite exec_run, E, Er. split; intros ->.
    + reflexivity.
    + unfold do_Eval. cbn [world calls].
      destruct (Eval c script keys args w). rewrite <- app_assoc. reflexivity.
  - intros l key cost raw e st'. apply Cfg_Test_error.
  - intros l key cost raw e st'. apply Opt_Test_error.
Qed.

(** The fallback at work: the reference is unknown, the script is sent. *)
Example exec_falls_back :
  exec (H := sample_env) eval_and_sha ["rate:key"%string] [any_float64 f64_one]
    (start [(any_nil, Some (errors_New "NOSCRIPT No matching script."));
            admission]) =
  (admission,
   mkState []
     [call_EvalSha (sha1 (GoEnv := sample_env)) ["rate:key"%string]
        [any_float64 f64_one];
      call_Eval (script (GoEnv := sample_env)) ["rate:key"%string]
        [any_float64 f64_one]]).
Proof. reflexivity. Qed.

(** Any other error is passed on, and [Eval] is not reached. *)
Example exec_passes_error :
  exec (H := sample_env) eval_and_sha ["rate:key"%string] [any_float64 f64_one]
    (start [(any_nil, Some (errors_New "unknown error")); admission]) =
  ((any_nil, Some (errors_New "unknown error")),
   mkState [admission]
     [call_EvalSha (sha1 (GoEnv := sample_env)) ["rate:key"%string]
        [any_float64 f64_one]]).
Proof. reflexivity. Qed.

(* ================================================================== *)
(** * Decoding the evaluator's response (claims C3 and C5) *)
(* ================================================================== *)

Lemma wrap64_small (z : Z) : min_int64 <= z <= max_int64 -> wrap64 z = z.
Proof.
  unfold min_int64, max_int64, wrap64. intros Hz.
  rewrite Z.mod_small; lia.
Qed.

Lemma nth_error_template (ts : list tier) (k : nat) :
  nth_error (template ts) (2 * k) =
  option_map (fun t => any_float64 (fst t)) (nth_error ts k).
Proof.
  revert k; induction ts as [|t ts IH]; intros k.
  - simpl. destruct k; reflexivity.
  - destruct k as [|k]; [reflexivity|].
    replace (2 * S k)%nat with (S (S (2 * k))) by lia.
    simpl nth_error at 2. exact (IH k).
Qed.

(** The flow of tier number [index], counted from 1, sits at position
    [2*index - 1] of the argument vector. *)
Lemma flow_lookup (cost : float64) (ts : list tier) (index : Z) (t : tier) :
  1 <= index < 2 ^ 62 ->
  nth_error ts (Z.to_nat (index - 1)) = Some t ->
  index_slice (any_float64 cost :: template ts)
    (wrap64 (wrap64 (2 * index) - 1)) = Ok (any_float64 (fst t)).
Proof.
  intros Hi Ht.
  rewrite (wrap64_small (2 * index)) by (unfold min_int64, max_int64; lia).
  rewrite wrap64_small by (unfold min_int64, max_int64; lia).
  assert (Hlen : (Z.to_nat (index - 1) < List.length ts)%nat)
    by (apply nth_error_Some; congruence).
  unfold index_slice. cbn [List.length]. rewrite template_length.
  destruct (Z.ltb_spec (2 * index - 1) 0); [lia|].
  destruct (Z.leb_spec (Z.of_nat (S (2 * List.length ts))) (2 * index - 1)); [lia|].
  cbn [orb].
  replace (Z.to_nat (2 * index - 1)) with (S (2 * Z.to_nat (index - 1))) by lia.
  cbn [nth_error]. rewrite nth_error_template, Ht. reflexivity.
Qed.

Lemma Cfg_Test_decoded `{GoEnv} {W : Type} (l : Cfg.Limiter W) (key : string)
  (cost : float64) (st st' : State W) (raw : any) :
  exec (Cfg.redis l) [(Cfg.prefix l ++ key)%string]
    (any_float64 cost :: Cfg.args l) st = ((raw, None), st') ->
  Cfg.Test l key cost st =
  (let '(allow, value, index, err) := Cfg.validate raw in
   match err with
   | Some e => Err e
   | None =>
       if allow =? 1 then Ok (Cfg.mkResult true value 0)
       else
         a <~ index_slice (any_float64 cost :: Cfg.args l)
                (wrap64 (wrap64 (2 * index) - 1)) ;;
         flow <~ assert_float64 a ;;
         match Cfg.backoff l with
         | None => Panic
         | Some backoff =>
             Ok (Cfg.mkResult false f64_zero
                   (Duration_of_seconds
                      ((cost / flow) * call_Backoff backoff (value / cost))%f64))
         end
   end, st').
Proof.
  intros E. unfold Cfg.Test, bind. rewrite E.
  destruct (Cfg.validate raw) as [[[allow value] index] [e|]]; [reflexivity|].
  destruct (allow =? 1); reflexivity.
Qed.

Lemma Opt_Test_decoded `{GoEnv} {W : Type} (l : Opt.Limiter W) (key : string)
  (cost : float64) (st st' : State W) (raw : any) :
  exec (Opt.redis l) [(Opt.prefix l ++ key)%string]
    (any_float64 cost :: Opt.args l) st = ((raw, None), st') ->
  Opt.Test l key cost st =
  (let '(allow, value, index, err) := Opt.validate raw in
   match err with
   | Some e => Err e
   | None =>
       if allow =? 1 then Ok (Opt.mkResult true value 0)
       else
         a <~ index_slice (any_float64 cost :: Opt.args l)
                (wrap64 (wrap64 (2 * index) - 1)) ;;
         flow <~ assert_float64 a ;;
         match Opt.backoff l with
         | None => Panic
         | Some backoff =>
             Ok (Opt.mkResult false f64_zero
                   (Duration_of_seconds
                      ((cost / flow) * backoff (value / cost))%f64))
         end
   end, st').
Proof.
  intros E. unfold Opt.Test, bind. rewrite E.
  destruct (Opt.validate raw) as [[[allow value] index] [e|]]; [reflexivity|].
  destruct (allow =? 1); reflexivity.
Qed.

(** A response is well shaped exactly when it is a well-typed triple. *)
Lemma well_shaped_spec `{GoEnv} (raw : any) :
  well_shaped raw = true <->
  exists allow val index value,
    raw = any_slice [any_int64 allow; any_string val; any_int64 index] /\
    strconv_ParseFloat val = (value, None).
Proof.
  split.
  - destruct raw as [| | | |l|]; try discriminate.
    destruct l as [|r0 [|r1 [|r2 [|r3 l]]]]; try discriminate;
      destruct r0; try discriminate;
      destruct r1; try discriminate;
      destruct r2; try discriminate.
    simpl. destruct (strconv_ParseFloat s) as [value [e|]] eqn:E; [discriminate|].
    intros _. eauto 8.
  - intros (allow & val & index & value & -> & E). simpl. rewrite E. reflexivity.
Qed.

Lemma Cfg_validate_shaped `{GoEnv} (allow index : Z) (val : string)
  (value : float64) :
  strconv_ParseFloat val = (value, None) ->
  Cfg.validate (any_slice [any_int64 allow; any_string val; any_int64 index]) =
  (allow, value, index, None).
Proof. intros E. simpl. rewrite E. reflexivity. Qed.

Lemma Opt_validate_shaped `{GoEnv} (allow index : Z) (val : string)
  (value : float64) :
  strconv_ParseFloat val = (value, None) ->
  Opt.validate (any_slice [any_int64 allow; any_string val; any_int64 index]) =
  (allow, value, index, None).
Proof. intros E. simpl. rewrite E. reflexivity. Qed.

Lemma Cfg_validate_ill `{GoEnv} (raw : any) :
  well_shaped raw = false ->
  snd (Cfg.validate raw) = Some (errors_New "invalid type returned from eval").
Proof.
  destruct raw as [| | | |l|]; try reflexivity.
  destruct l as [|r0 [|r1 [|r2 [|r3 l]]]]; try reflexivity;
    destruct r0; try reflexivity;
    destruct r1; try reflexivity;
    simpl; destruct (strconv_ParseFloat s) as [value [e|]]; try reflexivity;
    destruct r2; try reflexivity; discriminate.
Qed.

Lemma Opt_validate_ill `{GoEnv} (raw : any) :
  well_shaped raw = false ->
  snd (Opt.validate raw) =
  Some (errors_New "limiter: invalid type returned from eval").
Proof.
  destruct raw as [| | | |l|]; try reflexivity.
  destruct l as [|r0 [|r1 [|r2 [|r3 l]]]]; try reflexivity;
    destruct r0; try reflexivity;
    destruct r1; try reflexivity;
    simpl; destruct (strconv_ParseFloat s) as [value [e|]]; try reflexivity;
    destruct r2; try reflexivity; discriminate.
Qed.

Lemma Cfg_Test_state `{GoEnv} {W : Type} (l : Cfg.Limiter W) (key : string)
  (cost : float64) (st : State W) :
  snd (Cfg.Test l key cost st) =
  snd (exec (Cfg.redis l) [(Cfg.prefix l ++ key)%string]
         (any_float64 cost :: Cfg.args l) st).
Proof.
  destruct (exec (Cfg.redis l) [(Cfg.prefix l ++ key)%string]
              (any_float64 cost :: Cfg.args l) st) as [[raw [e|]] st'] eqn:E.
  - rewrite (Cfg_Test_error _ _ _ _ _ _ _ E). reflexivity.
  - rewrite (Cfg_Test_decoded _ _ _ _ _ _ E). reflexivity.
Qed.

Lemma Opt_Test_state `{GoEnv} {W : Type} (l : Opt.Limiter W) (key : string)
  (cost : float64) (st : State W) :
  snd (Opt.Test l key cost st) =
  snd (exec (Opt.redis l) [(Opt.prefix l ++ key)%string]
         (any_float64 cost :: Opt.args l) st).
Proof.
  destruct (exec (Opt.redis l) [(Opt.prefix l ++ key)%string]
              (any_float64 cost :: Opt.args l) st) as [[raw [e|]] st'] eqn:E.
  - rewrite (Opt_Test_error _ _ _ _ _ _ _ E). reflexivity.
  - rewrite (Opt_Test_decoded _ _ _ _ _ _ E). reflexivity.
Qed.

(** C3. The protocol of [Test].  For a limiter whose frozen template is that
    of the tiers (flow_1,burst_1),...,(flow_n,burst_n), [Test key cost] calls
    the client, once or through the fallback twice, each time with the single
    key [prefix ++ key] and the arguments
    [cost, flow_1, burst_1, ..., flow_n, burst_n], and makes no other call.
    On a response with [allow = 1] it returns the result
    [Allow: true, Free: value].  On any other well-typed response, with value
    [value] and the 1-based index [i] of tier [t], it returns
    [Allow: false] with [Wait] the duration of
    [(cost / flow_i) * backoff(value / cost)] seconds, the flow being read at
    position [2*i - 1] of the argument vector.  This holds for both
    facades. *)
Theorem C3_test_protocol `{GoEnv} (W : Type) (lc : Cfg.Limiter W)
  (lo : Opt.Limiter W) (tiers : list tier) (key : string) (cost : float64)
  (st : State W) :
  Cfg.args lc = template tiers ->
  Opt.args lo = template tiers ->
  (let keys := [(Cfg.prefix lc ++ key)%string] in
   let args := any_float64 cost :: template tiers in
   snd (Cfg.Test lc key cost st) = snd (exec (Cfg.redis lc) keys args st) /\
   (exists new,
      calls (snd (Cfg.Test lc key cost st)) = calls st ++ new /\
      new <> [] /\ (List.length new <= 2)%nat /\
      Forall (fun k => call_keys k = keys /\ call_args k = args) new) /\
   (forall st' val index value,
      exec (Cfg.redis lc) keys args st =
        ((any_slice [any_int64 1; any_string val; any_int64 index], None), st') ->
      strconv_ParseFloat val = (value, None) ->
      Cfg.Test lc key cost st = (Ok (Cfg.mkResult true value 0), st')) /\
   (forall st' allow val index value t backoff,
      exec (Cfg.redis lc) keys args st =
        ((any_slice [any_int64 allow; any_string val; any_int64 index], None), st') ->
      strconv_ParseFloat val = (value, None) ->
      allow <> 1 -> 1 <= index < 2 ^ 62 ->
      nth_error tiers (Z.to_nat (index - 1)) = Some t ->
      Cfg.backoff lc = Some backoff ->
      Cfg.Test lc key cost st =
      (Ok (Cfg.mkResult false f64_zero
             (Duration_of_seconds
                ((cost / fst t) * call_Backoff backoff (value / cost))%f64)),
       st'))) /\
  (let keys := [(Opt.prefix lo ++ key)%string] in
   let args := any_float64 cost :: template tiers in
   snd (Opt.Test lo key cost st) = snd (exec (Opt.redis lo) keys args st) /\
   (exists new,
      calls (snd (Opt.Test lo key cost st)) = calls st ++ new /\
      new <> [] /\ (List.length new <= 2)%nat /\
      Forall (fun k => call_keys k = keys /\ call_args k = args) new) /\
   (forall st' val index value,
      exec (Opt.redis lo) keys args st =
        ((any_slice [any_int64 1; any_string val; any_int64 index], None), st') ->
      strconv_ParseFloat val = (value, None) ->
      Opt.Test lo key cost st = (Ok (Opt.mkResult true value 0), st')) /\
   (forall st' allow val index value t backoff,
      exec (Opt.redis lo) keys args st =
        ((any_slice [any_int64 allow; any_string val; any_int64 index], None), st') ->
      strconv_ParseFloat val = (value, None) ->
      allow <> 1 -> 1 <= index < 2 ^ 62 ->
      nth_error tiers (Z.to_nat (index - 1)) = Some t ->
      Opt.backoff lo = Some backoff ->
      Opt.Test lo key cost st =
      (Ok (Opt.mkResult false f64_zero
             (Duration_of_seconds
                ((cost / fst t) * backoff (value / cost))%f64)),
       st'))).
Proof.
  intros Hc Ho. split.
  - cbn zeta. rewrite <- Hc. split; [apply Cfg_Test_state|].
    split; [rewrite Cfg_Test_state; apply exec_calls|]. split.
    + intros st' val index value E Ep.
      rewrite (Cfg_Test_decoded _ _ _ _ _ _ E), (Cfg_validate_shaped _ _ _ _ Ep).
      reflexivity.
    + intros st' allow val index value t backoff E Ep Ha Hi Ht Hb.
      rewrite (Cfg_Test_decoded _ _ _ _ _ _ E), (Cfg_validate_shaped _ _ _ _ Ep).
      apply Z.eqb_neq in Ha. rewrite Ha, Hc, (flow_lookup _ _ _ _ Hi Ht), Hb.
      reflexivity.
  - cbn zeta. rewrite <- Ho. split; [apply Opt_Test_state|].
    split; [rewrite Opt_Test_state; apply exec_calls|]. split.
    + intros st' val index value E Ep.
      rewrite (Opt_Test_decoded _ _ _ _ _ _ E), (Opt_validate_shaped _ _ _ _ Ep).
      reflexivity.
    + intros st' allow val index value t backoff E Ep Ha Hi Ht Hb.
      rewrite (Opt_Test_decoded _ _ _ _ _ _ E), (Opt_validate_shaped _ _ _ _ Ep).
      apply Z.eqb_neq in Ha. rewrite Ha, Ho, (flow_lookup _ _ _ _ Hi Ht), Hb.
      reflexivity.
Qed.

(** On the example tiers: a denial by tier 2 (flow 0.2) with excess 3 and
    cost 1 under the default backoff waits (1/0.2) * (2*3) = 30 seconds. *)
Lemma C3_test_protocol_witness :
  Cfg.args example_Cfg_limiter = template example_consolidated /\
  Opt.args example_Opt_limiter = template example_consolidated /\
  Cfg.Test (H := sample_env) example_Cfg_limiter "key" f64_one (start [denial]) =
  (Ok (Cfg.mkResult false f64_zero (30 * Second)),
   mkState []
     [call_Eval (script (GoEnv := sample_env)) ["rate:key"%string]
        (any_float64 f64_one :: template example_consolidated)]).
Proof.
  split; [reflexivity|]. split; [reflexivity|].
  destruct (C3_test_protocol (H := sample_env) _ example_Cfg_limiter
              example_Opt_limiter example_consolidated "key" f64_one
              (start [denial]) eq_refl eq_refl) as [(_ & _ & _ & Hdeny) _].
  rewrite (Hdeny (mkState []
                    [call_Eval (script (GoEnv := sample_env)) ["rate:key"%string]
                       (any_float64 f64_one :: template example_consolidated)])
             0 "3"%string 2 (f64_of_Z 3) (ratio 2 10, f64_of_Z 2)
             (backoff_of (mkLinear f64_two)));
    try reflexivity; try lia.
Defined.

Lemma index_slice_not_Err {A : Type} (l : list A) (i : Z) (e : error) :
  index_slice l i <> Err e.
Proof.
  unfold index_slice. destruct ((i <? 0) || _); [discriminate|].
  destruct (nth_error l (Z.to_nat i)); discriminate.
Qed.

(** C5 (amended). Protocol errors of [Test].  When the client answers without
    error, [Test] returns the decoding error, and so no decision, exactly
    when the response is not an array of three elements of which the first
    is an [int64], the second a string that parses as a float and the third
    an [int64]; the state is then what [exec] left.  A response of that shape
    is never answered with an error, whatever the values of [allow] and
    [index] are.  This holds for both facades. *)
Theorem C5_protocol_errors `{GoEnv} (W : Type) (lc : Cfg.Limiter W)
  (lo : Opt.Limiter W) (key : string) (cost : float64) (st st' : State W)
  (raw : any) :
  (exec (Cfg.redis lc) [(Cfg.prefix lc ++ key)%string]
     (any_float64 cost :: Cfg.args lc) st = ((raw, None), st') ->
   (well_shaped raw = false ->
    Cfg.Test lc key cost st =
    (Err (errors_New "invalid type returned from eval"), st')) /\
   (well_shaped raw = true ->
    forall e, fst (Cfg.Test lc key cost st) <> Err e)) /\
  (exec (Opt.redis lo) [(Opt.prefix lo ++ key)%string]
     (any_float64 cost :: Opt.args lo) st = ((raw, None), st') ->
   (well_shaped raw = false ->
    Opt.Test lo key cost st =
    (Err (errors_New "limiter: invalid type returned from eval"), st')) /\
   (well_shaped raw = true ->
    forall e, fst (Opt.Test lo key cost st) <> Err e)).
Proof.
  split; intros E; split.
  - intros Hs. rewrite (Cfg_Test_decoded _ _ _ _ _ _ E).
    pose proof (Cfg_validate_ill raw Hs) as Hv.
    destruct (Cfg.validate raw) as [[[allow value] index] err].
    simpl in Hv. subst err. reflexivity.
  - intros Hs e. apply well_shaped_spec in Hs.
    destruct Hs as (allow & val & index & value & -> & Ep).
    rewrite (Cfg_Test_decoded _ _ _ _ _ _ E), (Cfg_validate_shaped _ _ _ _ Ep).
    cbn [fst]. destruct (allow =? 1); [discriminate|].
    destruct (index_slice _ _) as [a| |] eqn:Ei; cbn [obind]; try discriminate.
    + destruct a; cbn [assert_float64 obind]; try discriminate.
      destruct (Cfg.backoff lc); discriminate.
    + exfalso. eapply index_slice_not_Err, Ei.
  - intros Hs. rewrite (Opt_Test_decoded _ _ _ _ _ _ E).
    pose proof (Opt_validate_ill raw Hs) as Hv.
    destruct (Opt.validate raw) as [[[allow value] index] err].
    simpl in Hv. subst err. reflexivity.
  - intros Hs e. apply well_shaped_spec in Hs.
    destruct Hs as (allow & val & index & value & -> & Ep).
    rewrite (Opt_Test_decoded _ _ _ _ _ _ E), (Opt_validate_shaped _ _ _ _ Ep).
    cbn [fst]. destruct (allow =? 1); [discriminate|].
    destruct (index_slice _ _) as [a| |] eqn:Ei; cbn [obind]; try discriminate.
    + destruct a; cbn [assert_float64 obind]; try discriminate.
      destruct (Opt.backoff lo); discriminate.
    + exfalso. eapply index_slice_not_Err, Ei.
Qed.

(** C5, as stated, fails.  Over the three example tiers, the response
    (2, "3", 2) has an [allow] that is neither 0 nor 1, and is decoded as a
    denial by tier 2; the response (0, "3", 7) names no tier, and [Test]
    panics on it instead of returning an error. *)
Lemma C5_counterexample :
  let odd_allow := any_slice [any_int64 2; any_string "3"; any_int64 2] in
  let odd_index := any_slice [any_int64 0; any_string "3"; any_int64 7] in
  expected_shape (H := sample_env) 3 odd_allow = false /\
  fst (Cfg.Test (H := sample_env) example_Cfg_limiter "key" f64_one
         (start [(odd_allow, None)])) =
  Ok (Cfg.mkResult false f64_zero (30 * Second)) /\
  expected_shape (H := sample_env) 3 odd_index = false /\
  fst (Cfg.Test (H := sample_env) example_Cfg_limiter "key" f64_one
         (start [(odd_index, None)])) = Panic.
Proof. vm_compute. repeat split. Qed.

(* ================================================================== *)
(** * The two constructors agree (claim C10) *)
(* ================================================================== *)

Lemma backoff_func_value `{GoEnv} (ch : BackoffChoice) (value : float64) :
  backoff_func ch value = call_Backoff (backoff_value ch) value.
Proof. destruct ch; reflexivity. Qed.

(** Limiters of the two facades that hold the same template, client, prefix
    and backoff answer alike. *)
Lemma Test_same `{GoEnv} {W : Type} (lo : Opt.Limiter W) (lc : Cfg.Limiter W)
  (key : string) (cost : float64) (st : State W) :
  Opt.args lo = Cfg.args lc -> Opt.redis lo = Cfg.redis lc ->
  Opt.prefix lo = Cfg.prefix lc ->
  same_backoff (Opt.backoff lo) (Cfg.backoff lc) ->
  snd (Opt.Test lo key cost st) = snd (Cfg.Test lc key cost st) /\
  same_outcome (fst (Opt.Test lo key cost st)) (fst (Cfg.Test lc key cost st)).
Proof.
  intros Ha Hr Hp Hb.
  destruct (exec (Cfg.redis lc) [(Cfg.prefix lc ++ key)%string]
              (any_float64 cost :: Cfg.args lc) st) as [[raw [e|]] st'] eqn:E.
  - rewrite (Cfg_Test_error _ _ _ _ _ _ _ E).
    rewrite <- Ha, <- Hr, <- Hp in E. rewrite (Opt_Test_error _ _ _ _ _ _ _ E).
    split; [reflexivity|]. left; reflexivity.
  - rewrite (Cfg_Test_decoded _ _ _ _ _ _ E).
    pose proof E as E'. rewrite <- Ha, <- Hr, <- Hp in E'.
    rewrite (Opt_Test_decoded _ _ _ _ _ _ E').
    split; [destruct (Opt.validate raw) as [[[? ?] ?] ?],
                     (Cfg.validate raw) as [[[? ?] ?] ?]; reflexivity|].
    destruct (well_shaped raw) eqn:Hs.
    + apply well_shaped_spec in Hs.
      destruct Hs as (allow & val & index & value & -> & Ep).
      rewrite (Cfg_validate_shaped _ _ _ _ Ep), (Opt_validate_shaped _ _ _ _ Ep).
      cbn [fst]. destruct (allow =? 1); [repeat split|].
      rewrite Ha.
      destruct (index_slice _ _) as [a|e0|]; cbn [obind same_outcome];
        [|left; reflexivity|exact I].
      destruct a; cbn [assert_float64 obind same_outcome]; try exact I.
      unfold same_backoff in Hb.
      destruct (Opt.backoff lo) as [fo|], (Cfg.backoff lc) as [bc|];
        try contradiction; cbn [same_outcome]; try exact I.
      rewrite Hb. repeat split.
    + pose proof (Cfg_validate_ill raw Hs) as Hc.
      pose proof (Opt_validate_ill raw Hs) as Ho.
      destruct (Opt.validate raw) as [[[? ?] ?] eo],
               (Cfg.validate raw) as [[[? ?] ?] ec].
      simpl in Hc, Ho. subst eo ec. cbn [fst same_outcome].
      right. split; reflexivity.
Qed.

(** C10 (amended). The two constructors agree.  For every client, first
    bucket and list of settings (further buckets, prefixes, backoffs, a custom
    backoff being a function) none of whose resolved values is NaN, [New] on
    the options and [NewLimiter] on the corresponding struct either both
    return an error or both return limiters with the same argument template,
    prefix, client and backoff function; and on every key, cost and state the
    two [Test]s leave the same state and return the same result, the same
    panic, or the same error, except that the decoding error reads
    "limiter: invalid type returned from eval" in one and
    "invalid type returned from eval" in the other. *)
Theorem C10_constructors_agree `{GoEnv} (W : Type) (redis : option (Client W))
  (b : BucketValue) (settings : list Setting) (st : State W) :
  Forall (fun t => ordered_tier t = true)
    (tiers_of (b :: extra_buckets settings)) ->
  let o := Opt.New redis b (map option_of settings) st in
  let c := Cfg.NewLimiter (config_of redis b settings) st in
  (exists e e', fst o = Err e /\ fst c = Err e') \/
  (exists lo lc,
     fst o = Ok lo /\ fst c = Ok lc /\
     Opt.args lo = Cfg.args lc /\ Opt.prefix lo = Cfg.prefix lc /\
     Opt.redis lo = Cfg.redis lc /\
     same_backoff (Opt.backoff lo) (Cfg.backoff lc) /\
     forall key cost st1,
       snd (Opt.Test lo key cost st1) = snd (Cfg.Test lc key cost st1) /\
       same_outcome (fst (Opt.Test lo key cost st1))
         (fst (Cfg.Test lc key cost st1))).
Proof.
  intros Hord o c. subst o c.
  rewrite New_eq, NewLimiter_eq, config_of_eq.
  cbn [fst Cfg.Redis Cfg.Buckets Cfg.Prefix Cfg.Backoff].
  destruct redis as [r|]; [|left; eauto].
  cbn zeta. rewrite (rejected_consolidate _ Hord).
  destruct (existsb rejected_tier _); [left; eauto|].
  right. do 2 eexists. split; [reflexivity|]. split; [reflexivity|].
  assert (Hb : same_backoff (Some (backoff_func (effective_backoff settings)))
                 (match option_map backoff_value (chosen_backoff settings) with
                  | Some bv => Some bv
                  | None => Some (backoff_of (mkLinear f64_two))
                  end)).
  { unfold effective_backoff. destruct (chosen_backoff settings) as [ch|]; simpl.
    - intros value. apply backoff_func_value.
    - reflexivity. }
  repeat (split; [reflexivity || exact Hb|]).
  intros key cost st1. apply Test_same; try reflexivity. exact Hb.
Qed.

Lemma C10_constructors_agree_witness :
  Forall (fun t => ordered_tier t = true)
    (tiers_of (bucket (mkRate (ratio 1 10) (f64_of_Z 4))
                 :: extra_buckets [set_prefix "rate:";
                                   set_bucket (bucket (mkRate (ratio 2 10) (f64_of_Z 2)))])) /\
  exists lo lc,
    fst (Opt.New (Some eval_only) (bucket (mkRate (ratio 1 10) (f64_of_Z 4)))
           (map (option_of (H := sample_env))
              [set_prefix "rate:";
               set_bucket (bucket (mkRate (ratio 2 10) (f64_of_Z 2)))])
           (start [])) = Ok lo /\
    fst (Cfg.NewLimiter
           (config_of (H := sample_env) (Some eval_only)
              (bucket (mkRate (ratio 1 10) (f64_of_Z 4)))
              [set_prefix "rate:";
               set_bucket (bucket (mkRate (ratio 2 10) (f64_of_Z 2)))])
           (start [])) = Ok lc /\
    Opt.args lo = Cfg.args lc.
Proof.
  assert (H : Forall (fun t => ordered_tier t = true)
                (tiers_of (bucket (mkRate (ratio 1 10) (f64_of_Z 4))
                 :: extra_buckets [set_prefix "rate:";
                                   set_bucket (bucket (mkRate (ratio 2 10) (f64_of_Z 2)))])))
    by (repeat constructor).
  split; [exact H|].
  destruct (C10_constructors_agree (H := sample_env) _ (Some eval_only)
              (bucket (mkRate (ratio 1 10) (f64_of_Z 4)))
              [set_prefix "rate:";
               set_bucket (bucket (mkRate (ratio 2 10) (f64_of_Z 2)))]
              (start []) H)
    as [(e & e' & He & _)|(lo & lc & Ho & Hc & Ha & _)].
  - exfalso. vm_compute in He. discriminate He.
  - exists lo, lc. auto.
Defined.

(** C10, as stated, fails twice.  The two [Test]s do not return identical
    errors: on a response that is not an array the messages differ.  And with
    a NaN among the resolved values the constructors part: for the buckets
    (1, NaN) and (2, -1), [New] drops the second tier before it checks and
    returns a limiter, where [NewLimiter] returns an error. *)
Lemma C10_counterexample :
  (fst (Opt.Test (H := sample_env) example_Opt_limiter "key" f64_one
          (start [(any_nil, None)])) =
     Err (errors_New "limiter: invalid type returned from eval") /\
   fst (Cfg.Test (H := sample_env) example_Cfg_limiter "key" f64_one
          (start [(any_nil, None)])) =
     Err (errors_New "invalid type returned from eval") /\
   Opt.args example_Opt_limiter = Cfg.args example_Cfg_limiter /\
   Opt.prefix example_Opt_limiter = Cfg.prefix example_Cfg_limiter /\
   same_backoff (Opt.backoff example_Opt_limiter)
     (Cfg.backoff example_Cfg_limiter)) /\
  ((exists lo,
      fst (Opt.New (Some eval_only) nan_burst
             (map (option_of (H := sample_env)) [set_bucket negative_burst])
             (start [])) = Ok lo) /\
   fst (Cfg.NewLimiter
          (config_of (H := sample_env) (Some eval_only) nan_burst
             [set_bucket negative_burst]) (start [])) =
   Err (errors_New "all rate parameters must be positive")).
Proof.
  split; [|split].
  - repeat split.
  - eexists. vm_compute. reflexivity.
  - vm_compute. reflexivity.
Qed.

(* ================================================================== *)
(** * Buckets and backoffs (claims C9 and C7) *)
(* ================================================================== *)

Lemma f64_add_zero_r (x : float64) :
  signed false x -> (x + f64_zero)%f64 = x.
Proof.
  intros H. destruct (signed_cases _ _ H) as [->|[->|(m & e & ->)]]; reflexivity.
Qed.

Lemma f64_of_Z_nonneg (n : Z) : 0 <= n -> signed false (f64_of_Z n).
Proof.
  intros H. unfold f64_of_Z, binary_normalize.
  destruct n as [|p|p]; [reflexivity|apply binary_round_signed|lia].
Qed.

(** A whole number of seconds is that number, as a float. *)
Lemma Seconds_whole (n : Z) : 0 <= n -> Seconds (n * Second) = f64_of_Z n.
Proof.
  intros H. unfold Seconds.
  rewrite Z.quot_mul, Z.rem_mul by discriminate.
  change (f64_of_Z 0 / f64_of_Z 1000000000)%f64 with f64_zero.
  apply f64_add_zero_r, f64_of_Z_nonneg, H.
Qed.

(** C9. Resolving a bucket.  A [Rate] resolves to its [Flow] and [Burst]
    unchanged.  A [Capacity] resolves to the flow [Min / Window.Seconds()]
    and the burst [Max - Min], where the seconds of the window are its whole
    seconds plus its remaining nanoseconds over 1e9, which for a window of
    [n] whole seconds is [n]; the capacity of window 1m, minimum 10 and
    maximum 20 resolves to the flow 10/60 and the burst 10. *)
Theorem C9_bucket_resolution (r : Rate) (c : Capacity) :
  resolve (bucket r) = (Flow r, Burst r) /\
  resolve (bucket c) =
    ((Min c / Seconds (Window c))%f64, (Max c - Min c)%f64) /\
  Seconds (Window c) =
    (f64_of_Z (Z.quot (Window c) Second) +
     f64_of_Z (Z.rem (Window c) Second) / f64_of_Z 1000000000)%f64 /\
  (forall n, 0 <= n -> Seconds (n * Second) = f64_of_Z n) /\
  resolve (bucket (mkCapacity Minute (f64_of_Z 10) (f64_of_Z 20))) =
    (ratio 10 60, f64_of_Z 10).
Proof.
  split; [reflexivity|]. split; [reflexivity|]. split; [reflexivity|].
  split; [exact Seconds_whole|]. vm_compute. reflexivity.
Qed.

(** C7. The built-in backoffs.  For every factor [k] and ratio [r]:
    [Constant(k)] gives [k], [Linear(k)] gives [k * r], [Power(k)] gives
    [r ^ k] and [Exponential(k)] gives [k ^ r], the powers being Go's
    [math.Pow]; the options [WithConstantBackoff] to
    [WithExponentialBackoff] install the same four functions.  In
    particular Constant(2)(3) = 2, Linear(2)(3) = 6, Power(2)(3) = 9 and
    Exponential(2)(3) = 8.  A limiter built with no backoff uses Linear(2):
    [NewLimiter] stores [Linear(2)] and [New] stores the function
    [2 * deny]. *)
Theorem C7_backoff_laws `{GoEnv} (k r : float64) :
  (Backoff_Backoff (mkConstant k) r = k /\
   Backoff_Backoff (mkLinear k) r = (k * r)%f64 /\
   Backoff_Backoff (mkPower k) r = Pow r k /\
   Backoff_Backoff (mkExponential k) r = Pow k r) /\
  (forall c,
     (exists f, Opt.config_backoff (Opt.WithConstantBackoff k c) = Some f /\
                f r = k) /\
     (exists f, Opt.config_backoff (Opt.WithLinearBackoff k c) = Some f /\
                f r = (k * r)%f64) /\
     (exists f, Opt.config_backoff (Opt.WithPowerBackoff k c) = Some f /\
                f r = Pow r k) /\
     (exists f, Opt.config_backoff (Opt.WithExponentialBackoff k c) = Some f /\
                f r = Pow k r)) /\
  (Backoff_Backoff (mkConstant (f64_of_Z 2)) (f64_of_Z 3) = f64_of_Z 2 /\
   Backoff_Backoff (mkLinear (f64_of_Z 2)) (f64_of_Z 3) = f64_of_Z 6 /\
   Backoff_Backoff (mkPower (f64_of_Z 2)) (f64_of_Z 3) = f64_of_Z 9 /\
   Backoff_Backoff (mkExponential (f64_of_Z 2)) (f64_of_Z 3) = f64_of_Z 8) /\
  (forall (W : Type) (c : Cfg.Config W) (st : State W) (l : Cfg.Limiter W),
     Cfg.Backoff c = None -> fst (Cfg.NewLimiter c st) = Ok l ->
     Cfg.backoff l = Some (backoff_of (mkLinear (f64_of_Z 2)))) /\
  (forall (W : Type) (redis : option (Client W)) (b : BucketValue)
     (settings : list Setting) (st : State W) (l : Opt.Limiter W),
     chosen_backoff settings = None ->
     fst (Opt.New redis b (map option_of settings) st) = Ok l ->
     exists f, Opt.backoff l = Some f /\
               forall deny, f deny = (f64_of_Z 2 * deny)%f64).
Proof.
  split; [repeat split|]. split; [intros c; repeat split; eexists; split; reflexivity|].
  split; [repeat split; vm_compute; reflexivity|]. split.
  - intros W c st l Hb Hl. rewrite NewLimiter_eq, Hb in Hl. cbn [fst] in Hl.
    destruct (Cfg.Redis c); [|discriminate].
    destruct (Cfg.Buckets c); [discriminate|].
    destruct (existsb rejected_tier _); [discriminate|].
    injection Hl as <-. reflexivity.
  - intros W redis b settings st l Hb Hl. rewrite New_eq in Hl. cbn [fst] in Hl.
    destruct redis; [|discriminate]. cbn zeta in Hl.
    destruct (existsb rejected_tier _); [discriminate|].
    injection Hl as <-. cbn [Opt.backoff]. eexists. split; [reflexivity|].
    unfold effective_backoff. rewrite Hb. reflexivity.
Qed.

(* ================================================================== *)
(** * The atomic evaluator (claim C1) *)
(* ================================================================== *)













Lemma is_finite_notNaN (x : float64) :
  is_finite x = true -> isNaN x = false /\ isInf x = false.
Proof. destruct x; simpl; intros H; try discriminate; auto. Qed.




(** The start of the specification's burst law for the tier (0.5, 9) and
    cost 1, one test per second: 8 is left after the first test, 7.5 after
    the second. *)
Example burst_law_two_tests :
  let tiers := [(f64_half, f64_of_Z 9)] in
  let first := evaluate f64_one f64_one tiers [] in
  let second := evaluate f64_two f64_one tiers (snd first) in
  fst first = mkResponse 1 (f64_of_Z 8) 0 /\
  fst second = mkResponse 1 (ratio 15 2) 0 /\
  snd second = [Some (ratio 3 2, f64_two)].
Proof. vm_compute. repeat split. Qed.

(** A denial leaves the state as it was and names the tier to wait for:
    with 9 used on the tier (0.5, 9) a cost of 1 exceeds the burst by 1. *)
Example denial_changes_nothing :
  evaluate f64_one f64_one [(f64_half, f64_of_Z 9)]
    [Some (f64_of_Z 9, f64_one)] =
  (mkResponse 0 f64_one 1, [Some (f64_of_Z 9, f64_one)]).
Proof. vm_compute. reflexivity. Qed.

(* ================================================================== *)
(** * Further properties of the constructors *)
(* ================================================================== *)

Lemma template_tiers_template (ts : list tier) :
  template_tiers (template ts) = ts.
Proof.
  induction ts as [|[flow burst] ts IH]; simpl; [reflexivity|].
  rewrite IH. reflexivity.
Qed.

Lemma tiers_of_perm (bs bs' : list BucketValue) :
  Permutation bs bs' -> Permutation (tiers_of bs) (tiers_of bs').
Proof. apply Permutation_map. Qed.

Lemma positive_perm (ts ts' : list tier) :
  Permutation ts ts' ->
  Forall (fun t => positive_tier t = true) ts ->
  Forall (fun t => positive_tier t = true) ts'.
Proof.
  intros Hp. rewrite !Forall_forall. intros H t Ht.
  apply H, (Permutation_in _ (Permutation_sym Hp)), Ht.
Qed.

(** Tiers of positive flow and burst consolidate to the same list in
    whatever order they are given. *)
Lemma consolidate_perm (ts ts' : list tier) :
  Permutation ts ts' ->
  Forall (fun t => positive_tier t = true) ts ->
  consolidate ts' = consolidate ts.
Proof.
  intros Hp Hpos. unfold consolidate. f_equal.
  apply sort_tiers_unique; [exact Hpos| |].
  - rewrite sort_Slice_perm. symmetry. exact Hp.
  - apply (sort_Slice_sorted tier_less (fun t => ordered_tier t = true)
             tier_less_asym tier_less_negtrans).
    apply positive_all_ordered, (positive_perm ts); assumption.
Qed.

Lemma buckets_leave_choices (rest : list BucketValue) :
  chosen_prefix (map set_bucket rest) = EmptyString /\
  chosen_backoff (map set_bucket rest) = None.
Proof.
  unfold chosen_prefix, chosen_backoff.
  generalize EmptyString, (@None BackoffChoice).
  induction rest as [|b rest IH]; intros p c; simpl; [split; reflexivity|].
  apply IH.
Qed.

(** X1. The order of the buckets does not matter.  When every bucket
    resolves to a positive flow and burst, [NewLimiter] returns the same
    limiter for the buckets in any order, and [New] freezes the same template
    whichever bucket comes first and in whatever order the others are
    added. *)
Theorem X1_bucket_order_irrelevant (W : Type) (redis : Client W)
  (prefix : string) (backoff : option BackoffValue)
  (b b' : BucketValue) (rest rest' : list BucketValue) (st : State W) :
  Permutation (b :: rest) (b' :: rest') ->
  Forall (fun t => positive_tier t = true) (tiers_of (b :: rest)) ->
  Cfg.NewLimiter (Cfg.mkConfig (Some redis) prefix backoff (b' :: rest')) st =
  Cfg.NewLimiter (Cfg.mkConfig (Some redis) prefix backoff (b :: rest)) st /\
  Opt.New (Some redis) b' (map Opt.WithAdditionalBucket rest') st =
  Opt.New (Some redis) b (map Opt.WithAdditionalBucket rest) st.
Proof.
  intros Hp Hpos.
  pose proof (tiers_of_perm _ _ Hp) as Ht.
  pose proof (positive_perm _ _ Ht Hpos) as Hpos'.
  pose proof (consolidate_perm _ _ Ht Hpos) as Hc.
  split.
  - rewrite !NewLimiter_eq. cbn [Cfg.Redis Cfg.Buckets Cfg.Prefix Cfg.Backoff].
    rewrite !positive_not_rejected by assumption. rewrite Hc. reflexivity.
  - destruct (additional_buckets (H := sample_env) rest) as [E1 E2].
    destruct (additional_buckets (H := sample_env) rest') as [E1' E2'].
    rewrite <- E1, <- E1', !(New_eq (H := sample_env)), E2, E2'. cbn zeta.
    unfold effective_backoff.
    destruct (buckets_leave_choices rest) as [-> ->].
    destruct (buckets_leave_choices rest') as [-> ->].
    rewrite Hc. reflexivity.
Qed.

Lemma X1_bucket_order_irrelevant_witness :
  Permutation example_buckets (rev example_buckets) /\
  Forall (fun t => positive_tier t = true) (tiers_of example_buckets) /\
  Cfg.NewLimiter
    (Cfg.mkConfig (Some eval_only) "rate:" None (rev example_buckets)) (start []) =
  Cfg.NewLimiter
    (Cfg.mkConfig (Some eval_only) "rate:" None example_buckets) (start []).
Proof.
  assert (Hp : Permutation example_buckets (rev example_buckets))
    by apply Permutation_rev.
  assert (H : Forall (fun t => positive_tier t = true) (tiers_of example_buckets))
    by (repeat constructor).
  split; [exact Hp|]. split; [exact H|].
  exact (proj1 (X1_bucket_order_irrelevant _ eval_only "rate:" None
                  (bucket (mkRate (ratio 1 10) (f64_of_Z 4)))
                  (bucket (mkRate (ratio 4 10) (f64_of_Z 1)))
                  (List.tl example_buckets) (List.tl (rev example_buckets))
                  (start []) Hp H)).
Defined.

(** What [NewLimiter] returned when it returned a limiter. *)
Lemma NewLimiter_built {W : Type} (c : Cfg.Config W) (st : State W)
  (l : Cfg.Limiter W) :
  fst (Cfg.NewLimiter c st) = Ok l ->
  Cfg.Buckets c <> [] /\
  existsb rejected_tier (tiers_of (Cfg.Buckets c)) = false /\
  Cfg.args l = template (consolidate (tiers_of (Cfg.Buckets c))) /\
  Cfg.Redis c = Some (Cfg.redis l) /\
  Cfg.prefix l = Cfg.Prefix c /\
  Cfg.backoff l = Some (match Cfg.Backoff c with
                        | None => backoff_of (mkLinear f64_two)
                        | Some b => b
                        end).
Proof.
  rewrite NewLimiter_eq. cbn [fst].
  destruct (Cfg.Redis c) as [r|]; [|discriminate].
  destruct (Cfg.Buckets c) as [|b bs] eqn:Eb; [discriminate|].
  destruct (existsb rejected_tier (tiers_of (b :: bs))) eqn:Er; [discriminate|].
  intros E. injection E as <-. cbn.
  repeat split; try discriminate.
  destruct (Cfg.Backoff c); reflexivity.
Qed.

(** What [New] returned when it returned a limiter. *)
Lemma New_built `{GoEnv} {W : Type} (redis : option (Client W))
  (b : BucketValue) (settings : list Setting) (st : State W)
  (l : Opt.Limiter W) :
  fst (Opt.New redis b (map option_of settings) st) = Ok l ->
  existsb rejected_tier (consolidate (tiers_of (b :: extra_buckets settings)))
    = false /\
  Opt.args l = template (consolidate (tiers_of (b :: extra_buckets settings))) /\
  redis = Some (Opt.redis l) /\
  Opt.prefix l = chosen_prefix settings /\
  Opt.backoff l = Some (backoff_func (effective_backoff settings)).
Proof.
  rewrite New_eq. cbn [fst].
  destruct redis as [r|]; [|discriminate]. cbn zeta.
  destruct (existsb rejected_tier _) eqn:Er; [discriminate|].
  intros E. injection E as <-. cbn. repeat split.
Qed.

Lemma scan_length (b : float64) (ts : list tier) :
  (List.length (scan b ts) <= List.length ts)%nat.
Proof.
  revert b; induction ts as [|t ts IH]; intros b; simpl; [lia|].
  destruct (snd t <? b)%f64; simpl.
  - specialize (IH (snd t)). lia.
  - specialize (IH b). lia.
Qed.

Lemma consolidate_length (ts : list tier) :
  (List.length (consolidate ts) <= List.length ts)%nat.
Proof.
  unfold consolidate. rewrite <- (sort_Slice_length tier_less ts).
  destruct (sort_Slice tier_less ts) as [|t s]; simpl; [lia|].
  pose proof (scan_length (snd t) s). lia.
Qed.

(** The scan keeps bursts that go down strictly, all of them below the burst
    it started from: this needs no order on the tiers it scans. *)
Lemma scan_burst_falls (b : float64) (ts : list tier) :
  Forall (fun t => (snd t <? b)%f64 = true) (scan b ts) /\
  StronglySorted burst_falls (scan b ts).
Proof.
  revert b; induction ts as [|t ts IH]; intros b; simpl;
    [split; constructor|].
  destruct (snd t <? b)%f64 eqn:E; [|apply IH].
  destruct (IH (snd t)) as [Hb Hs]. split.
  - constructor; [exact E|].
    rewrite Forall_forall in *. intros u Hu.
    eapply f64_lt_trans; [apply Hb, Hu|exact E].
  - constructor; assumption.
Qed.

Lemma consolidate_burst_falls (ts : list tier) :
  StronglySorted burst_falls (consolidate ts).
Proof.
  unfold consolidate. destruct (sort_Slice tier_less ts) as [|t s]; simpl;
    [constructor|].
  destruct (scan_burst_falls (snd t) s) as [Hb Hs]. constructor; assumption.
Qed.

Lemma frozen_consolidated (buckets : list BucketValue) :
  buckets <> [] ->
  existsb rejected_tier (consolidate (tiers_of buckets)) = false ->
  frozen_from (template (consolidate (tiers_of buckets))) buckets.
Proof.
  intros Hne Hr. unfold frozen_from. rewrite template_tiers_template.
  split; [reflexivity|]. split.
  { apply consolidate_nonempty. destruct buckets; [congruence|discriminate]. }
  split.
  { etransitivity; [apply consolidate_length|].
    unfold tiers_of. rewrite length_map. lia. }
  split.
  { intros t Ht. apply consolidate_In in Ht. unfold tiers_of in Ht.
    apply in_map_iff in Ht. destruct Ht as (b & E & Hb). eauto. }
  split.
  { apply Forall_forall. intros t Ht.
    destruct (rejected_tier t) eqn:E; [|reflexivity].
    rewrite <- Hr. symmetry. apply existsb_exists. eauto. }
  apply consolidate_burst_falls.
Qed.

Lemma not_rejected_consolidated (ts : list tier) :
  existsb rejected_tier ts = false ->
  existsb rejected_tier (consolidate ts) = false.
Proof.
  intros H. apply not_true_iff_false. intros Hc. apply not_true_iff_false in H.
  apply H. apply existsb_exists. apply existsb_exists in Hc.
  destruct Hc as (t & Ht & Hr). exists t. split; [apply consolidate_In, Ht|exact Hr].
Qed.

(** X2. What the constructors freeze.  Whenever [NewLimiter] or [New] returns
    a limiter, its argument template is a non-empty list of (flow, burst)
    pairs, each the resolved rate of one of the buckets given, no more pairs
    than buckets, none with a flow or burst that is zero or negative, and with
    bursts that go down strictly from each pair to the next.  This holds for
    every input, NaN included. *)
Theorem X2_frozen_template `{GoEnv} (W : Type) (c : Cfg.Config W) (st : State W)
  (redis : option (Client W)) (b : BucketValue) (settings : list Setting) :
  (forall l, fst (Cfg.NewLimiter c st) = Ok l ->
             frozen_from (Cfg.args l) (Cfg.Buckets c)) /\
  (forall l, fst (Opt.New redis b (map option_of settings) st) = Ok l ->
             frozen_from (Opt.args l) (b :: extra_buckets settings)).
Proof.
  split; intros l Hl.
  - apply NewLimiter_built in Hl. destruct Hl as (Hne & Hr & -> & _).
    apply frozen_consolidated; [exact Hne|].
    apply not_rejected_consolidated, Hr.
  - apply New_built in Hl. destruct Hl as (Hr & -> & _).
    apply frozen_consolidated; [discriminate|exact Hr].
Qed.

Lemma X2_frozen_template_witness :
  exists l,
    fst (Cfg.NewLimiter
           (Cfg.mkConfig (Some eval_only) "rate:" None example_buckets)
           (start [])) = Ok l /\
    frozen_from (Cfg.args l) example_buckets.
Proof.
  eexists. split; [reflexivity|].
  apply (proj1 (X2_frozen_template (H := sample_env) _
                  (Cfg.mkConfig (Some eval_only) "rate:" None example_buckets)
                  (start []) None nan_burst [])).
  reflexivity.
Defined.

Lemma StronglySorted_both {A : Type} (R S : A -> A -> Prop) (l : list A) :
  StronglySorted R l -> StronglySorted S l ->
  StronglySorted (fun a b => R a b /\ S a b) l.
Proof.
  induction 1 as [|a l HR IH Ha]; intros HS; [constructor|].
  inversion HS as [|? ? HS' Hb]; subst. constructor; [apply IH, HS'|].
  rewrite Forall_forall in *. intros b Hin. split; [apply Ha|apply Hb]; exact Hin.
Qed.

Lemma StronglySorted_weaken {A : Type} (R S : A -> A -> Prop) (l : list A) :
  (forall a b, R a b -> S a b) -> StronglySorted R l -> StronglySorted S l.
Proof.
  intros HRS. induction 1 as [|a l HR IH Ha]; constructor; [exact IH|].
  revert Ha. apply Forall_impl. intros b. apply HRS.
Qed.

(** Tiers in the sorted order whose bursts fall have flows that rise. *)
Lemma tier_le_burst_falls (a b : tier) :
  tier_le a b /\ burst_falls a b -> tighter_later a b.
Proof.
  intros [[Hf|[_ Hb]] Hd]; [split; assumption|]. exfalso.
  unfold burst_falls in Hd.
  pose proof (f64_le_lt_trans _ _ _ Hb Hd) as Hc.
  rewrite f64_lt_irrefl in Hc. discriminate.
Qed.

Lemma consolidate_tightens (ts : list tier) :
  Forall (fun t => ordered_tier t = true) ts ->
  StronglySorted tighter_later (consolidate ts).
Proof.
  intros Ots. apply (StronglySorted_weaken _ _ _ tier_le_burst_falls).
  apply StronglySorted_both; [|apply consolidate_burst_falls].
  apply prune_StronglySorted, sort_tiers_sorted, Ots.
Qed.

Lemma accepted_positive (t : tier) :
  ordered_tier t = true -> rejected_tier t = false -> positive_tier t = true.
Proof.
  rewrite ordered_tier_spec. unfold rejected_tier, positive_tier.
  intros [Hf Hb] Hr. apply orb_false_iff in Hr. destruct Hr as [Hr1 Hr2].
  apply andb_true_iff. split; apply f64_not_le_lt; auto.
Qed.

Lemma consolidate_accepted_positive (ts : list tier) :
  Forall (fun t => ordered_tier t = true) ts ->
  existsb rejected_tier (consolidate ts) = false ->
  Forall (fun t => positive_tier t = true) (consolidate ts).
Proof.
  intros Ots Hr. apply Forall_forall. intros t Ht.
  apply accepted_positive.
  - rewrite Forall_forall in Ots. apply Ots, consolidate_In, Ht.
  - destruct (rejected_tier t) eqn:E; [|reflexivity].
    rewrite <- Hr. symmetry. apply existsb_exists. eauto.
Qed.

(** X3. The kept tiers tighten.  When no bucket resolves to a NaN, the
    template of a limiter that [NewLimiter] or [New] returns lists tiers of
    positive flow and burst in which, from each tier to every later one, the
    flow rises strictly and the burst falls strictly: no kept tier is at
    least as restrictive as another. *)
Theorem X3_kept_tiers_tighten `{GoEnv} (W : Type) (c : Cfg.Config W)
  (st : State W) (redis : option (Client W)) (b : BucketValue)
  (settings : list Setting) :
  (forall l, Forall (fun t => ordered_tier t = true) (tiers_of (Cfg.Buckets c)) ->
             fst (Cfg.NewLimiter c st) = Ok l ->
             StronglySorted tighter_later (template_tiers (Cfg.args l)) /\
             Forall (fun t => positive_tier t = true)
               (template_tiers (Cfg.args l))) /\
  (forall l, Forall (fun t => ordered_tier t = true)
               (tiers_of (b :: extra_buckets settings)) ->
             fst (Opt.New redis b (map option_of settings) st) = Ok l ->
             StronglySorted tighter_later (template_tiers (Opt.args l)) /\
             Forall (fun t => positive_tier t = true)
               (template_tiers (Opt.args l))).
Proof.
  split; intros l Ots Hl.
  - apply NewLimiter_built in Hl. destruct Hl as (Hne & Hr & -> & _).
    rewrite template_tiers_template.
    split; [apply consolidate_tightens, Ots|].
    apply consolidate_accepted_positive; [exact Ots|].
    apply not_rejected_consolidated, Hr.
  - apply New_built in Hl. destruct Hl as (Hr & -> & _).
    rewrite template_tiers_template.
    split; [apply consolidate_tightens, Ots|].
    apply consolidate_accepted_positive; assumption.
Qed.

Lemma X3_kept_tiers_tighten_witness :
  Forall (fun t => ordered_tier t = true) (tiers_of example_buckets) /\
  exists l,
    fst (Cfg.NewLimiter
           (Cfg.mkConfig (Some eval_only) "rate:" None example_buckets)
           (start [])) = Ok l /\
    StronglySorted tighter_later (template_tiers (Cfg.args l)).
Proof.
  assert (Ho : Forall (fun t => ordered_tier t = true) (tiers_of example_buckets))
    by (repeat constructor).
  split; [exact Ho|]. eexists. split; [reflexivity|].
  apply (proj1 (X3_kept_tiers_tighten (H := sample_env) _
                  (Cfg.mkConfig (Some eval_only) "rate:" None example_buckets)
                  (start []) None nan_burst []) _ Ho).
  reflexivity.
Defined.

(** X4. Nothing is lost by pruning.  When no bucket resolves to a NaN, every
    bucket given to [NewLimiter] or [New] is dominated by a tier of the
    returned limiter's template: a kept tier whose flow and whose burst are
    both no larger than the bucket's. *)
Theorem X4_discarded_dominated `{GoEnv} (W : Type) (c : Cfg.Config W)
  (st : State W) (redis : option (Client W)) (b : BucketValue)
  (settings : list Setting) :
  (forall l, Forall (fun t => ordered_tier t = true) (tiers_of (Cfg.Buckets c)) ->
             fst (Cfg.NewLimiter c st) = Ok l ->
             forall b', In b' (Cfg.Buckets c) ->
               exists k, In k (template_tiers (Cfg.args l)) /\
                         dominates k (resolve b')) /\
  (forall l, Forall (fun t => ordered_tier t = true)
               (tiers_of (b :: extra_buckets settings)) ->
             fst (Opt.New redis b (map option_of settings) st) = Ok l ->
             forall b', In b' (b :: extra_buckets settings) ->
               exists k, In k (template_tiers (Opt.args l)) /\
                         dominates k (resolve b')).
Proof.
  split; intros l Ots Hl b' Hb'.
  - apply NewLimiter_built in Hl. destruct Hl as (Hne & Hr & -> & _).
    rewrite template_tiers_template.
    apply (consolidate_dominates _ Ots). apply in_map, Hb'.
  - apply New_built in Hl. destruct Hl as (Hr & -> & _).
    rewrite template_tiers_template.
    apply (consolidate_dominates _ Ots).
    exact (in_map resolve _ _ Hb').
Qed.

Lemma X4_discarded_dominated_witness :
  Forall (fun t => ordered_tier t = true) (tiers_of example_buckets) /\
  In (bucket (mkRate (ratio 3 10) (f64_of_Z 2))) example_buckets /\
  exists l,
    fst (Cfg.NewLimiter
           (Cfg.mkConfig (Some eval_only) "rate:" None example_buckets)
           (start [])) = Ok l /\
    exists k, In k (template_tiers (Cfg.args l)) /\
              dominates k (ratio 3 10, f64_of_Z 2).
Proof.
  assert (Ho : Forall (fun t => ordered_tier t = true) (tiers_of example_buckets))
    by (repeat constructor).
  assert (Hi : In (bucket (mkRate (ratio 3 10) (f64_of_Z 2))) example_buckets)
    by (simpl; tauto).
  split; [exact Ho|]. split; [exact Hi|]. eexists. split; [reflexivity|].
  apply (proj1 (X4_discarded_dominated (H := sample_env) _
                  (Cfg.mkConfig (Some eval_only) "rate:" None example_buckets)
                  (start []) None nan_burst []) _ Ho eq_refl _ Hi).
Defined.

Lemma dominates_trans (a b c : tier) :
  dominates a b -> dominates b c -> dominates a c.
Proof.
  intros [Hf Hb] [Hf' Hb']. split; eapply f64_le_trans; eassumption.
Qed.

Lemma f64_le_antisym (x y : float64) :
  (x <=? y)%f64 = true -> (y <=? x)%f64 = true -> (x =? y)%f64 = true.
Proof.
  f64_ranks. intros (Hx & Hy & [H1|H1]) (_ & _ & [H2|H2]); repeat split; auto.
  exfalso. exact (lex_lt_asym _ _ H1 H2).
Qed.

Lemma f64_pos_not_zero (x : float64) :
  (f64_zero <? x)%f64 = true -> (x =? f64_zero)%f64 = false.
Proof.
  destruct x as [s|[|]| |[|] m e]; intros H; try discriminate; reflexivity.
Qed.

(** Two tiers that dominate each other are the same tier, when one of them is
    positive. *)
Lemma dominates_antisym (a b : tier) :
  positive_tier a = true -> dominates a b -> dominates b a -> a = b.
Proof.
  unfold positive_tier. rewrite andb_true_iff.
  intros [Pf Pb] [Hf Hb] [Hf' Hb'].
  destruct a as [fa ba], b as [fb bb]; cbn [fst snd] in *. f_equal.
  - apply f64_eq_leibniz; [apply f64_le_antisym; assumption|].
    apply f64_pos_not_zero, Pf.
  - apply f64_eq_leibniz; [apply f64_le_antisym; assumption|].
    apply f64_pos_not_zero, Pb.
Qed.

Lemma tighter_not_dominates (a b : tier) :
  tighter_later a b -> ~ dominates a b /\ ~ dominates b a.
Proof.
  intros [Hf Hb]. split; intros [Hf' Hb'].
  - apply f64_lt_not_le in Hb. congruence.
  - apply f64_lt_not_le in Hf. congruence.
Qed.

Lemma StronglySorted_pair {A : Type} (R : A -> A -> Prop) (l : list A) (a b : A) :
  StronglySorted R l -> In a l -> In b l -> a = b \/ R a b \/ R b a.
Proof.
  induction 1 as [|x l Hs IH Hx]; intros Ha Hb; [destruct Ha|].
  rewrite Forall_forall in Hx.
  destruct Ha as [<-|Ha], Hb as [<-|Hb]; auto.
Qed.

Lemma StronglySorted_NoDup {A : Type} (R : A -> A -> Prop) (l : list A) :
  (forall a, ~ R a a) -> StronglySorted R l -> NoDup l.
Proof.
  intros Hirr. induction 1 as [|x l Hs IH Hx]; constructor; [|exact IH].
  intros Hin. rewrite Forall_forall in Hx. exact (Hirr x (Hx x Hin)).
Qed.

Lemma tighter_later_irrefl (a : tier) : ~ tighter_later a a.
Proof. intros [H _]. rewrite f64_lt_irrefl in H. discriminate. Qed.

(** A tier is kept exactly when it is one of the tiers and none of them but
    itself dominates it. *)
Lemma consolidate_undominated (ts : list tier) :
  Forall (fun t => ordered_tier t = true) ts ->
  existsb rejected_tier (consolidate ts) = false ->
  forall t,
    In t (consolidate ts) <->
    In t ts /\ forall s, In s ts -> dominates s t -> s = t.
Proof.
  intros Ots Hr t.
  pose proof (consolidate_tightens ts Ots) as Hs.
  pose proof (consolidate_accepted_positive ts Ots Hr) as Hp.
  rewrite Forall_forall in Hp. split.
  - intros Ht. split; [apply consolidate_In, Ht|]. intros s Hin Hst.
    destruct (consolidate_dominates ts Ots s Hin) as (k & Hk & Hks).
    assert (E : k = t).
    { destruct (StronglySorted_pair _ _ k t Hs Hk Ht) as [E|[T|T]]; [exact E| |];
        apply tighter_not_dominates in T; destruct T as [T1 T2];
        exfalso; [apply T1|apply T2]; eapply dominates_trans; eassumption. }
    subst k. symmetry. apply dominates_antisym; auto.
  - intros [Hin Hu].
    destruct (consolidate_dominates ts Ots t Hin) as (k & Hk & Hkt).
    rewrite <- (Hu k (consolidate_In _ _ Hk) Hkt). exact Hk.
Qed.

(** X5. Which buckets are kept.  When no bucket resolves to a NaN, the
    template of a limiter that [NewLimiter] or [New] returns holds, once
    each, exactly the resolved rates that no other bucket's rate dominates:
    a rate is dropped exactly when another bucket has a flow no larger and a
    burst no larger, and is not the same rate. *)
Theorem X5_kept_iff_undominated `{GoEnv} (W : Type) (c : Cfg.Config W)
  (st : State W) (redis : option (Client W)) (b : BucketValue)
  (settings : list Setting) :
  (forall l, Forall (fun t => ordered_tier t = true) (tiers_of (Cfg.Buckets c)) ->
             fst (Cfg.NewLimiter c st) = Ok l ->
             NoDup (template_tiers (Cfg.args l)) /\
             forall t,
               In t (template_tiers (Cfg.args l)) <->
               In t (tiers_of (Cfg.Buckets c)) /\
               forall s, In s (tiers_of (Cfg.Buckets c)) -> dominates s t -> s = t) /\
  (forall l, Forall (fun t => ordered_tier t = true)
               (tiers_of (b :: extra_buckets settings)) ->
             fst (Opt.New redis b (map option_of settings) st) = Ok l ->
             NoDup (template_tiers (Opt.args l)) /\
             forall t,
               In t (template_tiers (Opt.args l)) <->
               In t (tiers_of (b :: extra_buckets settings)) /\
               forall s, In s (tiers_of (b :: extra_buckets settings)) ->
                         dominates s t -> s = t).
Proof.
  split; intros l Ots Hl.
  - apply NewLimiter_built in Hl. destruct Hl as (Hne & Hr & -> & _).
    rewrite template_tiers_template. split.
    + apply (StronglySorted_NoDup tighter_later); [exact tighter_later_irrefl|].
      apply consolidate_tightens, Ots.
    + apply consolidate_undominated; [exact Ots|].
      apply not_rejected_consolidated, Hr.
  - apply New_built in Hl. destruct Hl as (Hr & -> & _).
    rewrite template_tiers_template. split.
    + apply (StronglySorted_NoDup tighter_later); [exact tighter_later_irrefl|].
      apply consolidate_tightens, Ots.
    + apply consolidate_undominated; assumption.
Qed.

Lemma X5_kept_iff_undominated_witness :
  Forall (fun t => ordered_tier t = true) (tiers_of example_buckets) /\
  exists l,
    fst (Cfg.NewLimiter
           (Cfg.mkConfig (Some eval_only) "rate:" None example_buckets)
           (start [])) = Ok l /\
    (In (ratio 2 10, f64_of_Z 2) (template_tiers (Cfg.args l)) <->
     In (ratio 2 10, f64_of_Z 2) (tiers_of example_buckets) /\
     forall s, In s (tiers_of example_buckets) ->
               dominates s (ratio 2 10, f64_of_Z 2) -> s = (ratio 2 10, f64_of_Z 2)).
Proof.
  assert (Ho : Forall (fun t => ordered_tier t = true) (tiers_of example_buckets))
    by (repeat constructor).
  split; [exact Ho|]. eexists. split; [reflexivity|].
  apply (proj1 (X5_kept_iff_undominated (H := sample_env) _
                  (Cfg.mkConfig (Some eval_only) "rate:" None example_buckets)
                  (start []) None nan_burst []) _ Ho eq_refl).
Defined.

Lemma tighter_later_asym (a b : tier) :
  tighter_later a b -> ~ tighter_later b a.
Proof.
  intros [H1 _] [H2 _].
  pose proof (f64_lt_trans _ _ _ H1 H2) as Hc.
  rewrite f64_lt_irrefl in Hc. discriminate.
Qed.

(** Two lists in a strict order that hold the same elements are the same
    list. *)
Lemma StronglySorted_same {A : Type} (R : A -> A -> Prop) :
  (forall a b, R a b -> ~ R b a) ->
  forall l l' : list A,
    StronglySorted R l -> StronglySorted R l' ->
    (forall a, In a l <-> In a l') -> l = l'.
Proof.
  intros Hasym.
  assert (Hirr : forall a, ~ R a a) by (intros a Haa; exact (Hasym a a Haa Haa)).
  induction l as [|x l IH]; intros l' Hs Hs' Hin.
  - destruct l' as [|y l']; [reflexivity|].
    exfalso. apply (proj2 (Hin y)). left; reflexivity.
  - destruct l' as [|y l'].
    { exfalso. apply (proj1 (Hin x)). left; reflexivity. }
    inversion Hs as [|? ? Hsl Hx]; inversion Hs' as [|? ? Hsl' Hy]; subst.
    rewrite Forall_forall in Hx, Hy.
    assert (E : x = y).
    { destruct (proj1 (Hin x) (or_introl eq_refl)) as [E|Hxl']; [auto|].
      destruct (proj2 (Hin y) (or_introl eq_refl)) as [E|Hyl]; [auto|].
      exfalso. exact (Hasym _ _ (Hx y Hyl) (Hy x Hxl')). }
    subst y. f_equal. apply IH; auto.
    intros a. split; intros Ha.
    + destruct (proj1 (Hin a) (or_intror Ha)) as [E|H']; [|exact H'].
      subst a. exfalso. exact (Hirr x (Hx x Ha)).
    + destruct (proj2 (Hin a) (or_intror Ha)) as [E|H']; [|exact H'].
      subst a. exfalso. exact (Hirr x (Hy x Ha)).
Qed.

(** A tier that another one dominates adds nothing to the consolidated
    list. *)
Lemma consolidate_superfluous (ts : list tier) (t' : tier) :
  Forall (fun t => positive_tier t = true) (ts ++ [t']) ->
  (exists s, In s ts /\ dominates s t') ->
  consolidate (ts ++ [t']) = consolidate ts.
Proof.
  intros Hpos (s0 & Hs0 & Hd0).
  assert (Hpos' : Forall (fun t => positive_tier t = true) ts).
  { rewrite Forall_app in Hpos. tauto. }
  pose proof (positive_all_ordered _ Hpos) as Ho.
  pose proof (positive_all_ordered _ Hpos') as Ho'.
  assert (Hr : existsb rejected_tier (consolidate (ts ++ [t'])) = false)
    by (apply positive_not_rejected, consolidate_positive, Hpos).
  assert (Hr' : existsb rejected_tier (consolidate ts) = false)
    by (apply positive_not_rejected, consolidate_positive, Hpos').
  apply (StronglySorted_same tighter_later tighter_later_asym);
    [apply consolidate_tightens, Ho|apply consolidate_tightens, Ho'|].
  intros t.
  rewrite (consolidate_undominated _ Ho Hr), (consolidate_undominated _ Ho' Hr').
  rewrite Forall_forall in Hpos. split.
  - intros [Hin Hu]. split.
    + apply in_app_or in Hin. destruct Hin as [Hin|[<-|[]]]; [exact Hin|].
      rewrite <- (Hu s0); [exact Hs0|apply in_or_app; auto|exact Hd0].
    + intros s Hs. apply Hu, in_or_app. auto.
  - intros [Hin Hu]. split; [apply in_or_app; auto|].
    intros s Hs Hd. apply in_app_or in Hs. destruct Hs as [Hs|[<-|[]]]; [auto|].
    assert (E : s0 = t) by (apply Hu; [exact Hs0|eapply dominates_trans; eassumption]).
    subst s0. symmetry. apply dominates_antisym; auto.
    apply Hpos, in_or_app. auto.
Qed.

(** X6. A superfluous bucket changes nothing.  Among buckets of positive flow
    and burst, adding one whose flow and burst are both at least those of a
    bucket already there gives the very same limiter, from [NewLimiter] and
    from [New] alike. *)
Theorem X6_superfluous_bucket (W : Type) (redis : Client W) (prefix : string)
  (backoff : option BackoffValue) (b : BucketValue) (rest : list BucketValue)
  (b' b0 : BucketValue) (st : State W) :
  Forall (fun t => positive_tier t = true) (tiers_of ((b :: rest) ++ [b'])) ->
  In b0 (b :: rest) -> dominates (resolve b0) (resolve b') ->
  Cfg.NewLimiter (Cfg.mkConfig (Some redis) prefix backoff ((b :: rest) ++ [b'])) st =
  Cfg.NewLimiter (Cfg.mkConfig (Some redis) prefix backoff (b :: rest)) st /\
  Opt.New (Some redis) b (map Opt.WithAdditionalBucket (rest ++ [b'])) st =
  Opt.New (Some redis) b (map Opt.WithAdditionalBucket rest) st.
Proof.
  intros Hpos Hb0 Hd.
  assert (Hc : consolidate (tiers_of ((b :: rest) ++ [b'])) =
               consolidate (tiers_of (b :: rest))).
  { unfold tiers_of in *. rewrite map_app in *. cbn [map] in *.
    apply consolidate_superfluous; [exact Hpos|].
    exists (resolve b0). split; [|exact Hd].
    exact (in_map resolve _ _ Hb0). }
  assert (Hpos' : Forall (fun t => positive_tier t = true) (tiers_of (b :: rest))).
  { unfold tiers_of in *. rewrite map_app, Forall_app in Hpos. tauto. }
  split.
  - rewrite !NewLimiter_eq. cbn [Cfg.Redis Cfg.Buckets Cfg.Prefix Cfg.Backoff].
    rewrite Hc.
    change (existsb rejected_tier (tiers_of (b :: rest ++ [b'])))
      with (existsb rejected_tier (tiers_of ((b :: rest) ++ [b']))).
    rewrite !positive_not_rejected by assumption. reflexivity.
  - destruct (additional_buckets (H := sample_env) rest) as [E1 E2].
    destruct (additional_buckets (H := sample_env) (rest ++ [b'])) as [E1' E2'].
    rewrite <- E1, <- E1', !(New_eq (H := sample_env)), E2, E2'. cbn zeta.
    unfold effective_backoff.
    destruct (buckets_leave_choices rest) as [-> ->].
    destruct (buckets_leave_choices (rest ++ [b'])) as [-> ->].
    change (b :: rest ++ [b']) with ((b :: rest) ++ [b']).
    rewrite Hc. reflexivity.
Qed.

Lemma X6_superfluous_bucket_witness :
  let extra := bucket (mkRate (ratio 3 10) (f64_of_Z 3)) in
  exists l,
    Cfg.NewLimiter
      (Cfg.mkConfig (Some eval_only) "rate:" None (example_buckets ++ [extra]))
      (start []) = (Ok l, start []) /\
    Cfg.NewLimiter
      (Cfg.mkConfig (Some eval_only) "rate:" None example_buckets)
      (start []) = (Ok l, start []).
Proof.
  intros extra.
  assert (Hpos : Forall (fun t => positive_tier t = true)
                   (tiers_of (example_buckets ++ [extra])))
    by (repeat constructor).
  assert (Hin : In (bucket (mkRate (ratio 2 10) (f64_of_Z 2))) example_buckets)
    by (simpl; tauto).
  assert (Hd : dominates (resolve (bucket (mkRate (ratio 2 10) (f64_of_Z 2))))
                 (resolve extra))
    by (split; reflexivity).
  eexists. split; [|reflexivity].
  etransitivity; [|reflexivity].
  exact (proj1 (X6_superfluous_bucket _ eval_only "rate:" None
                  (bucket (mkRate (ratio 1 10) (f64_of_Z 4)))
                  (List.tl example_buckets) extra _ (start []) Hpos Hin Hd)).
Defined.

(* ================================================================== *)
(** * Further properties of Test *)
(* ================================================================== *)

(** In 64-bit arithmetic [2*index - 1] depends on [index] only through
    [index mod 2^63]: an index that names a tier in this way gives the
    position of that tier's flow, and any other gives a position outside the
    argument vector. *)
Lemma flow_position_in (index : Z) :
  min_int64 <= index <= max_int64 ->
  1 <= tier_number index < 2 ^ 62 ->
  flow_position index = 2 * tier_number index - 1.
Proof.
  unfold flow_position, tier_number, wrap64, min_int64, max_int64.
  change (2 ^ 62) with 4611686018427387904.
  change (2 ^ 63) with 9223372036854775808.
  change (2 ^ 64) with 18446744073709551616.
  intros Hi Hn. Z.div_mod_to_equations. lia.
Qed.

Lemma flow_position_out (index n : Z) :
  min_int64 <= index <= max_int64 -> 0 <= n < 2 ^ 62 ->
  ~ (1 <= tier_number index <= n) ->
  flow_position index < 0 \/ 2 * n + 1 <= flow_position index.
Proof.
  unfold flow_position, tier_number, wrap64, min_int64, max_int64.
  change (2 ^ 62) with 4611686018427387904.
  change (2 ^ 63) with 9223372036854775808.
  change (2 ^ 64) with 18446744073709551616.
  intros Hi Hn Hout. Z.div_mod_to_equations. lia.
Qed.

Lemma flow_lookup_out (cost : float64) (ts : list tier) (index : Z) :
  min_int64 <= index <= max_int64 ->
  Z.of_nat (List.length ts) < 2 ^ 62 ->
  ~ (1 <= tier_number index <= Z.of_nat (List.length ts)) ->
  index_slice (any_float64 cost :: template ts) (flow_position index) = Panic.
Proof.
  intros Hi Hn Hout.
  destruct (flow_position_out index (Z.of_nat (List.length ts)) Hi
              (conj (Nat2Z.is_nonneg _) Hn) Hout) as [Hp|Hp];
    unfold index_slice; cbn [List.length]; rewrite template_length.
  - destruct (Z.ltb_spec (flow_position index) 0); [reflexivity|lia].
  - destruct (Z.leb_spec (Z.of_nat (S (2 * List.length ts)))
                (flow_position index)); [|lia].
    rewrite orb_true_r. reflexivity.
Qed.

Lemma flow_lookup_in (cost : float64) (ts : list tier) (index : Z) :
  min_int64 <= index <= max_int64 ->
  Z.of_nat (List.length ts) < 2 ^ 62 ->
  1 <= tier_number index <= Z.of_nat (List.length ts) ->
  exists t, nth_error ts (Z.to_nat (tier_number index - 1)) = Some t /\
    index_slice (any_float64 cost :: template ts) (flow_position index) =
    Ok (any_float64 (fst t)).
Proof.
  intros Hi Hn Hin.
  destruct (nth_error ts (Z.to_nat (tier_number index - 1))) as [t|] eqn:E.
  - exists t. split; [reflexivity|].
    rewrite flow_position_in by lia.
    rewrite <- (flow_lookup cost ts (tier_number index) t) by (auto; lia).
    rewrite (wrap64_small (2 * tier_number index))
      by (unfold min_int64, max_int64; lia).
    rewrite wrap64_small by (unfold min_int64, max_int64; lia).
    reflexivity.
  - apply nth_error_None in E. lia.
Qed.

(** X7. Which denials [Test] can answer.  Take a limiter over [n] tiers with
    a backoff, and a well-typed response that is not an admission.  [Test]
    reads the flow at position [2*index - 1] computed in 64-bit arithmetic,
    which depends on the index only through [index mod 2^63].  When that
    number is one of 1..n, [Test] returns a denial computed from the flow of
    that tier; so it does for the indexes 1..n themselves, and also for the
    negative indexes [i - 2^63].  On every other 64-bit index (zero, other
    negative ones, ones beyond the last tier) it panics.  It never returns an
    error.  This holds for both facades. *)
Theorem X7_denial_index `{GoEnv} (W : Type) (lc : Cfg.Limiter W)
  (lo : Opt.Limiter W) (ts : list tier) (bc : BackoffValue)
  (bo : float64 -> float64) (key : string) (cost : float64)
  (st st' : State W) (allow index : Z) (val : string) (value : float64) :
  Cfg.args lc = template ts -> Opt.args lo = template ts ->
  Cfg.backoff lc = Some bc -> Opt.backoff lo = Some bo ->
  Z.of_nat (List.length ts) < 2 ^ 62 ->
  min_int64 <= index <= max_int64 ->
  allow <> 1 ->
  strconv_ParseFloat val = (value, None) ->
  let raw := any_slice [any_int64 allow; any_string val; any_int64 index] in
  let named := 1 <= tier_number index <= Z.of_nat (List.length ts) in
  (1 <= index <= Z.of_nat (List.length ts) -> tier_number index = index) /\
  (exec (Cfg.redis lc) [(Cfg.prefix lc ++ key)%string]
     (any_float64 cost :: Cfg.args lc) st = ((raw, None), st') ->
   (named -> exists t,
      nth_error ts (Z.to_nat (tier_number index - 1)) = Some t /\
      Cfg.Test lc key cost st =
      (Ok (Cfg.mkResult false f64_zero
             (Duration_of_seconds
                ((cost / fst t) * call_Backoff bc (value / cost))%f64)), st')) /\
   (~ named -> Cfg.Test lc key cost st = (Panic, st'))) /\
  (exec (Opt.redis lo) [(Opt.prefix lo ++ key)%string]
     (any_float64 cost :: Opt.args lo) st = ((raw, None), st') ->
   (named -> exists t,
      nth_error ts (Z.to_nat (tier_number index - 1)) = Some t /\
      Opt.Test lo key cost st =
      (Ok (Opt.mkResult false f64_zero
             (Duration_of_seconds
                ((cost / fst t) * bo (value / cost))%f64)), st')) /\
   (~ named -> Opt.Test lo key cost st = (Panic, st'))).
Proof.
  intros Hc Ho Hbc Hbo Hn Hi Ha Hp raw named.
  assert (Ea : (allow =? 1) = false) by (apply Z.eqb_neq, Ha).
  split; [|split; intros E].
  - intros Hin. unfold tier_number. apply Z.mod_small.
    change (2 ^ 62) with 4611686018427387904 in Hn.
    change (2 ^ 63) with 9223372036854775808. lia.
  - rewrite (Cfg_Test_decoded _ _ _ _ _ _ E). unfold raw.
    rewrite (Cfg_validate_shaped _ _ _ _ Hp), Ea, Hc, Hbc.
    fold (flow_position index). split; intros Hnamed.
    + destruct (flow_lookup_in cost ts index Hi Hn Hnamed) as (t & Et & ->).
      exists t. split; [exact Et|reflexivity].
    + rewrite (flow_lookup_out cost ts index Hi Hn Hnamed). reflexivity.
  - rewrite (Opt_Test_decoded _ _ _ _ _ _ E). unfold raw.
    rewrite (Opt_validate_shaped _ _ _ _ Hp), Ea, Ho, Hbo.
    fold (flow_position index). split; intros Hnamed.
    + destruct (flow_lookup_in cost ts index Hi Hn Hnamed) as (t & Et & ->).
      exists t. split; [exact Et|reflexivity].
    + rewrite (flow_lookup_out cost ts index Hi Hn Hnamed). reflexivity.
Qed.

Lemma X7_denial_index_witness :
  Cfg.Test (H := sample_env) example_Cfg_limiter "key" f64_one
    (start [wrapped_denial]) =
  (Ok (Cfg.mkResult false f64_zero (30 * Second)),
   mkState []
     [call_Eval (script (GoEnv := sample_env)) ["rate:key"%string]
        (any_float64 f64_one :: template example_consolidated)]) /\
  Opt.Test (H := sample_env) example_Opt_limiter "key" f64_one
    (start [stray_denial]) =
  (Panic,
   mkState []
     [call_Eval (script (GoEnv := sample_env)) ["rate:key"%string]
        (any_float64 f64_one :: template example_consolidated)]).
Proof.
  assert (Hn : Z.of_nat (List.length example_consolidated) < 2 ^ 62)
    by reflexivity.
  assert (Hw : min_int64 <= 2 - 2 ^ 63 <= max_int64)
    by (split; discriminate).
  assert (Hs : min_int64 <= 4 <= max_int64) by (split; discriminate).
  assert (Ha : 0 <> 1) by discriminate.
  assert (Hnamed : 1 <= tier_number (2 - 2 ^ 63) <=
                   Z.of_nat (List.length example_consolidated))
    by (split; discriminate).
  assert (Hstray : ~ (1 <= tier_number 4 <=
                      Z.of_nat (List.length example_consolidated)))
    by (intros [_ Hle]; apply Hle; reflexivity).
  split.
  - pose proof (X7_denial_index (H := sample_env) _ example_Cfg_limiter
                  example_Opt_limiter example_consolidated
                  (backoff_of (mkLinear f64_two))
                  (fun deny => (f64_two * deny)%f64)
                  "key" f64_one (start [wrapped_denial])
                  (mkState []
                     [call_Eval (script (GoEnv := sample_env)) ["rate:key"%string]
                        (any_float64 f64_one :: template example_consolidated)])
                  0 (2 - 2 ^ 63) "3" (f64_of_Z 3)
                  eq_refl eq_refl eq_refl eq_refl Hn Hw Ha eq_refl) as X.
    destruct X as (_ & Hc & _).
    destruct (proj1 (Hc eq_refl) Hnamed) as (t & Et & E).
    injection Et as <-. exact E.
  - pose proof (X7_denial_index (H := sample_env) _ example_Cfg_limiter
                  example_Opt_limiter example_consolidated
                  (backoff_of (mkLinear f64_two))
                  (fun deny => (f64_two * deny)%f64)
                  "key" f64_one (start [stray_denial])
                  (mkState []
                     [call_Eval (script (GoEnv := sample_env)) ["rate:key"%string]
                        (any_float64 f64_one :: template example_consolidated)])
                  0 4 "3" (f64_of_Z 3)
                  eq_refl eq_refl eq_refl eq_refl Hn Hs Ha eq_refl) as X.
    destruct X as (_ & _ & Ho).
    exact (proj2 (Ho eq_refl) Hstray).
Defined.

(** [New] when the last of its options is a custom backoff that is nil. *)
Lemma New_nil_custom `{GoEnv} {W : Type} (redis : option (Client W))
  (b : BucketValue) (settings : list Setting) (st : State W) :
  Opt.New redis b (map option_of settings ++ [Opt.WithCustomBackoff None]) st =
  (match redis with
   | None => Err (errors_New "limiter: must have a redis client")
   | Some redis =>
       let ts := consolidate (tiers_of (b :: extra_buckets settings)) in
       if existsb rejected_tier ts
       then Err (errors_New "limiter: rate parameters must be positive")
       else Ok (Opt.mkLimiter (template ts) redis (chosen_prefix settings) None)
   end, st).
Proof.
  unfold Opt.New. destruct redis as [redis|]; [|reflexivity].
  unfold ret. f_equal. rewrite fold_left_app, options_fold.
  destruct (resolve b) as [flow burst] eqn:Eb.
  assert (E0 : Opt.WithAdditionalBucket b
                 (Opt.WithLinearBackoff f64_two (Opt.mkconfig [] EmptyString None)) =
               Opt.mkconfig [mkRate flow burst] EmptyString
                 (Some (fun deny => (f64_two * deny)%f64))).
  { unfold Opt.WithAdditionalBucket, Opt.WithLinearBackoff. rewrite Eb. reflexivity. }
  rewrite E0.
  cbn [fold_left Opt.WithCustomBackoff Opt.config_rates Opt.config_prefix
       Opt.config_backoff app].
  rewrite Opt_build_sorted by discriminate.
  assert (Et : map tier_of_Rate
                 (mkRate flow burst ::
                    map (fun b => mkRate (fst (resolve b)) (snd (resolve b)))
                      (extra_buckets settings)) =
               tiers_of (b :: extra_buckets settings)).
  { unfold tiers_of. simpl. rewrite Eb. f_equal. rewrite map_map.
    apply map_ext. intros x. unfold tier_of_Rate; simpl.
    destruct (resolve x); reflexivity. }
  rewrite Et. cbn [obind]. rewrite Opt_check_args. cbn zeta.
  destruct (existsb rejected_tier _); reflexivity.
Qed.

(** X8. A nil custom backoff.  [New] does not replace a nil function given to
    [WithCustomBackoff] by the default backoff: when that option comes last,
    [New] returns a limiter whenever it would without the option, with the
    same template, client and prefix, and with no backoff at all.  Such a
    limiter still answers admissions, but [Test] panics on every well-typed
    response that is not an admission, whatever index it names. *)
Theorem X8_nil_custom_backoff `{GoEnv} (W : Type) (redis : Client W)
  (b : BucketValue) (settings : list Setting) (st : State W)
  (l0 : Opt.Limiter W) :
  fst (Opt.New (Some redis) b (map option_of settings) st) = Ok l0 ->
  let l := Opt.mkLimiter (Opt.args l0) (Opt.redis l0) (Opt.prefix l0) None in
  Opt.New (Some redis) b
    (map option_of settings ++ [Opt.WithCustomBackoff None]) st = (Ok l, st) /\
  (forall key cost st1 st' val index value,
     exec (Opt.redis l) [(Opt.prefix l ++ key)%string]
       (any_float64 cost :: Opt.args l) st1 =
       ((any_slice [any_int64 1; any_string val; any_int64 index], None), st') ->
     strconv_ParseFloat val = (value, None) ->
     Opt.Test l key cost st1 = (Ok (Opt.mkResult true value 0), st')) /\
  (forall key cost st1 st' allow val index value,
     exec (Opt.redis l) [(Opt.prefix l ++ key)%string]
       (any_float64 cost :: Opt.args l) st1 =
       ((any_slice [any_int64 allow; any_string val; any_int64 index], None), st') ->
     strconv_ParseFloat val = (value, None) ->
     allow <> 1 ->
     Opt.Test l key cost st1 = (Panic, st')).
Proof.
  intros Hl l. pose proof Hl as Hb. apply New_built in Hb.
  destruct Hb as (Hr & Ha & Hred & Hp & _).
  split; [|split].
  - rewrite New_nil_custom. cbn zeta. rewrite Hr. unfold l.
    injection Hred as <-. rewrite Ha, Hp. reflexivity.
  - intros key cost st1 st' val index value E Ep.
    rewrite (Opt_Test_decoded _ _ _ _ _ _ E), (Opt_validate_shaped _ _ _ _ Ep).
    reflexivity.
  - intros key cost st1 st' allow val index value E Ep Hne.
    rewrite (Opt_Test_decoded _ _ _ _ _ _ E), (Opt_validate_shaped _ _ _ _ Ep).
    apply Z.eqb_neq in Hne. rewrite Hne. f_equal.
    destruct (index_slice _ _) as [a|e|] eqn:Ei; cbn [obind]; try reflexivity.
    + destruct a; reflexivity.
    + exfalso. exact (index_slice_not_Err _ _ _ Ei).
Qed.

Lemma X8_nil_custom_backoff_witness :
  let b := bucket (mkRate (ratio 2 10) (f64_of_Z 2)) in
  let l := Opt.mkLimiter [any_float64 (ratio 2 10); any_float64 (f64_of_Z 2)]
             eval_only "" None in
  let asked := mkState []
                 [call_Eval (script (GoEnv := sample_env)) ["key"%string]
                    [any_float64 f64_one; any_float64 (ratio 2 10);
                     any_float64 (f64_of_Z 2)]] in
  Opt.New (Some eval_only) b [Opt.WithCustomBackoff None] (start []) =
    (Ok l, start []) /\
  Opt.Test (H := sample_env) l "key" f64_one (start [denial]) = (Panic, asked).
Proof.
  intros b l asked.
  pose proof (X8_nil_custom_backoff (H := sample_env) _ eval_only b []
                (start [])
                (Opt.mkLimiter [any_float64 (ratio 2 10); any_float64 (f64_of_Z 2)]
                   eval_only ""
                   (Some (backoff_func (H := sample_env) (choose_Linear f64_two))))
                eq_refl) as X.
  destruct X as (Hnew & _ & Hdeny). split; [exact Hnew|].
  assert (Hne : 0 <> 1) by discriminate.
  exact (Hdeny "key"%string f64_one (start [denial]) asked 0 "3"%string 2
           (f64_of_Z 3) eq_refl eq_refl Hne).
Defined.

(* ================================================================== *)
(** * Further properties of the options *)
(* ================================================================== *)

Lemma prefix_untouched (settings : list Setting) (p : string) :
  existsb is_prefix_setting settings = false ->
  fold_left (fun p s => match s with set_prefix q => q | _ => p end)
    settings p = p.
Proof.
  revert p; induction settings as [|s ss IH]; intros p; simpl; [reflexivity|].
  destruct s as [b|q|ch]; simpl; try discriminate; apply IH.
Qed.

Lemma backoff_untouched (settings : list Setting) (c : option BackoffChoice) :
  existsb is_backoff_setting settings = false ->
  fold_left (fun c s => match s with set_backoff ch => Some ch | _ => c end)
    settings c = c.
Proof.
  revert c; induction settings as [|s ss IH]; intros c; simpl; [reflexivity|].
  destruct s as [b|q|ch]; simpl; try discriminate; apply IH.
Qed.

Lemma chosen_prefix_last (s1 s2 : list Setting) (p : string) :
  existsb is_prefix_setting s2 = false ->
  chosen_prefix (s1 ++ set_prefix p :: s2) = p.
Proof.
  intros Hno. unfold chosen_prefix. rewrite fold_left_app. simpl.
  apply prefix_untouched, Hno.
Qed.

Lemma chosen_backoff_last (s1 s2 : list Setting) (ch : BackoffChoice) :
  existsb is_backoff_setting s2 = false ->
  chosen_backoff (s1 ++ set_backoff ch :: s2) = Some ch.
Proof.
  intros Hno. unfold chosen_backoff. rewrite fold_left_app. simpl.
  apply backoff_untouched, Hno.
Qed.

(** X9. The last option wins.  In the limiter that [New] returns, the prefix
    is the one given to the last [WithPrefix] among the options, or the empty
    string when there is none; the backoff is the function of the last
    backoff option, wherever the options stand among the others. *)
Theorem X9_last_option_wins `{GoEnv} (W : Type) (redis : option (Client W))
  (b : BucketValue) (settings : list Setting) (st : State W)
  (l : Opt.Limiter W) :
  fst (Opt.New redis b (map option_of settings) st) = Ok l ->
  (existsb is_prefix_setting settings = false -> Opt.prefix l = EmptyString) /\
  (forall s1 p s2,
     settings = s1 ++ set_prefix p :: s2 ->
     existsb is_prefix_setting s2 = false -> Opt.prefix l = p) /\
  (forall s1 ch s2,
     settings = s1 ++ set_backoff ch :: s2 ->
     existsb is_backoff_setting s2 = false ->
     Opt.backoff l = Some (backoff_func ch)).
Proof.
  intros Hl. apply New_built in Hl. destruct Hl as (_ & _ & _ & Hp & Hb).
  split; [|split].
  - intros Hno. rewrite Hp. apply prefix_untouched, Hno.
  - intros s1 p s2 -> Hno. rewrite Hp. apply chosen_prefix_last, Hno.
  - intros s1 ch s2 -> Hno. rewrite Hb. unfold effective_backoff.
    rewrite chosen_backoff_last by exact Hno. reflexivity.
Qed.

Lemma X9_last_option_wins_witness :
  exists l,
    fst (Opt.New (Some eval_only) (bucket (mkRate (ratio 2 10) (f64_of_Z 2)))
           [Opt.WithPrefix "a:"; Opt.WithConstantBackoff f64_one;
            Opt.WithPrefix "b:";
            Opt.WithAdditionalBucket (bucket (mkRate (ratio 4 10) (f64_of_Z 1)))]
           (start [])) = Ok l /\
    Opt.prefix l = "b:"%string.
Proof.
  eexists. split; [reflexivity|].
  match goal with
  | |- Opt.prefix ?l = _ =>
      assert (E : fst (Opt.New (Some eval_only)
                         (bucket (mkRate (ratio 2 10) (f64_of_Z 2)))
                         (map (option_of (H := sample_env))
                            [set_prefix "a:"; set_backoff (choose_Constant f64_one);
                             set_prefix "b:";
                             set_bucket (bucket (mkRate (ratio 4 10) (f64_of_Z 1)))])
                         (start [])) = Ok l) by reflexivity;
      exact (proj1 (proj2
               (X9_last_option_wins (H := sample_env) _ (Some eval_only)
                  (bucket (mkRate (ratio 2 10) (f64_of_Z 2)))
                  [set_prefix "a:"; set_backoff (choose_Constant f64_one);
                   set_prefix "b:";
                   set_bucket (bucket (mkRate (ratio 4 10) (f64_of_Z 1)))]
                  (start []) l E))
               [set_prefix "a:"; set_backoff (choose_Constant f64_one)]
               "b:"%string
               [set_bucket (bucket (mkRate (ratio 4 10) (f64_of_Z 1)))]
               eq_refl eq_refl)
  end.
Defined.

(* ================================================================== *)
(** * Further properties of exec *)
(* ================================================================== *)

Lemma prefix_spec (p s : string) :
  String.prefix p s = true <-> exists post, s = (p ++ post)%string.
Proof.
  revert s; induction p as [|a p IH]; intros s.
  - split; [intros _; exists s; reflexivity|]. intros _. destruct s; reflexivity.
  - destruct s as [|b s]; cbn [String.prefix append].
    + split; [discriminate|]. intros (post & E). discriminate.
    + destruct (Ascii.ascii_dec a b) as [<-|Hne].
      * rewrite IH. split; intros (post & E); exists post.
        -- rewrite E. reflexivity.
        -- injection E as E. exact E.
      * split; [discriminate|]. intros (post & E). injection E as E1 E2.
        congruence.
Qed.

(** [strings.Contains] as modelled finds exactly the occurrences. *)
Lemma Contains_spec (s sub : string) :
  Contains s sub = true <-> occurs_in sub s.
Proof.
  unfold occurs_in. induction s as [|a s IH]; cbn [Contains].
  - destruct (String.prefix sub EmptyString) eqn:E.
    + apply prefix_spec in E. destruct E as (post & E).
      split; [|reflexivity]. intros _. exists EmptyString, post. exact E.
    + split; [discriminate|]. intros (pre & post & Es). exfalso.
      destruct pre as [|c pre]; [|discriminate].
      apply not_true_iff_false in E. apply E, prefix_spec.
      exists post. exact Es.
  - destruct (String.prefix sub (String a s)) eqn:E.
    + apply prefix_spec in E. destruct E as (post & E).
      split; [|reflexivity]. intros _. exists EmptyString, post. exact E.
    + rewrite IH. split.
      * intros (pre & post & Es). exists (String a pre), post.
        rewrite Es. reflexivity.
      * intros (pre & post & Es). destruct pre as [|c pre].
        -- exfalso. apply not_true_iff_false in E. apply E, prefix_spec.
           exists post. exact Es.
        -- injection Es as _ Es. exists pre, post. exact Es.
Qed.

(** X10. When [exec] submits the script.  For a client with [EvalSha] whose
    call by SHA-1 returned [r], [exec] goes on to call [Eval] with the full
    script exactly when [r] carries an error in whose message the letters
    NOSCRIPT occur, anywhere and in upper case; in every other case it
    returns [r] after that one call. *)
Theorem X10_fallback_trigger `{GoEnv} (W : Type) (c : Client W)
  (keys : list string) (args : list any) (st : State W)
  (evalsha : string -> list string -> list any -> W -> (any * option error) * W)
  (r : any * option error) (w : W) :
  EvalSha c = Some evalsha ->
  evalsha sha1 keys args (world st) = (r, w) ->
  let asked := mkState w (calls st ++ [call_EvalSha sha1 keys args]) in
  let again := exists e, snd r = Some e /\ occurs_in "NOSCRIPT" (Error e) in
  (again -> exec c keys args st = do_Eval c script keys args asked) /\
  (~ again -> exec c keys args st = (r, asked)) /\
  (List.length (calls (snd (exec c keys args st))) =
   S (S (List.length (calls st))) <-> again).
Proof.
  intros Hc Hr asked again. rewrite exec_run, Hc, Hr. cbn zeta.
  fold asked.
  assert (Hagain : unknown_reference (snd r) = true <-> again).
  { unfold again, unknown_reference. destruct (snd r) as [e|].
    - rewrite Contains_spec. split; [eauto|].
      intros (e' & E & Ho). injection E as <-. exact Ho.
    - split; [discriminate|]. intros (e' & E & _). discriminate. }
  destruct (unknown_reference (snd r)).
  - split; [reflexivity|]. split.
    + intros Hn. exfalso. apply Hn, Hagain. reflexivity.
    + split; [intros _; apply Hagain; reflexivity|]. intros _.
      unfold do_Eval. destruct (Eval c script keys args (world asked)).
      cbn [snd calls asked]. rewrite !length_app. simpl. lia.
  - split; [|split].
    + intros Ha. apply Hagain in Ha. discriminate.
    + reflexivity.
    + split; [|intros Ha; apply Hagain in Ha; discriminate].
      cbn [snd calls asked]. rewrite length_app. simpl. lia.
Qed.

Lemma X10_fallback_trigger_witness :
  let unknown := (any_nil, Some (errors_New "ERR NOSCRIPT No matching script")) in
  exec (H := sample_env) eval_and_sha ["key"%string] [] (start [unknown; admission]) =
  (admission,
   mkState []
     [call_EvalSha (sha1 (GoEnv := sample_env)) ["key"%string] [];
      call_Eval (script (GoEnv := sample_env)) ["key"%string] []]).
Proof.
  intros unknown.
  assert (Ho : exists e, snd unknown = Some e /\ occurs_in "NOSCRIPT" (Error e)).
  { eexists. split; [reflexivity|]. exists "ERR "%string, " No matching script"%string.
    reflexivity. }
  exact (proj1 (X10_fallback_trigger (H := sample_env) _ eval_and_sha
                  ["key"%string] [] (start [unknown; admission])
                  scripted_call unknown [admission] eq_refl eq_refl) Ho).
Defined.

(* ================================================================== *)
(** * Rounding never reaches zero from a number the format can hold *)
(* ================================================================== *)

Lemma shr_1_div2 (mrs : shr_record) :
  0 <= shr_m mrs -> shr_m (shr_1 mrs) = shr_m mrs / 2.
Proof.
  destruct mrs as [m r s]; cbn [shr_m].
  destruct m as [|[p|p|]|[p|p|]]; cbn [shr_1 shr_m]; intros Hm; try lia;
    try reflexivity.
  - apply (Z.div_unique _ _ _ 1); lia.
  - apply (Z.div_unique _ _ _ 0); lia.
Qed.

Lemma pow2_xO (p : positive) : 2 ^ Zpos p~0 = 2 ^ Zpos p * 2 ^ Zpos p.
Proof. rewrite <- Z.pow_add_r by lia. f_equal. lia. Qed.

Lemma pow2_xI (p : positive) : 2 ^ Zpos p~1 = 2 * (2 ^ Zpos p * 2 ^ Zpos p).
Proof.
  rewrite <- Z.pow_add_r, <- Z.pow_succ_r by lia. f_equal. lia.
Qed.

Lemma iter_shr_1_div (p : positive) (mrs : shr_record) :
  0 <= shr_m mrs -> shr_m (iter_pos shr_1 p mrs) = shr_m mrs / 2 ^ Zpos p.
Proof.
  revert mrs. induction p as [p IH|p IH|]; intros mrs Hm; cbn [iter_pos].
  - rewrite IH, IH, shr_1_div2
      by auto using iter_shr_1_nonneg, shr_1_nonneg.
    assert (0 < 2 ^ Zpos p) by (apply Z.pow_pos_nonneg; lia).
    rewrite !Z.div_div by lia. rewrite pow2_xI. f_equal; ring.
  - rewrite IH, IH by auto using iter_shr_1_nonneg.
    assert (0 < 2 ^ Zpos p) by (apply Z.pow_pos_nonneg; lia).
    rewrite !Z.div_div by lia. rewrite pow2_xO. f_equal; ring.
  - apply shr_1_div2, Hm.
Qed.

(** Shifting to the exponent of the format leaves a positive mantissa
    positive, unless the number is below half the least subnormal. *)
Lemma shr_fexp_pos (m e : Z) (l : location) :
  0 < m -> -1074 < Zdigits2 m + e ->
  0 < shr_m (fst (shr_fexp prec emax m e l)) /\
  -1074 <= snd (shr_fexp prec emax m e l).
Proof.
  intros Hm He. unfold shr_fexp, shr, fexp, SpecFloat.emin, prec, emax in *.
  std_Z.
  assert (H0 : shr_m (shr_record_of_loc m l) = m)
    by (destruct l as [|[| |]]; reflexivity).
  destruct m as [|p|p]; try lia. cbn [Zdigits2] in *.
  pose proof (digits2_pos_bounds p) as B.
  destruct (Z.max (Zpos (digits2_pos p) + e - 53) (3 - 1024 - 53) - e)
    as [|n|n] eqn:En; cbn [fst snd]; try (rewrite H0; lia).
  rewrite iter_shr_1_div, H0 by (rewrite H0; lia). split; [|lia].
  assert (Hn : Zpos n <= Zpos (digits2_pos p) - 1) by lia.
  assert (P : 2 ^ Zpos n <= 2 ^ (Zpos (digits2_pos p) - 1))
    by (apply Z.pow_le_mono_r; lia).
  apply Z.div_str_pos. split; [apply Z.pow_pos_nonneg; lia|lia].
Qed.

Lemma round_nearest_even_ge (m : Z) (l : location) :
  m <= round_nearest_even m l.
Proof.
  destruct l as [|[| |]]; simpl; try lia. destruct (Z.even m); lia.
Qed.

Lemma Zdigits2_pos (m : Z) : 0 < m -> 0 < Zdigits2 m.
Proof. destruct m; simpl; lia. Qed.

(** Rounding a positive number that is no less than the least subnormal
    gives a finite number or an infinity, never a zero. *)
Lemma binary_round_aux_strict (s : bool) (m e : Z) (l : location) :
  0 < m -> -1074 < Zdigits2 m + e ->
  strict s (binary_round_aux prec emax s m e l).
Proof.
  intros Hm He. unfold binary_round_aux.
  destruct (shr_fexp_pos m e l Hm He) as [H1 E1].
  destruct (shr_fexp prec emax m e l) as [mrs' e']. cbn [fst snd] in H1, E1.
  pose proof (round_nearest_even_ge (shr_m mrs') (loc_of_shr_record mrs')) as H2.
  set (m1 := round_nearest_even (shr_m mrs') (loc_of_shr_record mrs')) in *.
  assert (Hm1 : 0 < m1) by lia.
  pose proof (Zdigits2_pos m1 Hm1) as D1.
  destruct (shr_fexp_pos m1 e' loc_Exact Hm1 ltac:(lia)) as [H3 E3].
  destruct (shr_fexp prec emax m1 e' loc_Exact) as [mrs'' e''].
  cbn [fst snd] in H3, E3.
  destruct (shr_m mrs'') as [|p|p]; try lia.
  match goal with |- context [if ?c then _ else _] => destruct c end;
    simpl; auto.
Qed.

Lemma Zdigits2_shl (m : positive) (d : positive) :
  Zpos (digits2_pos (Pos.iter xO m d)) = Zpos (digits2_pos m) + Zpos d.
Proof.
  induction d as [|d IH] using Pos.peano_ind.
  - simpl. lia.
  - rewrite Pos.iter_succ. cbn [digits2_pos]. lia.
Qed.

Lemma binary_round_strict (s : bool) (m : positive) (e : Z) :
  -1074 < Zpos (digits2_pos m) + e -> strict s (binary_round prec emax s m e).
Proof.
  intros He. unfold binary_round, shl_align.
  destruct (fexp prec emax (Zpos (digits2_pos m) + e) - e) as [|d|d] eqn:Ed;
    apply binary_round_aux_strict; cbn [Zdigits2]; try lia.
  rewrite Zdigits2_shl.
  unfold fexp, SpecFloat.emin, prec, emax in *. std_Z. lia.
Qed.

Lemma strict_positive (x : float64) :
  strict false x -> (f64_zero <? x)%f64 = true.
Proof.
  destruct x as [s|s| |s m e]; simpl; try tauto.
  - intros ->. reflexivity.
  - intros [-> _]. reflexivity.
Qed.

Lemma strict_negative (x : float64) :
  strict true x -> (x <? f64_zero)%f64 = true.
Proof.
  destruct x as [s|s| |s m e]; simpl; try tauto.
  - intros ->. reflexivity.
  - intros [-> _]. reflexivity.
Qed.

(** For finite bounds with [y < x], the difference [x - y] is more than
    zero: subtraction does not underflow. *)
Lemma f64_sub_pos (x y : float64) :
  valid x = true -> valid y = true ->
  is_finite x = true -> is_finite y = true ->
  (y <? x)%f64 = true -> (f64_zero <? (x - y))%f64 = true.
Proof.
  intros Vx Vy Fx Fy Hlt.
  destruct x as [sx|sx| |sx mx ex], y as [sy|sy| |sy my ey]; try discriminate.
  - destruct sy; [reflexivity|discriminate].
  - destruct sx; [discriminate|reflexivity].
  - apply strict_positive.
    unfold f64_sub, SFsub, binary_normalize. std_Z.
    pose proof (valid_finite _ _ _ Vx) as Bx.
    pose proof (valid_finite _ _ _ Vy) as By.
    assert (Hz : 0 < cond_Zopp sx (Zpos (fst (shl_align mx ex (Z.min ex ey)))) -
                     cond_Zopp sy (Zpos (fst (shl_align my ey (Z.min ex ey))))).
    { rewrite !shl_align_fst by lia.
      unfold f64_lt, SFltb, SFcompare in Hlt.
      destruct sx, sy; cbn [cond_Zopp]; try discriminate.
      - (* both negative: y < x *)
        destruct (Z.compare_spec ey ex) as [E|E|E]; try discriminate.
        + subst ey. rewrite Z.min_id, Z.sub_diag, !Z.mul_1_r.
          rewrite Pos.compare_cont_spec in Hlt. cbn [Pos.switch_Eq] in Hlt.
          destruct (Pos.compare_spec my mx); simpl in Hlt;
            try discriminate; lia.
        + rewrite Z.min_l, Z.sub_diag, Z.mul_1_r by lia.
          pose proof (aligned_lt mx my ex ey _ _ Vx Vy E). lia.
      - (* x positive, y negative *)
        assert (0 < 2 ^ (ex - Z.min ex ey)) by (apply Z.pow_pos_nonneg; lia).
        assert (0 < 2 ^ (ey - Z.min ex ey)) by (apply Z.pow_pos_nonneg; lia).
        nia.
      - (* both positive *)
        destruct (Z.compare_spec ey ex) as [E|E|E]; try discriminate.
        + subst ey. rewrite Z.min_id, Z.sub_diag, !Z.mul_1_r.
          rewrite Pos.compare_cont_spec in Hlt. cbn [Pos.switch_Eq] in Hlt.
          destruct (Pos.compare_spec my mx); simpl in Hlt;
            try discriminate; lia.
        + rewrite Z.min_r, Z.sub_diag, Z.mul_1_r by lia.
          pose proof (aligned_lt my mx ey ex _ _ Vy Vx E). lia. }
    destruct (cond_Zopp sx _ - cond_Zopp sy _) as [|p|p]; try lia.
    apply binary_round_strict.
    pose proof (Pos2Z.is_pos (digits2_pos p)). lia.
Qed.

Lemma strict_weak (s : bool) (x : float64) : strict s x -> weak s x.
Proof. destruct x; simpl; tauto. Qed.

Lemma weak_signed (s : bool) (x : float64) : weak s x -> signed s x.
Proof. destruct x; simpl; tauto. Qed.

Lemma shr_fexp_exp (m e : Z) (l : location) :
  -1074 <= snd (shr_fexp prec emax m e l).
Proof.
  unfold shr_fexp, shr, fexp, SpecFloat.emin, prec, emax. std_Z.
  destruct (Z.max (Zdigits2 m + e - 53) (3 - 1024 - 53) - e) eqn:E;
    cbn [snd]; lia.
Qed.

Lemma binary_round_aux_weak (s : bool) (m e : Z) (l : location) :
  0 <= m -> weak s (binary_round_aux prec emax s m e l).
Proof.
  intros Hm. unfold binary_round_aux.
  pose proof (shr_fexp_nonneg m e l Hm) as H1.
  destruct (shr_fexp prec emax m e l) as [mrs' e']. cbn [fst] in H1.
  pose proof (round_nearest_even_nonneg _ (loc_of_shr_record mrs') H1) as H2.
  pose proof (shr_fexp_nonneg _ e' loc_Exact H2) as H3.
  pose proof (shr_fexp_exp (round_nearest_even (shr_m mrs') (loc_of_shr_record mrs'))
                e' loc_Exact) as E3.
  destruct (shr_fexp prec emax _ e' loc_Exact) as [mrs'' e''].
  cbn [fst snd] in H3, E3.
  destruct (shr_m mrs'') as [|p|p]; simpl; [reflexivity| |lia].
  match goal with |- context [if ?c then _ else _] => destruct c end;
    simpl; auto.
Qed.

Lemma f64_of_Z_strict (n : Z) : n <> 0 -> strict (n <? 0) (f64_of_Z n).
Proof.
  intros Hn. unfold f64_of_Z, binary_normalize.
  destruct n as [|p|p]; [lia| |]; apply binary_round_strict;
    pose proof (Pos2Z.is_pos (digits2_pos p)); lia.
Qed.

Lemma shr_fexp_exp_le (m e : Z) (l : location) :
  e <= snd (shr_fexp prec emax m e l).
Proof.
  unfold shr_fexp, shr.
  destruct (fexp prec emax (Zdigits2 m + e) - e) eqn:E; cbn [snd]; std_Z; lia.
Qed.

(** Rounding does not lower the exponent. *)
Lemma binary_round_aux_exp (s : bool) (m e : Z) (l : location)
  (sx : bool) (mx : positive) (ex : Z) :
  binary_round_aux prec emax s m e l = S754_finite sx mx ex -> e <= ex.
Proof.
  unfold binary_round_aux.
  pose proof (shr_fexp_exp_le m e l) as E1.
  destruct (shr_fexp prec emax m e l) as [mrs' e']. cbn [snd] in E1.
  pose proof (shr_fexp_exp_le
                (round_nearest_even (shr_m mrs') (loc_of_shr_record mrs'))
                e' loc_Exact) as E2.
  destruct (shr_fexp prec emax _ e' loc_Exact) as [mrs'' e'']. cbn [snd] in E2.
  destruct (shr_m mrs'') as [|p|p]; try discriminate.
  match goal with |- context [if ?c then _ else _] => destruct c end;
    try discriminate.
  intros E. injection E as _ _ <-. lia.
Qed.

(** An integer as a float has an exponent of -52 at least. *)
Lemma f64_of_Z_exp (n : Z) (s : bool) (m : positive) (e : Z) :
  f64_of_Z n = S754_finite s m e -> -52 <= e.
Proof.
  unfold f64_of_Z, binary_normalize.
  assert (H : forall sx p, binary_round prec emax sx p 0 = S754_finite s m e ->
                           -52 <= e).
  { intros sx p. unfold binary_round, shl_align.
    pose proof (Pos2Z.is_pos (digits2_pos p)) as Hd.
    destruct (fexp prec emax (Zpos (digits2_pos p) + 0) - 0) as [|d|d] eqn:Ed;
      intros E; apply binary_round_aux_exp in E;
      unfold fexp, SpecFloat.emin, prec, emax in *; std_Z; lia. }
  destruct n as [|p|p]; [discriminate| |]; apply H.
Qed.

Lemma Zdigits2_lower (q k : Z) : 0 <= k -> 2 ^ k <= q -> k < Zdigits2 q.
Proof.
  intros Hk Hq.
  assert (0 < 2 ^ k) by (apply Z.pow_pos_nonneg; lia).
  destruct q as [|p|p]; try lia. cbn [Zdigits2].
  pose proof (digits2_pos_bounds p) as [_ B].
  apply (Z.pow_lt_mono_r_iff 2); lia.
Qed.

(** A quotient of finite numbers that is not too small is not rounded to
    zero. *)
Lemma f64_div_strict (sx sy : bool) (mx my : positive) (ex ey : Z) :
  -1021 <= Zpos (digits2_pos mx) + ex - (Zpos (digits2_pos my) + ey) ->
  strict (xorb sx sy) (S754_finite sx mx ex / S754_finite sy my ey)%f64.
Proof.
  intros HD. unfold f64_div, SFdiv, SFdiv_core_binary. cbn [Zdigits2].
  unfold fexp, SpecFloat.emin, prec, emax. std_Z.
  set (d1 := Zpos (digits2_pos mx)) in *.
  set (d2 := Zpos (digits2_pos my)) in *.
  set (e' := Z.min (Z.max (d1 + ex - (d2 + ey) - 53) (3 - 1024 - 53)) (ex - ey)).
  set (s := ex - ey - e').
  assert (Hs : 0 <= s /\ 53 + d2 - d1 <= s) by (unfold s, e'; lia).
  set (m' := match s with
             | 0 => Zpos mx
             | Zpos _ => Z.shiftl (Zpos mx) s
             | Zneg _ => 0
             end).
  assert (Hm' : m' = Zpos mx * 2 ^ s).
  { unfold m'. destruct s as [|p|p]; [rewrite Z.pow_0_r; lia| |lia].
    apply Z.shiftl_mul_pow2. lia. }
  pose proof (Z.div_eucl_eq m' (Zpos my) ltac:(lia)) as Heq.
  pose proof (Z.mod_pos_bound m' (Zpos my) ltac:(lia)) as Hr.
  unfold Z.modulo in Hr.
  destruct (Z.div_eucl m' (Zpos my)) as [q r].
  pose proof (digits2_pos_bounds mx) as [Bx _].
  pose proof (digits2_pos_bounds my) as [_ By].
  fold d1 in Bx. fold d2 in By.
  assert (Hd1 : 0 < d1) by (unfold d1; lia).
  assert (Hd2 : 0 < d2) by (unfold d2; lia).
  set (k := d1 + s - d2 - 1).
  assert (Hk : 52 <= k) by (unfold k; lia).
  assert (Hpow : 2 ^ (d1 - 1) * 2 ^ s = 2 ^ k * 2 ^ d2).
  { rewrite <- !Z.pow_add_r by lia. f_equal. unfold k. lia. }
  assert (PA : 0 < 2 ^ (d1 - 1)) by (apply Z.pow_pos_nonneg; lia).
  assert (PB : 0 < 2 ^ d2) by (apply Z.pow_pos_nonneg; lia).
  assert (PC : 0 < 2 ^ s) by (apply Z.pow_pos_nonneg; lia).
  assert (PK : 0 < 2 ^ k) by (apply Z.pow_pos_nonneg; lia).
  assert (Hq : 2 ^ k <= q).
  { destruct (Z.le_gt_cases (2 ^ k) q) as [Hle|Hgt]; [exact Hle|exfalso].
    assert (Zpos my * (q + 1) <= Zpos my * 2 ^ k) by nia.
    assert (Zpos my * 2 ^ k < 2 ^ d2 * 2 ^ k) by nia.
    assert (2 ^ (d1 - 1) * 2 ^ s <= Zpos mx * 2 ^ s) by nia.
    lia. }
  apply binary_round_aux_strict; [lia|].
  pose proof (Zdigits2_lower q k ltac:(lia) Hq) as Hdq.
  unfold k, s in Hdq. lia.
Qed.

Lemma f64_add_strict (s : bool) (a b : float64) :
  strict s a -> weak s b -> strict s (a + b)%f64.
Proof.
  destruct a as [sa|sa| |sa ma ea], b as [sb|sb| |sb mb eb];
    cbn [strict weak]; try tauto; intros Ha Hb;
    repeat match goal with H : _ /\ _ |- _ => destruct H end; subst sa sb;
    try (destruct s; cbn; auto; fail).
  unfold f64_add, SFadd, binary_normalize. std_Z.
  pose proof (Pos2Z.is_pos (fst (shl_align ma ea (Z.min ea eb)))) as Pa.
  pose proof (Pos2Z.is_pos (fst (shl_align mb eb (Z.min ea eb)))) as Pb.
  destruct s; cbn [cond_Zopp];
    destruct (_ + _) as [|p|p] eqn:E; try lia;
    apply binary_round_strict;
    pose proof (Pos2Z.is_pos (digits2_pos p)); lia.
Qed.

Lemma f64_add_zero_l (b : float64) (s : bool) :
  strict s b -> (S754_zero false + b)%f64 = b.
Proof. destruct b; simpl; tauto || reflexivity. Qed.

Lemma f64_add_strict_zero (a : float64) (s : bool) :
  strict s a -> (a + S754_zero false)%f64 = a.
Proof. destruct a; simpl; tauto || reflexivity. Qed.

(** The fraction of a second: nanoseconds over 1e9. *)
Lemma nanoseconds_strict (r : Z) :
  r <> 0 -> strict (r <? 0) (f64_of_Z r / f64_of_Z 1000000000)%f64.
Proof.
  intros Hr.
  assert (E : f64_of_Z 1000000000 = S754_finite false 8388608000000000 (-23))
    by (vm_compute; reflexivity).
  rewrite E.
  pose proof (f64_of_Z_strict r Hr) as Hs.
  pose proof (f64_of_Z_exp r) as He.
  destruct (f64_of_Z r) as [s|s| |s m e]; cbn [strict] in Hs; try tauto.
  - subst s. cbn. destruct (r <? 0); reflexivity.
  - destruct Hs as [-> _]. specialize (He _ _ _ eq_refl).
    assert (HD : -1021 <= Zpos (digits2_pos m) + e -
                          (Zpos (digits2_pos 8388608000000000) + -23)).
    { pose proof (Pos2Z.is_pos (digits2_pos m)).
      change (Zpos (digits2_pos 8388608000000000)) with 53. lia. }
    destruct (r <? 0).
    + exact (f64_div_strict true false _ _ _ _ HD).
    + exact (f64_div_strict false false _ _ _ _ HD).
Qed.

(** The seconds of a duration that is not zero are not zero, and have its
    sign. *)
Lemma Seconds_strict (d : Duration) :
  d <> 0 -> strict (d <? 0) (Seconds d).
Proof.
  intros Hd. unfold Seconds.
  pose proof (Z.quot_rem' d Second) as Hqr.
  assert (HS : Second = 1000000000) by reflexivity.
  destruct (Z.eq_dec (Z.rem d Second) 0) as [Er|Er];
    destruct (Z.eq_dec (Z.quot d Second) 0) as [Eq|Eq].
  - lia.
  - rewrite Er.
    change (f64_of_Z 0 / f64_of_Z 1000000000)%f64 with (S754_zero false).
    rewrite (f64_add_strict_zero _ (Z.quot d Second <? 0))
      by (apply f64_of_Z_strict, Eq).
    replace (d <? 0) with (Z.quot d Second <? 0);
      [apply f64_of_Z_strict, Eq|].
    rewrite Er in Hqr. rewrite HS in *.
    destruct (Z.ltb_spec (Z.quot d 1000000000) 0), (Z.ltb_spec d 0);
      try reflexivity; lia.
  - rewrite Eq. change (f64_of_Z 0) with (S754_zero false).
    rewrite (f64_add_zero_l _ (Z.rem d Second <? 0))
      by (apply nanoseconds_strict, Er).
    replace (d <? 0) with (Z.rem d Second <? 0);
      [apply nanoseconds_strict, Er|].
    rewrite Eq in Hqr. rewrite HS in *.
    destruct (Z.ltb_spec (Z.rem d 1000000000) 0), (Z.ltb_spec d 0);
      try reflexivity; lia.
  - assert (Hsame : (Z.quot d Second <? 0) = (d <? 0) /\
                    (Z.rem d Second <? 0) = (d <? 0)).
    { rewrite HS in *. clear Hqr.
      destruct (Z.ltb_spec (Z.quot d 1000000000) 0),
               (Z.ltb_spec (Z.rem d 1000000000) 0), (Z.ltb_spec d 0);
        try (split; reflexivity); exfalso;
        Z.quot_rem_to_equations; lia. }
    destruct Hsame as [Hq Hr].
    apply f64_add_strict.
    + rewrite <- Hq. apply f64_of_Z_strict, Eq.
    + rewrite <- Hr. apply strict_weak, nanoseconds_strict, Er.
Qed.

(** The sign of a quotient whose dividend is finite and whose divisor is not
    zero. *)
Lemma f64_div_signed (sx sy : bool) (x y : float64) :
  is_finite x = true -> signed sx x -> strict sy y ->
  signed (xorb sx sy) (x / y)%f64.
Proof.
  destruct x as [s|s| |s mx ex], y as [t|t| |t my ey];
    cbn [strict signed is_finite]; try tauto; try discriminate;
    intros _ Hx Hy; repeat match goal with H : _ /\ _ |- _ => destruct H end;
    subst; try reflexivity.
  unfold f64_div, SFdiv, SFdiv_core_binary.
  match goal with
  | |- context [Z.div_eucl ?a ?b] =>
      pose proof (Z.div_pos a b) as Hq; unfold Z.div in Hq;
      assert (Ha : 0 <= a);
      [|destruct (Z.div_eucl a b) as [q r]; cbn [fst] in Hq;
        apply binary_round_aux_signed, Hq; [exact Ha|reflexivity]]
  end.
  match goal with |- 0 <= match ?s with _ => _ end => destruct s eqn:Es end;
    try lia.
  rewrite Z.shiftl_mul_pow2 by lia.
  apply Z.mul_nonneg_nonneg; [lia|apply Z.pow_nonneg; lia].
Qed.

(** X11. The burst of a capacity.  For a capacity with finite bounds, the
    burst [Max - Min] it resolves to is more than zero exactly when
    [Min < Max], and zero or less exactly when [Max <= Min]: the subtraction
    neither underflows to zero nor changes sign. *)
Theorem X11_capacity_burst (c : Capacity) :
  valid (Min c) = true -> valid (Max c) = true ->
  is_finite (Min c) = true -> is_finite (Max c) = true ->
  ((f64_zero <? snd (resolve (bucket c)))%f64 = true <->
   (Min c <? Max c)%f64 = true) /\
  ((snd (resolve (bucket c)) <=? f64_zero)%f64 = true <->
   (Max c <=? Min c)%f64 = true).
Proof.
  intros Vn Vx Fn Fx. cbn [resolve Bucket_Rate Capacity_Bucket Capacity_Rate snd].
  assert (Nn : isNaN (Min c) = false) by (apply is_finite_notNaN, Fn).
  assert (Nx : isNaN (Max c) = false) by (apply is_finite_notNaN, Fx).
  assert (Hpos : (Min c <? Max c)%f64 = true ->
                 (f64_zero <? (Max c - Min c))%f64 = true)
    by (apply f64_sub_pos; assumption).
  assert (Hneg : (Max c <=? Min c)%f64 = true ->
                 ((Max c - Min c) <=? f64_zero)%f64 = true)
    by (apply f64_sub_le_zero; assumption).
  split; split; auto.
  - intros H0. destruct (Min c <? Max c)%f64 eqn:E; [reflexivity|].
    apply f64_not_lt_le in E; auto. apply Hneg in E.
    apply f64_lt_not_le in H0. congruence.
  - intros H0. destruct (Max c <=? Min c)%f64 eqn:E; [reflexivity|].
    apply f64_not_le_lt in E; auto. apply Hpos in E.
    apply f64_lt_not_le in E. congruence.
Qed.

(** X12. The flow of a capacity against the sign of its window.  A capacity
    with a finite minimum above zero and a negative window, or with a
    positive window and a finite minimum of zero or less, resolves to a flow
    that is zero or less: it is a bucket that construction rejects, and
    [NewLimiter] given a client and such a bucket among its buckets returns
    the error "all rate parameters must be positive". *)
Theorem X12_capacity_flow_sign (c : Capacity) :
  is_finite (Min c) = true ->
  (Window c < 0 /\ (f64_zero <? Min c)%f64 = true) \/
  (0 < Window c /\ (Min c <=? f64_zero)%f64 = true) ->
  (fst (resolve (bucket c)) <=? f64_zero)%f64 = true /\
  rejected_tier (resolve (bucket c)) = true /\
  forall (W : Type) (cfg : Cfg.Config W) (st : State W),
    Cfg.Redis cfg <> None -> In (bucket c) (Cfg.Buckets cfg) ->
    Cfg.NewLimiter cfg st =
    (Err (errors_New "all rate parameters must be positive"), st).
Proof.
  intros Fn Hc.
  assert (Hflow : (fst (resolve (bucket c)) <=? f64_zero)%f64 = true).
  { cbn [resolve Bucket_Rate Capacity_Bucket Capacity_Rate fst].
    destruct Hc as [[Hw Hm]|[Hw Hm]].
    - pose proof (Seconds_strict (Window c) ltac:(lia)) as Hs.
      replace (Window c <? 0) with true in Hs by (symmetry; apply Z.ltb_lt, Hw).
      apply nonpositive_le_zero. left.
      apply (f64_div_signed false true); [exact Fn|apply f64_pos_signed, Hm|exact Hs].
    - pose proof (Seconds_strict (Window c) ltac:(lia)) as Hs.
      replace (Window c <? 0) with false in Hs by (symmetry; apply Z.ltb_ge; lia).
      apply nonpositive_le_zero.
      destruct (Min c) as [s|s| |s m e] eqn:Em; try discriminate.
      + destruct (Seconds (Window c)) as [t|t| |t my ey]; cbn [strict] in Hs;
          try tauto;
          repeat match goal with H : _ /\ _ |- _ => destruct H end; subst t;
          (destruct s; [left; reflexivity|right; reflexivity]).
      + destruct s; [|discriminate]. left.
        apply (f64_div_signed true false); [reflexivity|reflexivity|exact Hs]. }
  split; [exact Hflow|].
  assert (Hrej : rejected_tier (resolve (bucket c)) = true)
    by (unfold rejected_tier; rewrite Hflow; reflexivity).
  split; [exact Hrej|].
  intros W cfg st Hred Hin. rewrite NewLimiter_eq.
  destruct (Cfg.Redis cfg) as [r|]; [|congruence].
  destruct (Cfg.Buckets cfg) as [|b bs] eqn:Eb; [destruct Hin|].
  assert (Hex : existsb rejected_tier (tiers_of (b :: bs)) = true)
    by (apply rejected_bucket; eauto).
  rewrite Hex. reflexivity.
Qed.

Lemma X11_capacity_burst_witness :
  (f64_zero <? snd (resolve (bucket (mkCapacity Minute (f64_of_Z 10) (f64_of_Z 20)))))%f64
  = true.
Proof.
  apply (proj1 (X11_capacity_burst (mkCapacity Minute (f64_of_Z 10) (f64_of_Z 20))
                  eq_refl eq_refl eq_refl eq_refl)).
  reflexivity.
Defined.

Lemma X12_capacity_flow_sign_witness :
  Cfg.NewLimiter
    (Cfg.mkConfig (Some eval_only) "" None [bucket negative_window]) (start []) =
  (Err (errors_New "all rate parameters must be positive"), start []).
Proof.
  assert (Hc : (Window negative_window < 0 /\
                (f64_zero <? Min negative_window)%f64 = true) \/
               (0 < Window negative_window /\
                (Min negative_window <=? f64_zero)%f64 = true))
    by (left; split; reflexivity).
  refine (proj2 (proj2 (X12_capacity_flow_sign negative_window eq_refl Hc))
            _ (Cfg.mkConfig (Some eval_only) "" None [bucket negative_window])
            (start []) _ _).
  - discriminate.
  - left. reflexivity.
Defined.
